(** * Looping station audio engine: a shallow embedding and its properties

    The development follows the JavaScript sources of the audio engine:

    - [src/audio/TrackAudio.js]          loop transport, slicing, effect
                                         chain, LFO bindings
    - [src/audio/AudioContextManager.js] global LFOs, shared input streams
    - [src/audio/SamplerVoice.js]        trigger-mode state machine of a pad
    - [src/audio/SamplerService.js]      the twenty pads, choke groups, routing
    - [src/cast/CastManager.js]          PCM recorder, its capture worklet,
                                         WAV encoding, 24-bit cast framing
    - [EffectsService] (file of unknown name) the effect factory

    Conventions.  JavaScript numbers that carry audio time or sample values
    are rationals ([Q]).  Where a result depends on the binary rounding of
    the machine (a product that is floored to a sample count, a value
    stored into a [Float32Array]) the rounding is written out, with
    [Dbl.round] and [Dbl.round32]; in the transport positions and in the
    24-bit framing the arithmetic is exact.  Asynchronous functions are
    split at their [await].  Sample counts, pad numbers and the 24-bit
    integers of the wire format are [Z].  Objects of the Tone.js and
    Web Audio libraries (players, gain nodes, media streams) are not part of
    the sources; they appear as small records that keep exactly the
    observable state the sources read back ([loaded], [state], the list of
    outgoing connections).  Part I holds the definitions, Part II the
    statements and their proofs. *)

From Stdlib Require Import ZArith QArith Qround Qabs Lia Lqa.
From stdpp Require Import base gmap strings list.

(* ===================================================================== *)
(** * Part I.  Definitions                                                *)
(* ===================================================================== *)

(** ** JavaScript arithmetic used by the sources *)

Module Js.
Local Open Scope Q_scope.

(** [x || d] on numbers: [0] is falsy. *)
Definition num_or (x d : Q) : Q := if Qeq_bool x 0 then d else x.

(** [x || d] where [x] may still be [undefined]. *)
Definition opt_num_or (x : option Q) (d : Q) : Q :=
  match x with
  | Some v => num_or v d
  | None => d
  end.

(** Rounding toward zero, the quotient behind the [%] operator. *)
Definition trunc (x : Q) : Z :=
  if Qle_bool 0 x then Qfloor x else Qceiling x.

(** [a % b]: the remainder takes the sign of the dividend. *)
Definition rem (a b : Q) : Q := a - b * inject_Z (trunc (a / b)).

Definition lt_bool (a b : Q) : bool := negb (Qle_bool b a).

Definition min (a b : Q) : Q := if Qle_bool a b then a else b.
Definition max (a b : Q) : Q := if Qle_bool a b then b else a.

End Js.

(** ** Binary floating point

    Where the sources take the integer part of a product or store a product
    in a [Float32Array], the rounding of the machine decides the result.
    [round_to prec emin x] is the number of the form [m * 2^e], with [m] of
    at most [prec] bits and [e >= emin], nearest to [x], ties going to the
    even [m]: IEEE 754 round-to-nearest for a format of that precision.  A
    result beyond the largest finite number of the format, which the
    machine replaces by an infinity, is left as it is. *)

Module Dbl.
Local Open Scope Z_scope.

(** The integer nearest to [a / b] for [b > 0], ties to even. *)
Definition round_div (a b : Z) : Z :=
  let f := a / b in
  match 2 * (a mod b) ?= b with
  | Lt => f
  | Gt => f + 1
  | Eq => if Z.even f then f else f + 1
  end.

(** [2^l <= a / b], for positive [a] and [b]. *)
Definition ge_pow2 (a b l : Z) : bool :=
  if 0 <=? l then b * 2 ^ l <=? a else b <=? a * 2 ^ (- l).

(** The integer part of the binary logarithm of [a / b]. *)
Definition ilog2 (a b : Z) : Z :=
  let l := Z.log2 a - Z.log2 b in
  if ge_pow2 a b l then l else l - 1.

Definition round_to (prec emin : Z) (x : Q) : Q :=
  let a := Qnum x in
  let b := Zpos (Qden x) in
  if a =? 0 then 0%Q else
  let e := Z.max emin (ilog2 (Z.abs a) b - (prec - 1)) in
  if 0 <=? e
  then inject_Z (round_div a (b * 2 ^ e) * 2 ^ e)
  else Qmake (round_div (a * 2 ^ (- e)) b) (Z.to_pos (2 ^ (- e))).

(** A JavaScript number (binary64). *)
Definition round (x : Q) : Q := round_to 53 (-1074) x.

(** An element of a [Float32Array] (binary32). *)
Definition round32 (x : Q) : Q := round_to 24 (-149) x.

(** The number a decimal literal of the sources denotes. *)
Definition literal (x : Q) : Q := round x.

End Dbl.

(** ** Loop transport of a track ([TrackAudio.js]) *)

Module Loop.
Local Open Scope Q_scope.

(** [player.playbackRate] is read either as a signal object with a [value]
    or as a plain number. *)
Inductive PlaybackRate :=
| RateSignal (value : Q)
| RateNumber (n : Q).

(** The fields of [Tone.Player] that the transport code reads and writes. *)
Record Player := mkPlayer {
  loaded : bool;
  started : bool;              (* [player.state === 'started'] *)
  duration : Q;                (* [player.buffer.duration] *)
  playbackRate : PlaybackRate;
  loop : bool;
  reverse : bool;
  player_loopStart : Q;
  player_loopEnd : Q
}.

Record TrackAudio := mkTrack {
  player : Player;
  isRecording : bool;          (* [recorder.isRecording] *)
  playStartTime : Q;
  recordStartTime : Q;
  loopStart : Q;
  loopEnd : Q;
  playStartOffset : option Q;  (* [undefined] until the first start *)
  pausePosition : option Q
}.

Definition set_player (f : Player -> Player) (t : TrackAudio) : TrackAudio :=
  mkTrack (f (player t)) (isRecording t) (playStartTime t) (recordStartTime t)
          (loopStart t) (loopEnd t) (playStartOffset t) (pausePosition t).

(** The constructor: an empty looping player, all transport fields zero. *)
Definition new_track : TrackAudio :=
  mkTrack (mkPlayer false false 0 (RateNumber 1) true false 0 0)
          false 0 0 0 0 None None.

(** [loadData] / [loadUrl] once the buffer of length [d] seconds is decoded. *)
Definition loadData (d : Q) (t : TrackAudio) : TrackAudio :=
  let p := player t in
  mkTrack (mkPlayer true (started p) d (playbackRate p) true (reverse p) 0 d)
          (isRecording t) (playStartTime t) (recordStartTime t)
          0 d (playStartOffset t) (pausePosition t).

(** [setLoopStart(time)]; [None] stands for a [parseFloat] that gave NaN. *)
Definition setLoopStart (time : option Q) (t : TrackAudio) : TrackAudio :=
  match time with
  | None => t
  | Some newStart =>
      let p := player t in
      let p' := if loaded p
                then mkPlayer (loaded p) (started p) (duration p) (playbackRate p)
                              true (reverse p) newStart (player_loopEnd p)
                else p in
      mkTrack p' (isRecording t) (playStartTime t) (recordStartTime t)
              newStart (loopEnd t) (playStartOffset t) (pausePosition t)
  end.

Definition setLoopEnd (time : option Q) (t : TrackAudio) : TrackAudio :=
  match time with
  | None => t
  | Some newEnd =>
      let p := player t in
      let p' := if loaded p
                then mkPlayer (loaded p) (started p) (duration p) (playbackRate p)
                              true (reverse p) (player_loopStart p) newEnd
                else p in
      mkTrack p' (isRecording t) (playStartTime t) (recordStartTime t)
              (loopStart t) newEnd (playStartOffset t) (pausePosition t)
  end.

(** [startPlayback(offset)] at context time [now]. *)
Definition startPlayback (offset : option Q) (now : Q) (t : TrackAudio) : TrackAudio :=
  let p := player t in
  if negb (loaded p) then t else
  let startPos0 := match offset with Some o => o | None => loopStart t end in
  let bufferDur := duration p in
  let startPos := if Qle_bool bufferDur startPos0 then 0 else startPos0 in
  mkTrack (mkPlayer (loaded p) true (duration p) (playbackRate p)
                    (loop p) (reverse p) (player_loopStart p) (player_loopEnd p))
          (isRecording t) now (recordStartTime t)
          (loopStart t) (loopEnd t) (Some startPos) (pausePosition t).

Definition rate_of (r : PlaybackRate) : Q :=
  match r with
  | RateSignal v => v
  | RateNumber n => Js.num_or n 1
  end.

(** [getCurrentPosition()] evaluated at context time [now]. *)
Definition getCurrentPosition (now : Q) (t : TrackAudio) : Q :=
  if isRecording t then now - recordStartTime t else
  let p := player t in
  if started p then
    let dur := duration p in
    if Qeq_bool dur 0 then 0 else
    let rate := rate_of (playbackRate p) in
    let elapsed := (now - playStartTime t) * rate in
    let lStart := Js.num_or (loopStart t) 0 in
    let lEnd := Js.num_or (loopEnd t) dur in
    let loopLen := lEnd - lStart in
    if loop p && Js.lt_bool 0 loopLen then
      let startOffset := Js.opt_num_or (playStartOffset t) lStart in
      let relStart := startOffset - lStart in
      if reverse p then
        let relPos := Js.rem (relStart - elapsed) loopLen in
        let relPos := if Js.lt_bool relPos 0 then relPos + loopLen else relPos in
        lStart + relPos
      else
        let relPos := Js.rem (relStart + elapsed) loopLen in
        lStart + relPos
    else
      if reverse p
      then Js.max 0 (Js.opt_num_or (playStartOffset t) dur - elapsed)
      else Js.min dur (Js.opt_num_or (playStartOffset t) 0 + elapsed)
  else Js.opt_num_or (pausePosition t) 0.

(** The situation of the loop-position property: the player is started and
    looping, nothing is being recorded, a buffer is loaded. *)
Definition looping (t : TrackAudio) : Prop :=
  isRecording t = false /\ started (player t) = true /\
  loop (player t) = true /\ ~ duration (player t) == 0.

(** A session at the controls: load four seconds, move the loop start to 1 s,
    start, then drag the loop start to 2 s while the player runs. *)
Definition dragged_loop_start : TrackAudio :=
  setLoopStart (Some 2)
    (startPlayback None 10
      (setLoopStart (Some 1) (loadData 4 new_track))).

End Loop.

(** ** The PCM recorder and the WAV encoder ([CastManager.js], AudioUtils) *)

Module Recorder.
Local Open Scope Z_scope.

(** An [AudioBuffer] with two channels of equal length. *)
Record AudioBuffer := mkBuffer {
  numberOfChannels : Z;
  sampleRate : Z;
  channelL : list Q;
  channelR : list Q
}.

Definition frames (b : AudioBuffer) : Z := Z.of_nat (length (channelL b)).

(** The recorder fields that [start], the message handler and [stop] use.
    [targetSampleCount] is [undefined] unless [startRecording] was given a
    duration. *)
Record PCMRecorder := mkRecorder {
  leftBuffers : list (list Q);
  rightBuffers : list (list Q);
  recordingLength : Z;
  isRecording : bool;
  targetSampleCount : option Z;
  onComplete : bool;            (* a completion callback is installed *)
  ctxSampleRate : Z             (* [context.sampleRate] *)
}.

(** A fresh recorder on a context of the given rate. *)
Definition new_recorder (sr : Z) : PCMRecorder :=
  mkRecorder [] [] 0 false None false sr.

(** [TrackAudio.startRecording(duration)], the part that fixes the target:
    [if (duration) { sr = sampleRate || 48000; target = floor(duration*sr) }].
    [None] is the default [null]; the product is the one of the machine. *)
Definition set_target (duration : option Q) (r : PCMRecorder) : PCMRecorder :=
  match duration with
  | None => r
  | Some d =>
      if Qeq_bool d 0 then r else
      let sr := if ctxSampleRate r =? 0 then 48000 else ctxSampleRate r in
      mkRecorder (leftBuffers r) (rightBuffers r) (recordingLength r)
                 (isRecording r)
                 (Some (Qfloor (Dbl.round (d * inject_Z sr))))
                 (onComplete r) (ctxSampleRate r)
  end.

(** [start()]: the chunk lists are emptied and capture begins. *)
Definition start (r : PCMRecorder) : PCMRecorder :=
  mkRecorder [] [] 0 true (targetSampleCount r) (onComplete r) (ctxSampleRate r).

(** A number used as a condition. *)
Definition truthy (t : option Z) : bool :=
  match t with
  | Some z => negb (z =? 0)
  | None => false
  end.

(** The handler of a ['data'] message carrying one chunk per channel.  The
    second component tells whether the completion callback fired. *)
Definition on_data (left right : list Q) (r : PCMRecorder) : PCMRecorder * bool :=
  if negb (isRecording r) then (r, false) else
  let len := recordingLength r + Z.of_nat (length left) in
  let reached :=
    match targetSampleCount r with
    | Some T => negb (T =? 0) && (T <=? len)
    | None => false
    end in
  (mkRecorder (leftBuffers r ++ [left]) (rightBuffers r ++ [right]) len
              (if reached then false else true)
              (targetSampleCount r) (onComplete r) (ctxSampleRate r),
   reached && onComplete r).

Definition zeros (n : nat) : list Q := replicate n 0%Q.

(** [dst.set(src, offset)] on typed arrays, for a source that fits. *)
Definition set_at (dst src : list Q) (offset : nat) : list Q :=
  take offset dst ++ src ++ drop (offset + length src) dst.

(** The loop of [_mergeBuffers]. *)
Fixpoint merge_loop (buffers : list (list Q)) (result : list Q)
    (offset total : nat) : list Q :=
  match buffers with
  | [] => result
  | chunk :: rest =>
      let spaceLeft := (total - offset)%nat in
      if (spaceLeft =? 0)%nat then result else
      let toCopy := Nat.min (length chunk) spaceLeft in
      merge_loop rest (set_at result (take toCopy chunk) offset)
                 (offset + toCopy)%nat total
  end.

(** [_mergeBuffers(buffers, totalTargetLength)]: [new Float32Array(n)]
    raises a RangeError for a negative [n], here [None]. *)
Definition _mergeBuffers (buffers : list (list Q)) (totalTargetLength : Z)
    : option (list Q) :=
  if totalTargetLength <? 0 then None else
  let n := Z.to_nat totalTargetLength in
  Some (merge_loop buffers (zeros n) 0 n).

(** The silence test on the right channel: no sample among the first 1000
    exceeds 0.0001 in absolute value. *)
Definition rightIsSilent (right : list Q) : bool :=
  forallb (fun x => negb (Js.lt_bool (Dbl.literal (1 # 10000)) (Qabs x)))
          (take 1000 right).

(** [buf[i] *= m] on a [Float32Array]: the product of the machine, stored
    as a 32-bit float. *)
Definition fade_product (x m : Q) : Q := Dbl.round32 (Dbl.round (x * m)).

Definition scale_at (m : Q) (i : nat) (buf : list Q) : list Q :=
  alter (fun x => fade_product x m) i buf.

(** [i / fadeSamples]. *)
Definition fadeMultiplier (i fadeSamples : nat) : Q :=
  Dbl.round (inject_Z (Z.of_nat i) / inject_Z (Z.of_nat fadeSamples)).

(** One round of the fade loop, for index [i]. *)
Definition fade_step (finalLength fadeSamples : nat)
    (lr : list Q * list Q) (i : nat) : list Q * list Q :=
  let m := fadeMultiplier i fadeSamples in
  let l := scale_at m i (fst lr) in
  let r := scale_at m i (snd lr) in
  let tailIndex := (finalLength - 1 - i)%nat in
  (scale_at m tailIndex l, scale_at m tailIndex r).

(** What one round of the fade loop does to one channel. *)
Definition fade_channel_step (finalLength fadeSamples : nat)
    (buf : list Q) (i : nat) : list Q :=
  let m := fadeMultiplier i fadeSamples in
  scale_at m (finalLength - 1 - i)%nat (scale_at m i buf).

(** [Math.min(Math.floor(finalLength / 2), Math.floor(sampleRate * 0.005))]. *)
Definition fadeSamples (finalLength sr : Z) : Z :=
  Z.min (finalLength / 2)
        (Qfloor (Dbl.round (inject_Z sr * Dbl.literal (5 # 1000)))).

Definition fade (finalLength sr : Z) (lr : list Q * list Q) : list Q * list Q :=
  let n := Z.to_nat (fadeSamples finalLength sr) in
  fold_left (fade_step (Z.to_nat finalLength) n) (seq 0 n) lr.

Definition finalLength (r : PCMRecorder) : Z :=
  if truthy (targetSampleCount r)
  then Z.min (recordingLength r) (default 0 (targetSampleCount r))
  else recordingLength r.

(** The recorder as [stop()] leaves it. *)
Definition stopped (r : PCMRecorder) : PCMRecorder :=
  mkRecorder (leftBuffers r) (rightBuffers r) (recordingLength r) false
             (targetSampleCount r) false (ctxSampleRate r).

(** [stop()] up to the buffer that is handed to [encodeWAV]. *)
Definition stop_buffer (r : PCMRecorder) : option AudioBuffer :=
  let n := finalLength r in
  match _mergeBuffers (leftBuffers r) n, _mergeBuffers (rightBuffers r) n with
  | Some leftBuffer, Some rightBuffer =>
      if n =? 0 then
        Some (mkBuffer 2 (ctxSampleRate r) (zeros 128) (zeros 128))
      else
        let rightBuffer := if rightIsSilent rightBuffer then leftBuffer else rightBuffer in
        let faded := fade n (ctxSampleRate r) (leftBuffer, rightBuffer) in
        Some (mkBuffer 2 (ctxSampleRate r) (fst faded) (snd faded))
  | _, _ => None
  end.

(** [interleave], on channels of equal length. *)
Fixpoint interleave (leftChannel rightChannel : list Q) : list Q :=
  match leftChannel, rightChannel with
  | x :: l, y :: r => x :: y :: interleave l r
  | _, _ => []
  end.

(** One sample of [floatTo16BitPCM]: clamp, scale, and the truncation done
    by [setInt16]. *)
Definition floatTo16 (x : Q) : Z :=
  let s := Js.max (-1) (Js.min 1 x) in
  Js.trunc (if Js.lt_bool s 0 then s * 32768 else s * 32767)%Q.

(** What [encodeWAV] writes: the header fields and the 16-bit data. *)
Record Wav := mkWav {
  riffSize : Z;
  wavChannels : Z;
  wavSampleRate : Z;
  dataBytes : Z;
  pcm16 : list Z
}.

Definition encodeWAV (b : AudioBuffer) : Wav :=
  let interleaved := interleave (channelL b) (channelR b) in
  let len := Z.of_nat (length interleaved) in
  mkWav (36 + len * 2) (numberOfChannels b) (sampleRate b) (len * 2)
        (map floatTo16 interleaved).

Definition stop (r : PCMRecorder) : PCMRecorder * option Wav :=
  (stopped r, encodeWAV <$> stop_buffer r).

(** Sample frames per channel stored in a WAV of two 16-bit channels. *)
Definition wavFrames (w : Wav) : Z := dataBytes w / 4.

(** A capture session as [TrackAudio.startRecording] sets it up: a new
    recorder, the target from the duration, [start()], then the chunks the
    capture processor posts, in order. *)
Definition feed (chunks : list (list Q * list Q)) (r : PCMRecorder) : PCMRecorder :=
  fold_left (fun r c => fst (on_data (fst c) (snd c) r)) chunks r.

Definition session (sr : Z) (duration : option Q)
    (chunks : list (list Q * list Q)) : PCMRecorder :=
  feed chunks (start (set_target duration (new_recorder sr))).

End Recorder.

(** ** Sampler voices and the sampler service
       ([SamplerVoice.js], [SamplerService.js]) *)

Module Sampler.
Local Open Scope Z_scope.

Inductive Mode := oneshot | gate | toggle.

Definition mode_of_string (s : string) : option Mode :=
  if String.eqb s "oneshot" then Some oneshot
  else if String.eqb s "gate" then Some gate
  else if String.eqb s "toggle" then Some toggle
  else None.

(** The nodes a voice can be wired to. *)
Inductive Node :=
| SamplerOutput            (* [SamplerService.output], the shared sampler bus *)
| ChainInput (track : Z)   (* [chainInput] of the TrackAudio with this id *)
| OutputBus (voice : Z).   (* [outputBus] of the voice with this id *)

(** The player of a voice.  [started] is the state the player is scheduled
    to be in: [start] and [stop] are issued for a time 50 ms ahead. *)
Record Player := mkPlayer {
  loaded : bool;
  loop : bool;
  started : bool;
  outputs : list Node
}.

(** What the field [chokeGroup] holds: [null] (the constructor's value),
    [undefined] (a setter called without a group, a saved entry without the
    key) or a group number.  The service tests the field with [!== null]
    and compares groups with [===]. *)
Inductive ChokeGroup :=
| GNull
| GUndefined
| GNum (g : Z).

Global Instance ChokeGroup_eq_dec : EqDecision ChokeGroup.
Proof. solve_decision. Defined.

Record SamplerVoice := mkVoice {
  id : Z;
  mode : Mode;
  transwaveEnabled : bool;
  chokeGroup : ChokeGroup;
  name : option string;           (* [None]: the default label of the pad *)
  assignedUrl : option string;
  _isPlaying : bool;
  player : Player;
  outputBus : list Node           (* where [outputBus] is connected to *)
}.

Definition new_voice (i : Z) : SamplerVoice :=
  mkVoice i oneshot false GNull None None false
          (mkPlayer false false false [OutputBus i]) [].

Definition set_player (p : Player) (v : SamplerVoice) : SamplerVoice :=
  mkVoice (id v) (mode v) (transwaveEnabled v) (chokeGroup v) (name v)
          (assignedUrl v) (_isPlaying v) p (outputBus v).

Definition set_isPlaying (b : bool) (v : SamplerVoice) : SamplerVoice :=
  mkVoice (id v) (mode v) (transwaveEnabled v) (chokeGroup v) (name v)
          (assignedUrl v) b (player v) (outputBus v).

Definition set_loop (b : bool) (v : SamplerVoice) : SamplerVoice :=
  let p := player v in
  set_player (mkPlayer (loaded p) b (started p) (outputs p)) v.

(** [this.player.stop(time)]. *)
Definition player_stop (v : SamplerVoice) : SamplerVoice :=
  let p := player v in
  set_player (mkPlayer (loaded p) (loop p) false (outputs p)) v.

(** [play(time)]: [player.start] raises without a buffer; the exception is
    caught and the flag stays as it was. *)
Definition play (v : SamplerVoice) : SamplerVoice :=
  let p := player v in
  if loaded p
  then set_isPlaying true (set_player (mkPlayer (loaded p) (loop p) true (outputs p)) v)
  else v.

(** [stop(time)]: the flag is left to the [onstop] callback. *)
Definition stop (v : SamplerVoice) : SamplerVoice := player_stop v.

(** The [onstop] callback installed by the constructor. *)
Definition onstop (v : SamplerVoice) : SamplerVoice := set_isPlaying false v.

(** [trigger(time)] is an async function.  It returns at once for a voice
    without a sample.  Otherwise, when the audio context is not running, it
    suspends at [await Tone.start()] and the rest runs when that promise
    settles; when the context is running the whole body runs within the
    call. *)
Inductive Progress :=
| Returned
| Awaiting.

(** The body from [const safeTime] on. *)
Definition trigger_body (v : SamplerVoice) : SamplerVoice :=
  match mode v with
  | toggle =>
      if _isPlaying v
      then set_loop false (stop v)
      else play (set_loop true v)
  | gate =>
      let v := set_loop false v in
      let v := if _isPlaying v then player_stop v else v in
      play v
  | oneshot =>
      let v := set_loop (transwaveEnabled v) v in
      let v := if _isPlaying v then player_stop v else v in
      play v
  end.

(** From the call to the return or to the [await]; [running] is
    [Tone.context.state === 'running'] at the call. *)
Definition trigger (running : bool) (v : SamplerVoice)
    : SamplerVoice * Progress :=
  if negb (loaded (player v)) then (v, Returned)
  else if running then (trigger_body v, Returned)
  else (v, Awaiting).

(** From the [await] to the end, on the voice as it is by then. *)
Definition trigger_resume (v : SamplerVoice) : SamplerVoice := trigger_body v.

(** A call that runs to its end with nothing in between. *)
Definition trigger_to_end (running : bool) (v : SamplerVoice) : SamplerVoice :=
  match trigger running v with
  | (v', Returned) => v'
  | (v', Awaiting) => trigger_resume v'
  end.

Definition release (v : SamplerVoice) : SamplerVoice :=
  match mode v with
  | gate => stop v
  | _ => v
  end.

Definition setMode (m : string) (v : SamplerVoice) : SamplerVoice :=
  match mode_of_string m with
  | Some m' =>
      stop (mkVoice (id v) m' (transwaveEnabled v) (chokeGroup v) (name v)
                    (assignedUrl v) (_isPlaying v) (player v) (outputBus v))
  | None => v
  end.

(** [connect(dest)]: [outputBus.disconnect(); outputBus.connect(dest)]. *)
Definition connect (dest : Node) (v : SamplerVoice) : SamplerVoice :=
  mkVoice (id v) (mode v) (transwaveEnabled v) (chokeGroup v) (name v)
          (assignedUrl v) (_isPlaying v) (player v) [dest].

(** [voice.player.disconnect()]. *)
Definition player_disconnect (v : SamplerVoice) : SamplerVoice :=
  let p := player v in
  set_player (mkPlayer (loaded p) (loop p) (started p) []) v.

(** [load(url, name)], up to the request; the buffer arrives later. *)
Definition load (url : string) (nm : option string) (v : SamplerVoice) : SamplerVoice :=
  let nm' := match nm with
             | Some s => if String.eqb s "" then name v else Some s
             | None => name v
             end in
  mkVoice (id v) (mode v) (transwaveEnabled v) (chokeGroup v) nm'
          (Some url) (_isPlaying v) (player v) (outputBus v).

Definition load_resolved (v : SamplerVoice) : SamplerVoice :=
  let p := player v in
  set_player (mkPlayer true (loop p) (started p) (outputs p)) v.

(** What reaches one pad, in order, while the audio context is running. *)
Inductive PadEvent := Trigger | Release | PlayerStopped.

Definition pad_step (v : SamplerVoice) (e : PadEvent) : SamplerVoice :=
  match e with
  | Trigger => fst (trigger true v)
  | Release => release v
  | PlayerStopped => onstop v
  end.

Definition run (events : list PadEvent) (v : SamplerVoice) : SamplerVoice :=
  fold_left pad_step events v.

(** *** The service *)

Record SamplerService := mkService {
  voices : list SamplerVoice
}.

(** The constructor: voices 1 to 20, each wired to the sampler output. *)
Definition new_service : SamplerService :=
  mkService ((fun i => connect SamplerOutput (new_voice (Z.of_nat i + 1)))
               <$> seq 0 20).

(** [this.voices[padId - 1]]. *)
Definition getVoice (padId : Z) (svc : SamplerService) : option SamplerVoice :=
  if padId - 1 <? 0 then None else voices svc !! Z.to_nat (padId - 1).

Definition update_voice (padId : Z) (f : SamplerVoice -> SamplerVoice)
    (svc : SamplerService) : SamplerService :=
  mkService (alter f (Z.to_nat (padId - 1)) (voices svc)).

(** [v.chokeGroup === groupId]. *)
Definition in_group (g : ChokeGroup) (v : SamplerVoice) : bool :=
  bool_decide (chokeGroup v = g).

Definition silenceChokeGroup (groupId : ChokeGroup) (excludePadId : Z)
    (svc : SamplerService) : SamplerService :=
  mkService ((fun v => if in_group groupId v && negb (id v =? excludePadId)
                       then stop v else v) <$> voices svc).

(** [triggerPad(padId)]: the promise of [voice.trigger()] is not awaited,
    so the call returns with the trigger either done or suspended. *)
Definition triggerPad (running : bool) (padId : Z) (svc : SamplerService)
    : SamplerService * Progress :=
  match getVoice padId svc with
  | None => (svc, Returned)
  | Some voice =>
      let svc := match chokeGroup voice with
                 | GNull => svc
                 | g => silenceChokeGroup g (id voice) svc
                 end in
      (update_voice padId (fun v => fst (trigger running v)) svc,
       snd (trigger running voice))
  end.

(** The suspended trigger of pad [padId] runs to its end; only a pad with a
    voice has a trigger to suspend. *)
Definition resumePad (padId : Z) (svc : SamplerService) : SamplerService :=
  match getVoice padId svc with
  | Some _ => update_voice padId trigger_resume svc
  | None => svc
  end.

Definition releasePad (padId : Z) (svc : SamplerService) : SamplerService :=
  match getVoice padId svc with
  | None => svc
  | Some _ => update_voice padId release svc
  end.

Definition setPadChokeGroup (padId : Z) (group : ChokeGroup)
    (svc : SamplerService) : SamplerService :=
  match getVoice padId svc with
  | None => svc
  | Some _ =>
      update_voice padId
        (fun v => mkVoice (id v) (mode v) (transwaveEnabled v) group (name v)
                          (assignedUrl v) (_isPlaying v) (player v) (outputBus v))
        svc
  end.

(** The voices of group [g] whose player is started. *)
Definition sounding (g : ChokeGroup) (svc : SamplerService) : list SamplerVoice :=
  List.filter (fun v => in_group g v && started (player v)) (voices svc).

(** [window.tracks]: absent, or an array whose entries may be [null]; a
    track view holds its [trackAudio], which holds its [chainInput]. *)
Record TrackAudioRef := mkTrackAudioRef {
  track_id : Z;
  has_chainInput : bool
}.

Record TrackView := mkTrackView {
  trackAudio : option TrackAudioRef
}.

Definition Tracks := option (list (option TrackView)).

(** The chain input [assignSample] finds for [trackIndex], if any. *)
Definition chain_input_of (tracks : Tracks) (trackIndex : Z) : option Node :=
  match tracks with
  | None => None
  | Some ts =>
      if trackIndex <? 0 then None else
      match ts !! Z.to_nat trackIndex with
      | Some (Some tv) =>
          match trackAudio tv with
          | Some ta => if has_chainInput ta then Some (ChainInput (track_id ta)) else None
          | None => None
          end
      | _ => None
      end
  end.

Definition defaultMode (padId : Z) : string :=
  if (1 <=? padId) && (padId <=? 4) then "oneshot"
  else if (5 <=? padId) && (padId <=? 8) then "gate"
  else if (9 <=? padId) && (padId <=? 12) then "toggle"
  else if (13 <=? padId) && (padId <=? 16) then "gate"
  else if (17 <=? padId) && (padId <=? 20) then "gate"
  else "oneshot".

Definition trackIndex_of (padId : Z) : Z :=
  if padId =? 17 then 0
  else if padId =? 18 then 1
  else if padId =? 19 then 2
  else if padId =? 20 then 3
  else -1.

(** The routing step of [assignSample] on the voice. *)
Definition route (padId : Z) (tracks : Tracks) (v : SamplerVoice) : SamplerVoice :=
  if (17 <=? padId) && (padId <=? 20) then
    let v := player_disconnect v in
    match chain_input_of tracks (trackIndex_of padId) with
    | Some c => connect c v
    | None => connect SamplerOutput v
    end
  else connect SamplerOutput v.

(** [assignSample(padId, url, name)]; the boolean tells whether the promise
    is the one of [voice.load] ([true]) or the rejection "Invalid Pad ID". *)
Definition assignSample (padId : Z) (url : string) (nm : option string)
    (tracks : Tracks) (svc : SamplerService) : SamplerService * bool :=
  match getVoice padId svc with
  | Some _ =>
      (update_voice padId
         (fun v => load url nm (route padId tracks (setMode (defaultMode padId) v)))
         svc, true)
  | None => (svc, false)
  end.

(** The nodes the sound of a voice arrives at: those its player is
    connected to and, when the output bus is among them, those the output
    bus is connected to. *)
Definition reaches (v : SamplerVoice) (n : Node) : Prop :=
  n ∈ outputs (player v) \/
  (OutputBus (id v) ∈ outputs (player v) /\ n ∈ outputBus v).

(** The constructor numbers the voices by position. *)
Definition numbered (svc : SamplerService) : Prop :=
  forall (i : nat) (v : SamplerVoice),
    voices svc !! i = Some v -> id v = Z.of_nat i + 1.

End Sampler.

(** ** Cast framing: 24-bit PCM on the wire ([CastManager.js]) *)

Module Pcm.
Local Open Scope Z_scope.

(** [l = x * 0.95; if (l > 1) l = 1; else if (l < -1) l = -1]. *)
Definition headroom (x : Q) : Q :=
  let l := (x * (95 # 100))%Q in
  if Js.lt_bool 1 l then 1%Q
  else if Js.lt_bool l (-1) then (-1)%Q
  else l.

(** [Math.floor(l * 8388607)]. *)
Definition to_int24 (l : Q) : Z := Qfloor (l * 8388607).

(** The three bytes written for one integer, low byte first. *)
Definition bytes24 (n : Z) : list Z :=
  [Z.land n 255; Z.land (Z.shiftr n 8) 255; Z.land (Z.shiftr n 16) 255].

Definition encode_sample (x : Q) : list Z := bytes24 (to_int24 (headroom x)).

(** The body of the loop for one frame: left then right. *)
Definition encode_frame (l r : Q) : list Z := encode_sample l ++ encode_sample r.

(** The message handler on one batch, 24-bit branch.  A right channel that
    is shorter than the left yields NaN, whose bytes are zero. *)
Fixpoint encode_batch (leftData rightData : list Q) : list Z :=
  match leftData with
  | [] => []
  | l :: ls =>
      match rightData with
      | r :: rs => encode_frame l r ++ encode_batch ls rs
      | [] => encode_sample l ++ [0; 0; 0] ++ encode_batch ls []
      end
  end.

(** The alternate sub-mode ([_castMode === 'hls']) sends the floats. *)
Fixpoint float_batch (leftData rightData : list Q) : list Q :=
  match leftData, rightData with
  | l :: ls, r :: rs => headroom l :: headroom r :: float_batch ls rs
  | _, _ => []
  end.

(** Modelled from the spec: the receiving side, which unpacks the wire
    format, is not among the sources.  The spec names the format (24-bit
    signed little-endian interleaved stereo); the decoder below reads three
    bytes low byte first, takes the 24-bit value as two's complement and
    scales it back by the full-scale constant of the encoder. *)
Definition int24_of_bytes (b0 b1 b2 : Z) : Z :=
  let u := b0 + 256 * b1 + 65536 * b2 in
  if 8388608 <=? u then u - 16777216 else u.

Definition decode_sample (bytes : list Z) : option Q :=
  match bytes with
  | [b0; b1; b2] => Some (inject_Z (int24_of_bytes b0 b1 b2) / 8388607)%Q
  | _ => None
  end.

(** Modelled from the spec: the receiver's reading of a whole batch, six
    bytes per stereo frame, left sample first. *)
Fixpoint decode_batch (bytes : list Z) : option (list (Q * Q)) :=
  match bytes with
  | [] => Some []
  | b0 :: b1 :: b2 :: c0 :: c1 :: c2 :: rest =>
      match decode_batch rest with
      | Some frames =>
          Some ((inject_Z (int24_of_bytes b0 b1 b2) / 8388607,
                 inject_Z (int24_of_bytes c0 c1 c2) / 8388607)%Q :: frames)
      | None => None
      end
  | _ => None
  end.

(** The value a sample comes back as. *)
Definition quantized (x : Q) : Q := (inject_Z (to_int24 (headroom x)) / 8388607)%Q.

End Pcm.

(** ** Shared input streams ([AudioContextManager.js]) *)

Module Streams.

(** A [MediaStream] object is known by the position of the [getUserMedia]
    request that delivers it. *)
Definition MediaStream := nat.

(** The manager's cache and the capture hardware around it: [requests] logs
    every [getUserMedia] call (one hardware open each) with its device
    constraint; [live] holds the streams whose [active] flag is set. *)
Record Manager := mkManager {
  inputStreams : gmap string MediaStream;
  live : gset MediaStream;
  requests : list (option string)
}.

Definition new_manager : Manager := mkManager ∅ ∅ [].

Definition hardwareOpens (m : Manager) : nat := length (requests m).

(** [deviceId || 'default']. *)
Definition key_of (deviceId : option string) : string :=
  match deviceId with
  | Some s => if String.eqb s "" then "default" else s
  | None => "default"
  end.

(** [getSharedInputStream] is an async function with one suspension point,
    the [await] on [getUserMedia]. *)
Inductive Progress :=
| Returned (stream : MediaStream)
| Awaiting (request : nat).

(** From the call to the return or to the [await]. *)
Definition enter (deviceId : option string) (m : Manager) : Manager * Progress :=
  let key := key_of deviceId in
  let hit :=
    match inputStreams m !! key with
    | Some stream => if decide (stream ∈ live m) then Some stream else None
    | None => None
    end in
  match hit with
  | Some stream => (m, Returned stream)
  | None =>
      let cache := match inputStreams m !! key with
                   | Some _ => delete key (inputStreams m)
                   | None => inputStreams m
                   end in
      (mkManager cache (live m)
                 (requests m ++ [match deviceId with
                                 | Some s => if String.eqb s "" then None else Some s
                                 | None => None
                                 end]),
       Awaiting (length (requests m)))
  end.

(** From the [await] to the return, once the request has delivered its
    stream; [active] is the state the stream is delivered in. *)
Definition resume (deviceId : option string) (request : nat) (active : bool)
    (m : Manager) : Manager * MediaStream :=
  let key := key_of deviceId in
  (mkManager (<[key := request]> (inputStreams m))
             (if active then {[request]} ∪ live m else live m)
             (requests m),
   request).

(** A call that runs to its end with nothing in between. *)
Definition call (deviceId : option string) (m : Manager) : Manager * MediaStream :=
  match enter deviceId m with
  | (m', Returned stream) => (m', stream)
  | (m', Awaiting request) => resume deviceId request true m'
  end.

(** The capture device behind a stream goes away. *)
Definition stream_ended (stream : MediaStream) (m : Manager) : Manager :=
  mkManager (inputStreams m) (live m ∖ {[stream]}) (requests m).


End Streams.

(** ** Global LFOs and their bindings to track parameters
       ([AudioContextManager.js], [TrackAudio.js]) *)

Module Lfo.

(** The values a caller may pass as LFO index. *)
Inductive JsValue :=
| JUndefined
| JNull
| JNaN
| JNum (z : Z)
| JStr (s : string).

(** [index === 1]. *)
Definition is_one (index : JsValue) : bool :=
  match index with
  | JNum 1 => true
  | _ => false
  end.

(** The two oscillators of the manager, [null] until [init] has run; an
    oscillator object is known by a number. *)
Record Manager := mkManager {
  lfo : option nat;
  lfo2 : option nat
}.

Definition initialized : Manager := mkManager (Some 1) (Some 2).

Definition getLfo (index : JsValue) (m : Manager) : option nat :=
  if is_one index then lfo m else lfo2 m.

(** The parameters [getAudioParamByName] can resolve to. *)
Inductive AudioParam :=
| Volume | Pan | PlaybackRate | BassGain | MidGain | TrebleGain
| EffectParam (slot : Z) (prop : string).

Inductive Node :=
| LfoNode (obj : nat)        (* a global oscillator *)
| ParamNode (p : AudioParam)
| Made (n : nat).            (* the n-th node created with [new] *)

Definition Edge : Type := Node * Node.

Global Instance AudioParam_eq_dec : EqDecision AudioParam.
Proof. solve_decision. Defined.

Global Instance Node_eq_dec : EqDecision Node.
Proof. solve_decision. Defined.

(** An entry of [lfoConnections]; [negate] and [addMax] are set together,
    for a reversed binding only. *)
Record Connection := mkConnection {
  scale : nat;
  scaleMin : Q;
  scaleMax : Q;
  reversal : option (nat * nat);   (* [negate], [addMax] *)
  param : AudioParam;
  source : nat
}.

(** What [getAudioParamByName] can give back besides [null]: an audio
    parameter, or, for ['pitch'], the plain number that
    [player.playbackRate] is when the player does not keep it as a signal
    ([setPitch] and [getCurrentPosition] read it both ways). *)
Inductive Target :=
| TParam (p : AudioParam)
| TNumber (n : Q).

(** [!param] is false for an object and for a number other than zero. *)
Definition truthy (x : Target) : bool :=
  match x with
  | TParam _ => true
  | TNumber n => negb (Qeq_bool n 0%Q)
  end.

(** How a call ends: it returns, or an exception leaves it. *)
Inductive Outcome := Returned | Raised.

Global Instance Outcome_eq_dec : EqDecision Outcome.
Proof. solve_decision. Defined.

(** The LFO side of a track.  [edges] are the connections made for LFO
    bindings; [slotParam] stands for the slot branch of
    [getAudioParamByName], which looks a property up in an effect plug-in
    and answers with a [Tone.Param] or [null]; [playbackRate] is
    [player.playbackRate]. *)
Record Track := mkTrack {
  lfoConnections : gmap string Connection;
  lfoReverseState : gmap string bool;
  edges : list Edge;
  disposed : list nat;
  next : nat;
  slotParam : string -> option AudioParam;
  playbackRate : Loop.PlaybackRate
}.

(** The constructor; the player of a new track is the one of
    [Loop.new_track]. *)
Definition new_track : Track :=
  mkTrack ∅ ∅ [] [] 0 (fun _ => None) (Loop.playbackRate (Loop.player Loop.new_track)).

Definition getAudioParamByName (paramName : string) (t : Track) : option Target :=
  if String.eqb paramName "volume" then Some (TParam Volume)
  else if String.eqb paramName "pan" then Some (TParam Pan)
  else if String.eqb paramName "pitch" then
    Some (match playbackRate t with
          | Loop.RateSignal _ => TParam PlaybackRate
          | Loop.RateNumber n => TNumber n
          end)
  else if String.eqb paramName "bass" then Some (TParam BassGain)
  else if String.eqb paramName "mid" then Some (TParam MidGain)
  else if String.eqb paramName "treble" then Some (TParam TrebleGain)
  else if String.prefix "slot" paramName then TParam <$> slotParam t paramName
  else None.

(** The statements of the [try] block of [disconnectLFO]. *)
Inductive GraphOp :=
| Disconnect (e : Edge)
| Dispose (n : nat).

Definition set_edges (es : list Edge) (t : Track) : Track :=
  mkTrack (lfoConnections t) (lfoReverseState t) es (disposed t) (next t)
          (slotParam t) (playbackRate t).

(** One statement; [disconnect] raises when the connection is not there. *)
Definition graph_step (t : Track) (op : GraphOp) : option Track :=
  match op with
  | Disconnect e =>
      if decide (e ∈ edges t)
      then Some (set_edges (filter (fun x => x ≠ e) (edges t)) t)
      else None
  | Dispose n =>
      Some (mkTrack (lfoConnections t) (lfoReverseState t) (edges t)
                    (n :: disposed t) (next t) (slotParam t) (playbackRate t))
  end.

(** The block: statements run in order, the first exception ends it. *)
Fixpoint try_ops (ops : list GraphOp) (t : Track) : Track :=
  match ops with
  | [] => t
  | op :: rest =>
      match graph_step t op with
      | Some t' => try_ops rest t'
      | None => t
      end
  end.

(** The statements [disconnectLFO] runs for an entry, in their order. *)
Definition disconnect_ops (conn : Connection) : list GraphOp :=
  Disconnect (LfoNode (source conn), Made (scale conn)) ::
  match reversal conn with
  | Some (negate, addMax) =>
      [Disconnect (Made (scale conn), Made negate);
       Disconnect (Made negate, Made addMax);
       Disconnect (Made addMax, ParamNode (param conn));
       Dispose negate;
       Dispose addMax]
  | None =>
      [Disconnect (Made (scale conn), ParamNode (param conn))]
  end ++ [Dispose (scale conn)].

Definition disconnectLFO (paramName : string) (t : Track) : Track :=
  match lfoConnections t !! paramName with
  | None => t
  | Some conn =>
      let t' := try_ops (disconnect_ops conn) t in
      mkTrack (delete paramName (lfoConnections t')) (lfoReverseState t')
              (edges t') (disposed t') (next t') (slotParam t') (playbackRate t')
  end.

(** [new Tone.Scale(..)], [new Tone.Multiply(-1)], [new Tone.Add(max)]: the
    node made is known by the number [next] has at that moment. *)
Definition set_next (n : nat) (t : Track) : Track :=
  mkTrack (lfoConnections t) (lfoReverseState t) (edges t) (disposed t) n
          (slotParam t) (playbackRate t).

(** [a.connect(b)] between two nodes. *)
Definition connect (a b : Node) (t : Track) : Track :=
  set_edges ((a, b) :: edges t) t.

(** [this.lfoConnections.set(paramName, conn)]. *)
Definition set_connection (paramName : string) (conn : Connection) (t : Track) : Track :=
  mkTrack (<[paramName := conn]> (lfoConnections t)) (lfoReverseState t)
          (edges t) (disposed t) (next t) (slotParam t) (playbackRate t).

(** The default value of the parameter [lfoIndex = 1]: it replaces an
    argument that is [undefined]. *)
Definition default_index (lfoIndex : JsValue) : JsValue :=
  match lfoIndex with
  | JUndefined => JNum 1
  | v => v
  end.

(** [connectLFO(paramName, min, max, lfoIndex = 1)], with the way the call
    ends.  The last [connect] of either branch has [param] as destination:
    a connection can be made to an audio node or an audio parameter only,
    so for a plain number that statement raises.  There is no [try] around
    it: the exception leaves [connectLFO], after the nodes have been made
    and the connections before it have been set up, and before the entry is
    stored. *)
Definition connectLFO_run (paramName : string) (min max : Q) (lfoIndex : JsValue)
    (m : Manager) (t : Track) : Track * Outcome :=
  let lfoIndex := default_index lfoIndex in
  let t := disconnectLFO paramName t in
  match getAudioParamByName paramName t with
  | None => (t, Returned)
  | Some param =>
      if negb (truthy param) then (t, Returned) else
      match getLfo lfoIndex m with
      | None => (t, Returned)
      | Some lfoNode =>
          let scale := next t in
          let t := set_next (S scale) t in
          let isReversed := default false (lfoReverseState t !! paramName) in
          if isReversed then
            let negate := S scale in
            let addMax := S (S scale) in
            let t := set_next (S (S (S scale))) t in
            let t := connect (LfoNode lfoNode) (Made scale) t in
            let t := connect (Made scale) (Made negate) t in
            let t := connect (Made negate) (Made addMax) t in
            match param with
            | TParam p =>
                (set_connection paramName
                   (mkConnection scale min max (Some (negate, addMax)) p lfoNode)
                   (connect (Made addMax) (ParamNode p) t),
                 Returned)
            | TNumber _ => (t, Raised)
            end
          else
            let t := connect (LfoNode lfoNode) (Made scale) t in
            match param with
            | TParam p =>
                (set_connection paramName
                   (mkConnection scale min max None p lfoNode)
                   (connect (Made scale) (ParamNode p) t),
                 Returned)
            | TNumber _ => (t, Raised)
            end
      end
  end.

(** The track a call of [connectLFO] leaves behind, however it ends. *)
Definition connectLFO (paramName : string) (min max : Q) (lfoIndex : JsValue)
    (m : Manager) (t : Track) : Track :=
  fst (connectLFO_run paramName min max lfoIndex m t).

(** Whether the call ends by an exception. *)
Definition connectLFO_raises (paramName : string) (min max : Q)
    (lfoIndex : JsValue) (m : Manager) (t : Track) : bool :=
  bool_decide (snd (connectLFO_run paramName min max lfoIndex m t) = Raised).

(** [updateLfoRange(paramName, min, max)]: the rescale is changed in place. *)
Definition updateLfoRange (paramName : string) (min max : Q) (t : Track) : Track :=
  match lfoConnections t !! paramName with
  | None => t
  | Some c =>
      mkTrack (<[paramName := mkConnection (scale c) min max (reversal c)
                                           (param c) (source c)]>
                 (lfoConnections t))
              (lfoReverseState t) (edges t) (disposed t) (next t) (slotParam t)
              (playbackRate t)
  end.

(** *** The shape of a binding, for the invariant of the graph *)

(** The nodes made for a binding and the connections it consists of. *)
Definition conn_nodes (c : Connection) : list nat :=
  scale c :: match reversal c with
             | Some (ng, ad) => [ng; ad]
             | None => []
             end.

Definition conn_edges (c : Connection) : list Edge :=
  (LfoNode (source c), Made (scale c)) ::
  match reversal c with
  | Some (ng, ad) =>
      [(Made (scale c), Made ng); (Made ng, Made ad); (Made ad, ParamNode (param c))]
  | None => [(Made (scale c), ParamNode (param c))]
  end.

Definition conn_disposals (c : Connection) : list nat :=
  match reversal c with
  | Some (ng, ad) => [ng; ad]
  | None => []
  end ++ [scale c].

(** The entry [connectLFO] stores when its nodes are numbered from [sc]. *)
Definition new_connection (sc : nat) (min max : Q) (isReversed : bool)
    (p : AudioParam) (lfoNode : nat) : Connection :=
  mkConnection sc min max
               (if isReversed then Some (S sc, S (S sc)) else None) p lfoNode.

(** A track with the entry [c] stored and its connections in the graph. *)
Definition bind (paramName : string) (c : Connection) (t : Track) : Track :=
  mkTrack (<[paramName := c]> (lfoConnections t)) (lfoReverseState t)
          (reverse (conn_edges c) ++ edges t) (disposed t)
          (length (conn_nodes c) + next t) (slotParam t) (playbackRate t).

(** The nodes created with [new] that an edge touches. *)
Definition made_of (x : Node) : list nat :=
  match x with
  | Made n => [n]
  | _ => []
  end.

Definition edge_nodes (e : Edge) : list nat := made_of (fst e) ++ made_of (snd e).

(** The bindings and the graph agree: every binding has its connections in
    place, its nodes are distinct, already allocated and its own, and every
    connection of the graph belongs to a binding. *)
Record consistent (t : Track) : Prop := mkConsistent {
  bound_nodes : forall name c, lfoConnections t !! name = Some c ->
                  NoDup (conn_nodes c) /\
                  (forall n, n ∈ conn_nodes c -> n < next t);
  bound_edges : forall name c, lfoConnections t !! name = Some c ->
                  forall e, e ∈ conn_edges c -> e ∈ edges t;
  own_nodes : forall name1 name2 c1 c2,
                  name1 <> name2 ->
                  lfoConnections t !! name1 = Some c1 ->
                  lfoConnections t !! name2 = Some c2 ->
                  forall n, n ∈ conn_nodes c1 -> n ∉ conn_nodes c2;
  edges_bound : forall e, e ∈ edges t ->
                  exists name c, lfoConnections t !! name = Some c /\
                                 e ∈ conn_edges c
}.

(** The fields a block of graph statements never touches. *)
Definition same_bindings (t t' : Track) : Prop :=
  lfoConnections t' = lfoConnections t /\
  lfoReverseState t' = lfoReverseState t /\
  next t' = next t /\ slotParam t' = slotParam t /\
  playbackRate t' = playbackRate t.

(** Oscillator [l] drives the parameter bound under [name]: the entry is
    there, fed by [l], and all its connections are in the graph. *)
Definition drives (t : Track) (l : nat) (name : string) : Prop :=
  exists c, lfoConnections t !! name = Some c /\ source c = l /\
            forall e, e ∈ conn_edges c -> e ∈ edges t.

(** What a call of [connectLFO] that raises at its last connection has
    set up by then, the nodes being numbered from [sc]: the connections
    before the last one. *)
Definition leaked (l sc : nat) (isReversed : bool) : list Edge :=
  if isReversed
  then [(Made (S sc), Made (S (S sc))); (Made sc, Made (S sc)); (LfoNode l, Made sc)]
  else [(LfoNode l, Made sc)].

Definition after_raise (l : nat) (isReversed : bool) (t : Track) : Track :=
  mkTrack (lfoConnections t) (lfoReverseState t)
          (leaked l (next t) isReversed ++ edges t) (disposed t)
          ((if isReversed then 3 else 1) + next t) (slotParam t) (playbackRate t).

End Lfo.


(** ** The capture processor of the recorder
       ([CastManager.js], the worklet code registered by [registerModule]) *)

Module Worklet.

(** What the processor posts on its port. *)
Inductive Message :=
| Alive (skipping : nat)
| Data (left right : list Q)
| Peak (value : Q) (channels : nat).

Record RecorderProcessor := mkProcessor {
  bufferSize : nat;
  bufferL : list Q;
  bufferR : list Q;
  index : nat;
  _peak : Q;
  _peakCount : nat;
  samplesToSkip : nat;
  skippedSamples : nat
}.

(** The constructor; [latencySamples] comes from the processor options and
    may be missing ([|| 0]). *)
Definition new_processor (latencySamples : option nat)
    : RecorderProcessor * list Message :=
  let skip := default 0 latencySamples in
  (mkProcessor 2048 (replicate 2048 0%Q) (replicate 2048 0%Q) 0 0%Q 0 skip 0,
   [Alive skip]).

(** The body of the sample loop for one pair of input samples. *)
Definition sample_step (st : RecorderProcessor * list Message) (valL valR : Q)
    : RecorderProcessor * list Message :=
  let p := fst st in
  if skippedSamples p <? samplesToSkip p then
    (mkProcessor (bufferSize p) (bufferL p) (bufferR p) (index p) (_peak p)
                 (_peakCount p) (samplesToSkip p) (S (skippedSamples p)),
     snd st)
  else
    let abs := Js.max (Qabs valL) (Qabs valR) in
    let peak := if Js.lt_bool (_peak p) abs then abs else _peak p in
    let bl := <[index p := valL]> (bufferL p) in
    let br := <[index p := valR]> (bufferR p) in
    if bufferSize p <=? S (index p) then
      (mkProcessor (bufferSize p) bl br 0 peak (_peakCount p)
                   (samplesToSkip p) (skippedSamples p),
       snd st ++ [Data bl br])
    else
      (mkProcessor (bufferSize p) bl br (S (index p)) peak (_peakCount p)
                   (samplesToSkip p) (skippedSamples p),
       snd st).

(** The loop over the left channel; the right sample is read at the same
    position.  Channels of one render quantum have the same length, so the
    default is never read. *)
Fixpoint sample_loop (i : nat) (leftRest rightIn : list Q)
    (st : RecorderProcessor * list Message) : RecorderProcessor * list Message :=
  match leftRest with
  | [] => st
  | valL :: rest =>
      sample_loop (S i) rest rightIn
                  (sample_step st valL (default 0%Q (rightIn !! i)))
  end.

(** [process(inputs)] on the channels of [inputs[0]]. *)
Definition process (input : list (list Q)) (p : RecorderProcessor)
    : RecorderProcessor * list Message :=
  match input with
  | [] => (p, [])
  | leftIn :: others =>
      let rightIn := match others with
                     | r :: _ => r
                     | [] => leftIn
                     end in
      let st := sample_loop 0 leftIn rightIn (p, []) in
      let p1 := fst st in
      if 30 <? S (_peakCount p1) then
        (mkProcessor (bufferSize p1) (bufferL p1) (bufferR p1) (index p1) 0%Q 0
                     (samplesToSkip p1) (skippedSamples p1),
         snd st ++ [Peak (_peak p1) (length input)])
      else
        (mkProcessor (bufferSize p1) (bufferL p1) (bufferR p1) (index p1)
                     (_peak p1) (S (_peakCount p1))
                     (samplesToSkip p1) (skippedSamples p1),
         snd st)
  end.

(** The processor over a sequence of render quanta. *)
Definition run (inputs : list (list (list Q)))
    (st : RecorderProcessor * list Message) : RecorderProcessor * list Message :=
  fold_left (fun st input =>
               let r := process input (fst st) in (fst r, snd st ++ snd r))
            inputs st.

Definition data_chunks (msgs : list Message) : list (list Q * list Q) :=
  omap (fun m => match m with
                 | Data l r => Some (l, r)
                 | _ => None
                 end) msgs.

(** The left channel of a render quantum, as the loop reads it. *)
Definition left_of (input : list (list Q)) : list Q :=
  match input with
  | [] => []
  | leftIn :: _ => leftIn
  end.

(** What ties a processor to the samples it has been given so far. *)
Definition tracks_input (skip : nat) (consumed : list Q)
    (st : RecorderProcessor * list Message) : Prop :=
  let p := fst st in
  bufferSize p = 2048 /\ length (bufferL p) = 2048 /\ length (bufferR p) = 2048 /\
  index p < 2048 /\ samplesToSkip p = skip /\
  skippedSamples p = Nat.min skip (length consumed) /\
  Forall (fun c => length (fst c) = 2048 /\ length (snd c) = 2048)
         (data_chunks (snd st)) /\
  concat (fst <$> data_chunks (snd st)) ++ take (index p) (bufferL p)
    = drop skip consumed.

End Worklet.


(** ** More operations on LFO bindings ([TrackAudio.js]) *)

Module LfoOps.
Import Lfo.

(** [setLfoReversal(paramName, reversed)]: the flag is stored and, when the
    parameter is bound, the binding is rebuilt with the same range; the
    index is found by comparing the source with [getLfo(2)].  The result is
    the track the call leaves behind; the call raises when its [connectLFO]
    does. *)
Definition setLfoReversal (paramName : string) (reversed : bool)
    (m : Manager) (t : Track) : Track :=
  let changed :=
    negb (Bool.eqb (default false (lfoReverseState t !! paramName)) reversed) in
  if changed then
    let t1 := mkTrack (lfoConnections t)
                      (<[paramName := reversed]> (lfoReverseState t))
                      (edges t) (disposed t) (next t) (slotParam t)
                      (playbackRate t) in
    match lfoConnections t1 !! paramName with
    | Some conn =>
        let lfoIndex :=
          if decide (Some (source conn) = getLfo (JNum 2) m)
          then JNum 2 else JNum 1 in
        connectLFO paramName (scaleMin conn) (scaleMax conn) lfoIndex m
                   (disconnectLFO paramName t1)
    | None => t1
    end
  else t.

End LfoOps.


(** ** The effect chain of a track ([TrackAudio.js]) and the effect factory *)

Module EffectChain.

(** An effect stands for the pair [effect.input || effect],
    [effect.output || effect]; a connection to [Fx e] enters the effect, a
    connection from it leaves the effect. *)
Inductive Node :=
| ChainInput
| ChainOutput
| Fx (effect : nat).

Definition Edge : Type := Node * Node.

Global Instance Node_eq_dec : EqDecision Node.
Proof. solve_decision. Defined.

(** An effect instance: its identity, the name stored for the UI, the
    [enabled] flag, and whether connecting a node to it raises. *)
Record Effect := mkEffect {
  eid : nat;
  ename : string;
  enabled : bool;
  faulty : bool
}.

Record Track := mkTrack {
  effects : list (option Effect);       (* the seven slots *)
  auditioningEffect : option Effect;
  edges : list Edge;
  disposed : list nat
}.

(** Reading and writing an array element; a write past the end extends the
    array, the gap reading as [undefined]. *)
Definition js_get {A : Type} (l : list (option A)) (i : nat) : option A :=
  mjoin (l !! i).

Definition js_set {A : Type} (i : nat) (v : option A) (l : list (option A))
    : list (option A) :=
  if decide (i < length l) then <[i := v]> l
  else l ++ replicate (i - length l) None ++ [v].

(** [try { lastNode.connect(effect.input || effect); lastNode = ... }
    catch (e) { ... }] on the pair (last node, connections). *)
Definition try_connect (st : Node * list Edge) (e : Effect) : Node * list Edge :=
  if faulty e then st
  else (Fx (eid e), snd st ++ [(fst st, Fx (eid e))]).

Definition chain_step (st : Node * list Edge) (slot : option Effect)
    : Node * list Edge :=
  match slot with
  | Some e => if enabled e then try_connect st e else st
  | None => st
  end.

Definition reconnectEffectChain (t : Track) : Track :=
  let kept := filter (fun e : Edge => fst e ≠ ChainInput) (edges t) in
  let st := fold_left chain_step (effects t) (ChainInput, kept) in
  let st := match auditioningEffect t with
            | Some e => try_connect st e
            | None => st
            end in
  mkTrack (effects t) (auditioningEffect t)
          (snd st ++ [(fst st, ChainOutput)]) (disposed t).

(** The constructor: seven empty slots, and the chain built once. *)
Definition new_track : Track :=
  reconnectEffectChain (mkTrack (replicate 7 None) None [] []).

Definition swapEffects (slotA slotB : nat) (t : Track) : Track :=
  if (7 <=? slotA) || (7 <=? slotB) then t else
  let temp := js_get (effects t) slotA in
  let e1 := js_set slotA (js_get (effects t) slotB) (effects t) in
  let e2 := js_set slotB temp e1 in
  reconnectEffectChain (mkTrack e2 (auditioningEffect t) (edges t) (disposed t)).

(** [effect.dispose()] as far as the track knows: the call is recorded. *)
Definition dispose_slot (slotIndex : nat) (t : Track) : list nat :=
  match js_get (effects t) slotIndex with
  | Some old => eid old :: disposed t
  | None => disposed t
  end.

(** [setEffect(slotIndex, effectName, params)]; [made] is what
    [effectsService.createEffect] returned. *)
Definition setEffect (slotIndex : nat) (made : option Effect) (t : Track)
    : Track * option Effect :=
  match made with
  | Some effect =>
      (reconnectEffectChain
         (mkTrack (js_set slotIndex (Some effect) (effects t))
                  (auditioningEffect t) (edges t) (dispose_slot slotIndex t)),
       Some effect)
  | None => (t, None)
  end.

Definition getEffectState (slotIndex : nat) (t : Track) : option Effect :=
  js_get (effects t) slotIndex.

Definition transferAuditionToSlot (slotIndex : nat) (t : Track)
    : Track * option Effect :=
  match auditioningEffect t with
  | None => (t, None)
  | Some instance =>
      (reconnectEffectChain
         (mkTrack (js_set slotIndex (Some instance) (effects t)) None
                  (edges t) (dispose_slot slotIndex t)),
       Some instance)
  end.

(** The effects the chain runs through, in order: the enabled slots that
    accept a connection, then the audition effect if it accepts one. *)
Definition in_chain (slot : option Effect) : option nat :=
  match slot with
  | Some e => if enabled e && negb (faulty e) then Some (eid e) else None
  | None => None
  end.

Definition active (t : Track) : list nat :=
  omap in_chain (effects t) ++
  match auditioningEffect t with
  | Some e => if faulty e then [] else [eid e]
  | None => []
  end.

Definition route (t : Track) : list Node :=
  ChainInput :: (Fx <$> active t) ++ [ChainOutput].

(** The connections between neighbours of a path. *)
Fixpoint links (path : list Node) : list Edge :=
  match path with
  | a :: rest =>
      match rest with
      | b :: _ => (a, b) :: links rest
      | [] => []
      end
  | [] => []
  end.

(** *** The effect factory ([EffectsService], source file of unknown name) *)

(** An entry of [window.effectConfigs]: the name of the custom class, if
    the entry has one. *)
Record EffectConfig := mkConfig {
  isCustom : option string
}.

(** [getEffectConfig]: the categories are searched in order. *)
Fixpoint getEffectConfig (configs : list (gmap string EffectConfig))
    (effectName : string) : option EffectConfig :=
  match configs with
  | [] => None
  | category :: rest =>
      match category !! effectName with
      | Some c => Some c
      | None => getEffectConfig rest effectName
      end
  end.

(** [createEffect(effectName, params)]: [configs] is [None] when
    [window.effectConfigs] is missing; [classes] maps the name of a custom
    class to whether its constructor succeeds and to whether the instance
    accepts connections; [fresh] is the identity of the new instance. *)
Definition createEffect (configs : option (list (gmap string EffectConfig)))
    (classes : option (gmap string (bool * bool))) (fresh : nat)
    (effectName : string) : option Effect :=
  match configs with
  | None => None
  | Some cs =>
      match getEffectConfig cs effectName with
      | None => None
      | Some config =>
          match isCustom config, classes with
          | Some className, Some cl =>
              if String.eqb className "" then None else
              match cl !! className with
              | Some (true, ok) => Some (mkEffect fresh effectName true (negb ok))
              | _ => None
              end
          | _, _ => None
          end
      end
  end.

End EffectChain.


(** ** More of the loop transport ([TrackAudio.js]) *)

Module LoopOps.
Import Loop.
Local Open Scope Q_scope.

(** [_syncHead()] at context time [now]: a running player takes its present
    position as the new start offset. *)
Definition _syncHead (now : Q) (t : TrackAudio) : TrackAudio :=
  if started (player t) then
    mkTrack (player t) (isRecording t) now (recordStartTime t)
            (loopStart t) (loopEnd t)
            (Some (getCurrentPosition now t)) (pausePosition t)
  else t.

Section Pitch.

(** [Math.pow(2, x)]. *)
Variable pow2 : Q -> Q.

(** [setPitch(value)] at context time [now]. *)
Definition setPitch (value now : Q) (t : TrackAudio) : TrackAudio :=
  let t := _syncHead now t in
  let semitones := (value / 100) * 12 in
  let rate := pow2 (semitones / 12) in
  set_player
    (fun p => mkPlayer (loaded p) (started p) (duration p)
                (match playbackRate p with
                 | RateSignal _ => RateSignal rate
                 | RateNumber _ => RateNumber rate
                 end)
                (loop p) (reverse p) (player_loopStart p) (player_loopEnd p))
    t.

End Pitch.

(** The loop region as [getCurrentPosition] reads it, and its test for the
    wrapping branch. *)
Definition region_start (t : TrackAudio) : Q := Js.num_or (loopStart t) 0.
Definition region_end (t : TrackAudio) : Q :=
  Js.num_or (loopEnd t) (duration (player t)).
Definition wraps (t : TrackAudio) : bool :=
  loop (player t) && Js.lt_bool 0 (region_end t - region_start t).

End LoopOps.


(** ** Cutting the loop region out of the loaded audio ([TrackAudio.js]) *)

Module Slice.
Import Loop Recorder.
Local Open Scope Z_scope.

(** An index of [subarray(begin, end)]: a negative one counts from the end,
    and the result is clamped to the array. *)
Definition rel_index (len i : Z) : Z :=
  if i <? 0 then Z.max (len + i) 0 else Z.min i len.

Definition subarray (data : list Q) (b e : Z) : list Q :=
  let len := Z.of_nat (length data) in
  let b' := rel_index len b in
  let e' := rel_index len e in
  take (Z.to_nat (e' - b')) (drop (Z.to_nat b') data).

(** [sliceSelection()]; [audioBuffer] is [player.buffer.get()], [None] when
    the player holds no buffer.  [AudioUtils.encodeWAV] is the one of
    [CastManager.js].  The difference and the two products are the ones of
    the machine, and 0.01 is the number the literal denotes. *)
Definition sliceSelection (t : TrackAudio) (audioBuffer : option AudioBuffer)
    : option Wav :=
  if negb (loaded (player t)) then None else
  match audioBuffer with
  | None => None
  | Some b =>
      let startTime := Js.num_or (loopStart t) 0 in
      let endTime := Js.num_or (loopEnd t) (duration (player t)) in
      let dur := Dbl.round (endTime - startTime) in
      if Qle_bool dur (Dbl.literal (1 # 100)) then None else
      let startSample := Qfloor (Dbl.round (startTime * inject_Z (sampleRate b))) in
      let endSample := Qfloor (Dbl.round (endTime * inject_Z (sampleRate b))) in
      let frameCount := endSample - startSample in
      if frameCount <=? 0 then None else
      let cut := fun oldData : list Q =>
        set_at (zeros (Z.to_nat frameCount))
               (subarray oldData startSample endSample) 0 in
      Some (encodeWAV (mkBuffer (numberOfChannels b) (sampleRate b)
                                (cut (channelL b)) (cut (channelR b))))
  end.

(** The first sample of the region and the first one after it. *)
Definition startSample (t : TrackAudio) (b : AudioBuffer) : Z :=
  Qfloor (Dbl.round (Js.num_or (loopStart t) 0 * inject_Z (sampleRate b))).
Definition endSample (t : TrackAudio) (b : AudioBuffer) : Z :=
  Qfloor (Dbl.round (Js.num_or (loopEnd t) (duration (player t))
                     * inject_Z (sampleRate b))).

(** The length of the region as the guard of [sliceSelection] sees it. *)
Definition sliceDuration (t : TrackAudio) : Q :=
  Dbl.round (Js.num_or (loopEnd t) (duration (player t))
             - Js.num_or (loopStart t) 0).

End Slice.


(** ** Streams the manager knows ([AudioContextManager.js]) *)

Module StreamOps.
Import Streams.

(** Every stream in the cache or alive was delivered by a request that has
    been made. *)
Definition known (m : Manager) : Prop :=
  (forall key stream, inputStreams m !! key = Some stream ->
                      stream < length (requests m)) /\
  (forall stream, stream ∈ live m -> stream < length (requests m)).

End StreamOps.


(** ** More of the sampler service ([SamplerService.js]) *)

Module SamplerOps.
Import Sampler.
Local Open Scope Z_scope.

(** [stopAll()]. *)
Definition stopAll (svc : SamplerService) : SamplerService :=
  mkService (stop <$> voices svc).

(** An entry of the array [toJSON] returns and [loadState] reads. *)
Record PadState := mkPadState {
  s_id : Z;
  s_url : option string;
  s_mode : string;
  s_chokeGroup : ChokeGroup;      (* [GUndefined]: the entry has no such key *)
  s_name : option string;
  s_loop : bool
}.

Definition mode_string (m : Mode) : string :=
  match m with
  | oneshot => "oneshot"
  | gate => "gate"
  | toggle => "toggle"
  end.

Definition toJSON (svc : SamplerService) : list PadState :=
  (fun v => mkPadState (id v) (assignedUrl v) (mode_string (mode v))
                       (chokeGroup v) (name v) (loop (player v)))
    <$> voices svc.

Definition set_chokeGroup (group : ChokeGroup) (v : SamplerVoice) : SamplerVoice :=
  mkVoice (id v) (mode v) (transwaveEnabled v) group (name v)
          (assignedUrl v) (_isPlaying v) (player v) (outputBus v).

(** [voice && s.url]: the entry names a pad of the service and carries a
    non-empty URL. *)
Definition restorable (svc : SamplerService) (s : PadState) : option string :=
  match getVoice (s_id s) svc, s_url s with
  | Some _, Some url => if String.eqb url "" then None else Some url
  | _, _ => None
  end.

(** The [forEach] of [loadState].  [SamplerVoice] has no method [setLoop]:
    the call [voice.setLoop(!!s.loop)] raises a TypeError after the three
    statements before it have run, and the exception ends the loop.  The
    boolean tells whether the call ended by that exception. *)
Fixpoint loadState_entries (state : list PadState) (svc : SamplerService)
    : SamplerService * bool :=
  match state with
  | [] => (svc, false)
  | s :: rest =>
      match restorable svc s with
      | Some url =>
          (update_voice (s_id s)
             (fun v => set_chokeGroup (s_chokeGroup s)
                         (setMode (s_mode s) (load url (s_name s) v)))
             svc,
           true)
      | None => loadState_entries rest svc
      end
  end.

(** [loadState(state)]; [None] is a value that is not an array. *)
Definition loadState (state : option (list PadState)) (svc : SamplerService)
    : SamplerService * bool :=
  match state with
  | Some entries => loadState_entries entries svc
  | None => (svc, false)
  end.

End SamplerOps.


(** ** The level reports of the capture processor ([CastManager.js]) *)

Module WorkletPeak.
Import Worklet.

Definition peaks (msgs : list Message) : list Q :=
  omap (fun m => match m with
                 | Peak v _ => Some v
                 | _ => None
                 end) msgs.

(** The samples of a render quantum that the loop reads: the left channel
    and, position by position, the right one (the left again for a mono
    input). *)
Definition samples_read (input : list (list Q)) : list Q :=
  match input with
  | [] => []
  | leftIn :: others =>
      let rightIn := match others with
                     | r :: _ => r
                     | [] => leftIn
                     end in
      leftIn ++ take (length leftIn) rightIn
  end.

(** The latency compensation is over: no sample is discarded any more. *)
Definition skip_done (p : RecorderProcessor) : Prop :=
  samplesToSkip p <= skippedSamples p.

(** [v] is the largest absolute value among [samples], or 0 when there is
    none. *)
Definition is_peak_of (samples : list Q) (v : Q) : Prop :=
  (forall x, x ∈ samples -> (Qabs x <= v)%Q) /\
  (v = 0%Q \/ exists x, x ∈ samples /\ v = Qabs x).

(** What the sample loop keeps, from [st0] to [st], over the samples
    [read]. *)
Definition loop_inv (read : list Q) (st0 st : RecorderProcessor * list Message)
    : Prop :=
  skip_done (fst st) /\ _peakCount (fst st) = _peakCount (fst st0) /\
  peaks (snd st) = peaks (snd st0) /\
  (_peak (fst st0) <= _peak (fst st))%Q /\
  (forall x, x ∈ read -> (Qabs x <= _peak (fst st))%Q) /\
  (_peak (fst st) = _peak (fst st0) \/ _peak (fst st) = 0%Q \/
   exists x, x ∈ read /\ _peak (fst st) = Qabs x).

End WorkletPeak.

(* ===================================================================== *)
(** * Part II.  Properties                                                *)
(* ===================================================================== *)

(** ** JavaScript arithmetic *)

Module JsFacts.

Section RemFacts.
Local Open Scope Q_scope.

Variables a b : Q.
Hypothesis b_pos : 0 < b.

Lemma trunc_nonneg : 0 <= a -> Js.trunc (a / b) = Qfloor (a / b).
Proof.
  intros Ha. unfold Js.trunc.
  assert (H : 0 <= a / b) by (apply Qle_shift_div_l; lra).
  apply Qle_bool_iff in H. now rewrite H.
Qed.

Lemma trunc_neg : a < 0 -> Js.trunc (a / b) = Qceiling (a / b).
Proof.
  intros Ha. unfold Js.trunc.
  destruct (Qle_bool 0 (a / b)) eqn:E; [|reflexivity].
  apply Qle_bool_iff in E.
  assert (a / b < 0) by (apply Qlt_shift_div_r; lra). lra.
Qed.

Lemma floor_scaled_le : b * inject_Z (Qfloor (a / b)) <= a.
Proof.
  assert (H : b * inject_Z (Qfloor (a / b)) <= b * (a / b))
    by (apply Qmult_le_l; [exact b_pos | apply Qfloor_le]).
  rewrite Qmult_div_r in H by lra. exact H.
Qed.

Lemma floor_scaled_gt : a < b * inject_Z (Qfloor (a / b) + 1).
Proof.
  assert (H : b * (a / b) < b * inject_Z (Qfloor (a / b) + 1))
    by (apply Qmult_lt_l; [exact b_pos | apply Qlt_floor]).
  rewrite Qmult_div_r in H by lra. exact H.
Qed.

Lemma ceiling_scaled_ge : a <= b * inject_Z (Qceiling (a / b)).
Proof.
  assert (H : b * (a / b) <= b * inject_Z (Qceiling (a / b)))
    by (apply Qmult_le_l; [exact b_pos | apply Qle_ceiling]).
  rewrite Qmult_div_r in H by lra. exact H.
Qed.

Lemma ceiling_scaled_lt : b * inject_Z (Qceiling (a / b) - 1) < a.
Proof.
  assert (H : b * inject_Z (Qceiling (a / b) - 1) < b * (a / b))
    by (apply Qmult_lt_l; [exact b_pos | apply Qceiling_lt]).
  rewrite Qmult_div_r in H by lra. exact H.
Qed.

(** A non-negative dividend leaves a remainder in [[0, b)]. *)
Lemma rem_nonneg_range : 0 <= a -> 0 <= Js.rem a b /\ Js.rem a b < b.
Proof.
  intros Ha. unfold Js.rem. rewrite trunc_nonneg by exact Ha.
  pose proof floor_scaled_le as Hl. pose proof floor_scaled_gt as Hu.
  rewrite inject_Z_plus in Hu. change (inject_Z 1) with 1 in Hu.
  set (f := inject_Z (Qfloor (a / b))) in *.
  split; nra.
Qed.

(** A negative dividend leaves a remainder in [(-b, 0]]. *)
Lemma rem_neg_range : a < 0 -> - b < Js.rem a b /\ Js.rem a b <= 0.
Proof.
  intros Ha. unfold Js.rem. rewrite trunc_neg by exact Ha.
  pose proof ceiling_scaled_ge as Hl. pose proof ceiling_scaled_lt as Hu.
  unfold Z.sub in Hu. rewrite inject_Z_plus in Hu.
  change (inject_Z (- (1))) with (- (1))%Q in Hu.
  set (c := inject_Z (Qceiling (a / b))) in *.
  split; nra.
Qed.

End RemFacts.

Local Open Scope Q_scope.

Lemma num_or_cases (x d : Q) :
  (x == 0 /\ Js.num_or x d = d) \/ (~ x == 0 /\ Js.num_or x d = x).
Proof.
  unfold Js.num_or. destruct (Qeq_bool x 0) eqn:E.
  - left. split; [now apply Qeq_bool_iff | reflexivity].
  - right. split; [|reflexivity]. intros H. apply Qeq_bool_iff in H. congruence.
Qed.

Lemma lt_bool_iff (x y : Q) : Js.lt_bool x y = true <-> x < y.
Proof.
  unfold Js.lt_bool. destruct (Qle_bool y x) eqn:E; simpl.
  - apply Qle_bool_iff in E. split; [discriminate | lra].
  - split; [|reflexivity]. intros _.
    destruct (Qlt_le_dec x y) as [H|H]; [exact H|].
    apply Qle_bool_iff in H. congruence.
Qed.

End JsFacts.

(** ** Rounding *)

Module DblFacts.

(** Zero is a number of every format. *)
Lemma round_to_zero (prec emin : Z) (x : Q) :
  Qnum x = 0%Z -> Dbl.round_to prec emin x = 0%Q.
Proof. intros H. unfold Dbl.round_to. now rewrite H. Qed.

Lemma Qnum_zero (x : Q) : (x == 0)%Q -> Qnum x = 0%Z.
Proof. unfold Qeq. cbn. lia. Qed.

End DblFacts.

(** ** Loop transport *)

Module LoopFacts.
Import Loop JsFacts.
Local Open Scope Q_scope.

(** The wrapped value computed on the reverse branch. *)
Lemma reverse_wrap_range (a b : Q) :
  0 < b ->
  let r := Js.rem a b in
  let r' := if Js.lt_bool r 0 then r + b else r in
  0 <= r' /\ r' < b.
Proof.
  intros Hb r r'. subst r'.
  destruct (Js.lt_bool r 0) eqn:E.
  - apply lt_bool_iff in E.
    destruct (Qlt_le_dec a 0) as [Ha|Ha].
    + destruct (rem_neg_range a b Hb Ha). fold r in H, H0. lra.
    + destruct (rem_nonneg_range a b Hb Ha). fold r in H, H0. lra.
  - assert (Hr : 0 <= r).
    { destruct (Qlt_le_dec r 0) as [H|H]; [|exact H].
      apply lt_bool_iff in H. congruence. }
    destruct (Qlt_le_dec a 0) as [Ha|Ha].
    + destruct (rem_neg_range a b Hb Ha). fold r in H, H0. lra.
    + destruct (rem_nonneg_range a b Hb Ha). fold r in H, H0. lra.
Qed.

(** Reverse playback: the position is inside the loop, wherever playback
    was started from. *)
Lemma reverse_position_in_loop (now : Q) (t : TrackAudio) :
  looping t ->
  reverse (player t) = true ->
  ~ loopEnd t == 0 ->
  loopStart t < loopEnd t ->
  loopStart t <= getCurrentPosition now t /\ getCurrentPosition now t < loopEnd t.
Proof.
  intros (Hrec & Hst & Hloop & Hdur) Hrev Hend Hlt.
  unfold getCurrentPosition. rewrite Hrec, Hst, Hloop, Hrev. cbn zeta.
  destruct (Qeq_bool (duration (player t)) 0) eqn:Ed.
  { apply Qeq_bool_iff in Ed. contradiction. }
  destruct (num_or_cases (loopEnd t) (duration (player t))) as [[He _]|[_ ->]];
    [contradiction|].
  destruct (num_or_cases (loopStart t) 0) as [[Hs ->]|[_ ->]].
  - assert (Hlen : 0 < loopEnd t - 0) by lra.
    pose proof (proj2 (lt_bool_iff _ _) Hlen) as ->. cbn [andb].
    match goal with |- context [Js.rem ?a ?b] =>
      pose proof (reverse_wrap_range a b Hlen) as Hw end.
    cbn zeta in Hw. lra.
  - assert (Hlen : 0 < loopEnd t - loopStart t) by lra.
    pose proof (proj2 (lt_bool_iff _ _) Hlen) as ->. cbn [andb].
    match goal with |- context [Js.rem ?a ?b] =>
      pose proof (reverse_wrap_range a b Hlen) as Hw end.
    cbn zeta in Hw. lra.
Qed.

(** Forward playback started at or after the loop start: the position is
    inside the loop. *)
Lemma forward_position_in_loop (now o : Q) (t : TrackAudio) :
  looping t ->
  reverse (player t) = false ->
  ~ loopEnd t == 0 ->
  loopStart t < loopEnd t ->
  playStartOffset t = Some o ->
  loopStart t <= o ->
  0 <= (now - playStartTime t) * rate_of (playbackRate (player t)) ->
  loopStart t <= getCurrentPosition now t /\ getCurrentPosition now t < loopEnd t.
Proof.
  intros (Hrec & Hst & Hloop & Hdur) Hrev Hend Hlt Ho Hle Hel.
  unfold getCurrentPosition. rewrite Hrec, Hst, Hloop, Hrev, Ho. cbn zeta.
  destruct (Qeq_bool (duration (player t)) 0) eqn:Ed.
  { apply Qeq_bool_iff in Ed. contradiction. }
  destruct (num_or_cases (loopEnd t) (duration (player t))) as [[He _]|[_ ->]];
    [contradiction|].
  unfold Js.opt_num_or.
  destruct (num_or_cases (loopStart t) 0) as [[Hs ->]|[_ ->]].
  - assert (Hlen : 0 < loopEnd t - 0) by lra.
    pose proof (proj2 (lt_bool_iff _ _) Hlen) as ->. cbn [andb].
    destruct (num_or_cases o 0) as [[Hz ->]|[_ ->]].
    + match goal with |- context [Js.rem ?a ?b] =>
        assert (Ha : 0 <= a) by lra;
        destruct (rem_nonneg_range a b Hlen Ha) end. lra.
    + match goal with |- context [Js.rem ?a ?b] =>
        assert (Ha : 0 <= a) by lra;
        destruct (rem_nonneg_range a b Hlen Ha) end. lra.
  - assert (Hlen : 0 < loopEnd t - loopStart t) by lra.
    pose proof (proj2 (lt_bool_iff _ _) Hlen) as ->. cbn [andb].
    destruct (num_or_cases o (loopStart t)) as [[Hz ->]|[_ ->]].
    + match goal with |- context [Js.rem ?a ?b] =>
        assert (Ha : 0 <= a) by lra;
        destruct (rem_nonneg_range a b Hlen Ha) end. lra.
    + match goal with |- context [Js.rem ?a ?b] =>
        assert (Ha : 0 <= a) by lra;
        destruct (rem_nonneg_range a b Hlen Ha) end. lra.
Qed.

(** The state reached by dragging the loop start during playback is a
    looping one, with a proper loop region. *)
Lemma dragged_loop_start_looping :
  looping dragged_loop_start /\
  loopStart dragged_loop_start == 2 /\ loopEnd dragged_loop_start == 4 /\
  playStartOffset dragged_loop_start = Some 1 /\
  playStartTime dragged_loop_start == 10.
Proof.
  unfold looping. cbn. repeat split; try reflexivity.
  intros H. discriminate H.
Qed.

(** C1.  The claim asks for a read position inside [[loopStart, loopEnd)]
    for every looping track.  Here the code is run on a looping track whose
    loop start was moved from 1 s to 2 s during forward playback: half a
    second after the start, with loop region [[2, 4)], [getCurrentPosition]
    answers 1.5 s, before the loop start.  The forward branch keeps the
    negative remainder that the reverse branch folds back into the loop. *)
Theorem forward_position_escapes_loop :
  let t := dragged_loop_start in
  let now := 21 # 2 in
  looping t /\ loopStart t < loopEnd t /\ 0 <= now - playStartTime t /\
  getCurrentPosition now t == 3 # 2 /\
  getCurrentPosition now t < loopStart t.
Proof.
  cbv zeta. split; [exact (proj1 dragged_loop_start_looping)|].
  vm_compute. repeat split; intros; discriminate.
Qed.

(** On the same track with the direction reversed the position is folded
    back into the loop. *)
Lemma reverse_position_same_track :
  let t := set_player (fun p => mkPlayer (loaded p) (started p) (duration p)
                         (playbackRate p) (loop p) true
                         (player_loopStart p) (player_loopEnd p))
                      dragged_loop_start in
  getCurrentPosition (21 # 2) t == 5 # 2.
Proof. vm_compute. reflexivity. Qed.

End LoopFacts.

(** ** The PCM recorder *)

Module RecorderFacts.
Import Recorder.
Local Open Scope Z_scope.

Lemma length_zeros (n : nat) : length (zeros n) = n.
Proof. apply length_replicate. Qed.

Lemma length_set_at (dst src : list Q) (offset : nat) :
  (offset + length src <= length dst)%nat ->
  length (set_at dst src offset) = length dst.
Proof.
  intros H. unfold set_at.
  rewrite !length_app, length_take, length_drop. lia.
Qed.

Lemma length_merge_loop (buffers : list (list Q)) :
  forall (result : list Q) (offset total : nat),
    length result = total -> (offset <= total)%nat ->
    length (merge_loop buffers result offset total) = total.
Proof.
  induction buffers as [|chunk rest IH]; intros result offset total Hlen Hoff.
  - exact Hlen.
  - cbn [merge_loop].
    destruct (Nat.eqb_spec (total - offset) 0) as [E|E]; [exact Hlen|].
    apply IH; [|lia].
    rewrite length_set_at; [exact Hlen|].
    rewrite length_take. lia.
Qed.

Lemma mergeBuffers_some (buffers : list (list Q)) (n : Z) :
  0 <= n ->
  exists buf, _mergeBuffers buffers n = Some buf /\ length buf = Z.to_nat n.
Proof.
  intros Hn. unfold _mergeBuffers.
  destruct (Z.ltb_spec n 0) as [H|H]; [lia|].
  eexists. split; [reflexivity|].
  apply length_merge_loop; [apply length_zeros | lia].
Qed.

(** The merge copies the chunks in order and cuts them at the requested
    length; what the chunks do not fill stays zero. *)
Lemma merge_loop_prefix (buffers : list (list Q)) :
  forall (done : list Q) (total : nat),
    (length done <= total)%nat ->
    merge_loop buffers (done ++ zeros (total - length done)) (length done) total
    = take total (done ++ concat buffers ++ zeros total).
Proof.
  induction buffers as [|chunk rest IH]; intros done total Hlen.
  - cbn [merge_loop concat app].
    rewrite take_app_ge by exact Hlen. unfold zeros.
    rewrite take_replicate. f_equal. f_equal. lia.
  - cbn [merge_loop concat].
    destruct (Nat.eqb_spec (total - length done) 0) as [E|E].
    + rewrite E. cbn [zeros replicate]. rewrite app_nil_r.
      rewrite take_app_le by lia. symmetry. apply take_ge. lia.
    + set (toCopy := Nat.min (length chunk) (total - length done)).
      assert (Hcopy : length (take toCopy chunk) = toCopy)
        by (rewrite length_take; unfold toCopy; lia).
      assert (Hset : set_at (done ++ zeros (total - length done))
                            (take toCopy chunk) (length done)
                     = (done ++ take toCopy chunk)
                         ++ zeros (total - length (done ++ take toCopy chunk))).
      { unfold set_at. rewrite take_app_length, Hcopy.
        rewrite drop_app_add. unfold zeros. rewrite drop_replicate.
        rewrite length_app, Hcopy, <- app_assoc.
        do 3 f_equal. lia. }
      rewrite Hset.
      replace (length done + toCopy)%nat with (length (done ++ take toCopy chunk))
        by (rewrite length_app, Hcopy; reflexivity).
      rewrite IH by (rewrite length_app, Hcopy; unfold toCopy; lia).
      destruct (Nat.le_gt_cases (length chunk) (total - length done)) as [Hle|Hgt].
      * replace toCopy with (length chunk) by (unfold toCopy; lia).
        rewrite firstn_all. now rewrite <- !app_assoc.
      * replace toCopy with (total - length done)%nat by (unfold toCopy; lia).
        rewrite <- !app_assoc.
        rewrite !(take_app_ge done) by lia.
        f_equal.
        rewrite take_app_le, take_take by (rewrite length_take; lia).
        rewrite take_app_le by lia. f_equal. lia.
Qed.

Lemma mergeBuffers_prefix (buffers : list (list Q)) (n : Z) :
  0 <= n ->
  _mergeBuffers buffers n
  = Some (take (Z.to_nat n) (concat buffers ++ zeros (Z.to_nat n))).
Proof.
  intros Hn. unfold _mergeBuffers.
  destruct (Z.ltb_spec n 0) as [H|H]; [lia|]. f_equal.
  pose proof (merge_loop_prefix buffers [] (Z.to_nat n)) as Hp.
  cbn [length app] in Hp. rewrite Nat.sub_0_r in Hp. apply Hp. lia.
Qed.

(** When at least [n] samples were captured the result is their first [n]. *)
Lemma mergeBuffers_truncates (buffers : list (list Q)) (n : Z) :
  0 <= n -> (Z.to_nat n <= length (concat buffers))%nat ->
  _mergeBuffers buffers n = Some (take (Z.to_nat n) (concat buffers)).
Proof.
  intros Hn Hlen. rewrite mergeBuffers_prefix by exact Hn.
  now rewrite take_app_le.
Qed.

Lemma length_scale_at (m : Q) (i : nat) (buf : list Q) :
  length (scale_at m i buf) = length buf.
Proof. apply length_alter. Qed.

(** The fade treats both channels alike: lengths are kept, and channels
    that are equal before the fade are equal after it. *)
Lemma fade_fold_length (n k : nat) (idx : list nat) :
  forall lr : list Q * list Q,
    length (fst (fold_left (fade_step n k) idx lr)) = length (fst lr) /\
    length (snd (fold_left (fade_step n k) idx lr)) = length (snd lr).
Proof.
  induction idx as [|i idx IH]; intros lr; [split; reflexivity|].
  cbn [fold_left]. destruct (IH (fade_step n k lr i)) as [Hl Hr].
  rewrite Hl, Hr. unfold fade_step. cbn [fst snd].
  now rewrite !length_scale_at.
Qed.

Lemma fade_fold_same (n k : nat) (idx : list nat) :
  forall lr : list Q * list Q,
    fst lr = snd lr ->
    fst (fold_left (fade_step n k) idx lr) = snd (fold_left (fade_step n k) idx lr).
Proof.
  induction idx as [|i idx IH]; intros lr Heq; [exact Heq|].
  cbn [fold_left]. apply IH. unfold fade_step. cbn [fst snd]. now rewrite Heq.
Qed.

Lemma fade_length (n sr : Z) (l r : list Q) :
  length (fst (fade n sr (l, r))) = length l /\
  length (snd (fade n sr (l, r))) = length r.
Proof. unfold fade. apply (fade_fold_length _ _ _ (l, r)). Qed.

Lemma fade_same (n sr : Z) (l : list Q) :
  snd (fade n sr (l, l)) = fst (fade n sr (l, l)).
Proof. unfold fade. symmetry. now apply fade_fold_same. Qed.

(** The length [stop] settles on, for a positive target. *)
Lemma finalLength_target (r : PCMRecorder) (T : Z) :
  targetSampleCount r = Some T -> 0 < T ->
  finalLength r = Z.min (recordingLength r) T.
Proof.
  intros HT Hpos. unfold finalLength, truthy. rewrite HT. cbn.
  destruct (Z.eqb_spec T 0); [lia | reflexivity].
Qed.

(** What [stop] hands to the encoder, by cases on the final length. *)
Lemma stop_buffer_cases (r : PCMRecorder) :
  0 <= finalLength r ->
  exists L R,
    _mergeBuffers (leftBuffers r) (finalLength r) = Some L /\
    _mergeBuffers (rightBuffers r) (finalLength r) = Some R /\
    length L = Z.to_nat (finalLength r) /\
    length R = Z.to_nat (finalLength r) /\
    stop_buffer r =
      Some (if finalLength r =? 0
            then mkBuffer 2 (ctxSampleRate r) (zeros 128) (zeros 128)
            else
              let faded := fade (finalLength r) (ctxSampleRate r)
                             (L, if rightIsSilent R then L else R) in
              mkBuffer 2 (ctxSampleRate r) (fst faded) (snd faded)).
Proof.
  intros Hn.
  destruct (mergeBuffers_some (leftBuffers r) _ Hn) as (L & HL & HlenL).
  destruct (mergeBuffers_some (rightBuffers r) _ Hn) as (R & HR & HlenR).
  exists L, R. repeat split; try assumption.
  unfold stop_buffer. rewrite HL, HR.
  destruct (finalLength r =? 0); reflexivity.
Qed.

Lemma length_interleave (l : list Q) :
  forall r, length l = length r ->
  length (interleave l r) = (2 * length l)%nat.
Proof.
  induction l as [|x l IH]; intros [|y r] H; try discriminate; [reflexivity|].
  cbn [interleave length]. rewrite IH by (cbn in H; lia). lia.
Qed.

Lemma wavFrames_encodeWAV (b : AudioBuffer) :
  length (channelL b) = length (channelR b) ->
  wavFrames (encodeWAV b) = frames b /\
  length (pcm16 (encodeWAV b)) = (2 * length (channelL b))%nat.
Proof.
  intros H. unfold wavFrames, encodeWAV, frames. cbn [dataBytes pcm16].
  rewrite length_map, length_interleave by exact H. split; [|reflexivity].
  rewrite Nat2Z.inj_mul. change (Z.of_nat 2) with 2.
  replace (2 * Z.of_nat (length (channelL b)) * 2)
    with (Z.of_nat (length (channelL b)) * 4) by lia.
  apply Z.div_mul. lia.
Qed.

Lemma feed_invariant (chunks : list (list Q * list Q)) :
  forall r,
    0 <= recordingLength r ->
    0 <= recordingLength (feed chunks r) /\
    targetSampleCount (feed chunks r) = targetSampleCount r /\
    ctxSampleRate (feed chunks r) = ctxSampleRate r.
Proof.
  induction chunks as [|c chunks IH]; intros r Hr; [now repeat split|].
  unfold feed. cbn [fold_left]. fold (feed chunks (on_data c.1 c.2 r).1).
  assert (H : 0 <= recordingLength (on_data c.1 c.2 r).1 /\
              targetSampleCount (on_data c.1 c.2 r).1 = targetSampleCount r /\
              ctxSampleRate (on_data c.1 c.2 r).1 = ctxSampleRate r).
  { unfold on_data. destruct (isRecording r); cbn; repeat split; lia. }
  destruct H as (H1 & H2 & H3).
  destruct (IH _ H1) as (I1 & I2 & I3).
  repeat split; [exact I1 | congruence | congruence].
Qed.

Lemma session_fields (sr : Z) (d : Q) (chunks : list (list Q * list Q)) :
  0 < sr -> ~ (d == 0)%Q ->
  let r := session sr (Some d) chunks in
  0 <= recordingLength r /\
  targetSampleCount r = Some (Qfloor (Dbl.round (d * inject_Z sr))) /\
  ctxSampleRate r = sr.
Proof.
  intros Hsr Hd r. subst r. unfold session.
  assert (Hset : set_target (Some d) (new_recorder sr)
                 = mkRecorder [] [] 0 false
                     (Some (Qfloor (Dbl.round (d * inject_Z sr)))) false sr).
  { unfold set_target, new_recorder.
    destruct (Qeq_bool d 0) eqn:E; [apply Qeq_bool_iff in E; contradiction|].
    cbn [ctxSampleRate leftBuffers rightBuffers recordingLength isRecording
         onComplete].
    destruct (Z.eqb_spec sr 0); [lia | reflexivity]. }
  rewrite Hset.
  match goal with |- context [feed chunks ?r0] =>
    destruct (feed_invariant chunks r0) as (H1 & H2 & H3); [cbn; lia|] end.
  rewrite H2, H3. split; [exact H1|]. split; reflexivity.
Qed.

(** A duration of zero sets no target; a target of one sample or more
    comes from a duration that is not zero. *)
Lemma target_positive_duration (sr : Z) (d : Q) :
  1 <= Qfloor (Dbl.round (d * inject_Z sr)) -> ~ (d == 0)%Q.
Proof.
  intros HT E. apply DblFacts.Qnum_zero in E.
  unfold Dbl.round in HT. rewrite DblFacts.round_to_zero in HT.
  - change (Qfloor 0%Q) with 0 in HT. lia.
  - cbn [Qnum Qmult]. rewrite E. reflexivity.
Qed.

(** C2 (as amended).  For a session started with a duration [d] whose target
    [T], the integer part of the machine's product [d * sampleRate], is at
    least one sample: [stop] returns a buffer, both channels of one length,
    and that length is [min recorded T] when at least one sample was
    recorded and 128 (the substitute silence) when none was.  The encoded
    WAV stores that many frames.  With samples recorded the length never
    exceeds [T]; for two seconds at 48000 Hz, [T = 96000] and the length is
    at most 96000. *)
Theorem session_stop_length (sr : Z) (d : Q) (chunks : list (list Q * list Q)) :
  0 < sr -> 1 <= Qfloor (Dbl.round (d * inject_Z sr)) ->
  let T := Qfloor (Dbl.round (d * inject_Z sr)) in
  let r := session sr (Some d) chunks in
  let recorded := recordingLength r in
  targetSampleCount r = Some T /\
  exists buf,
    stop_buffer r = Some buf /\
    snd (stop r) = Some (encodeWAV buf) /\
    length (channelL buf) = length (channelR buf) /\
    frames buf = (if recorded =? 0 then 128 else Z.min recorded T) /\
    wavFrames (encodeWAV buf) = frames buf /\
    (0 < recorded -> frames buf <= T) /\
    (d = 2%Q -> sr = 48000 -> T = 96000 /\ frames buf <= 96000).
Proof.
  intros Hsr Hd T r recorded.
  assert (Hd0 : ~ (d == 0)%Q) by exact (target_positive_duration sr d Hd).
  destruct (session_fields sr d chunks Hsr Hd0) as (Hrec & Htgt & Hctx).
  fold r in Hrec, Htgt, Hctx. fold T in Htgt. fold recorded in Hrec.
  assert (HT : 0 < T) by (unfold T; lia).
  split; [exact Htgt|].
  pose proof (finalLength_target r T Htgt HT) as Hfin. fold recorded in Hfin.
  assert (Hcases := stop_buffer_cases r).
  rewrite Hfin in Hcases.
  destruct Hcases as (L & R & HL & HR & HlenL & HlenR & Hstop); [lia|].
  assert (Hzero : (Z.min recorded T =? 0) = (recorded =? 0)).
  { destruct (Z.eqb_spec recorded 0), (Z.eqb_spec (Z.min recorded T) 0); lia. }
  rewrite Hzero in Hstop.
  eexists. split; [exact Hstop|].
  split; [unfold stop; cbn [snd]; now rewrite Hstop|].
  assert (Hframes :
    frames (if recorded =? 0
            then mkBuffer 2 (ctxSampleRate r) (zeros 128) (zeros 128)
            else
              let faded := fade (Z.min recorded T) (ctxSampleRate r)
                             (L, if rightIsSilent R then L else R) in
              mkBuffer 2 (ctxSampleRate r) (fst faded) (snd faded))
    = (if recorded =? 0 then 128 else Z.min recorded T) /\
    length (channelL (if recorded =? 0
            then mkBuffer 2 (ctxSampleRate r) (zeros 128) (zeros 128)
            else
              let faded := fade (Z.min recorded T) (ctxSampleRate r)
                             (L, if rightIsSilent R then L else R) in
              mkBuffer 2 (ctxSampleRate r) (fst faded) (snd faded)))
    = length (channelR (if recorded =? 0
            then mkBuffer 2 (ctxSampleRate r) (zeros 128) (zeros 128)
            else
              let faded := fade (Z.min recorded T) (ctxSampleRate r)
                             (L, if rightIsSilent R then L else R) in
              mkBuffer 2 (ctxSampleRate r) (fst faded) (snd faded)))).
  { destruct (Z.eqb_spec recorded 0) as [E|E].
    - split; reflexivity.
    - cbv zeta. unfold frames. cbn [channelL channelR].
      destruct (fade_length (Z.min recorded T) (ctxSampleRate r) L
                  (if rightIsSilent R then L else R)) as [Hl Hr].
      rewrite Hl, Hr, HlenL. split; [lia|].
      destruct (rightIsSilent R); congruence. }
  destruct Hframes as [Hframes Hsame].
  split; [exact Hsame|]. split; [exact Hframes|].
  split; [apply wavFrames_encodeWAV; exact Hsame|].
  rewrite Hframes.
  split.
  - intros Hpos. destruct (Z.eqb_spec recorded 0); lia.
  - intros E2 E48.
    assert (T96 : T = 96000).
    { unfold T. rewrite E2, E48. vm_compute. reflexivity. }
    split; [exact T96|]. destruct (Z.eqb_spec recorded 0); lia.
Qed.

Lemma session_stop_length_witness :
  exists buf,
    stop_buffer (session 48000 (Some 2%Q) [([1#2; 1#4], [0; 0])%Q]) = Some buf /\
    frames buf = 2.
Proof.
  destruct (session_stop_length 48000 2%Q [([1#2; 1#4], [0; 0])%Q])
    as (_ & buf & Hstop & _ & _ & Hframes & _);
    [lia | vm_compute; discriminate |].
  exists buf. split; [exact Hstop | exact Hframes].
Defined.

(** C2, the claim as stated, fails when [stop] comes before the first chunk
    of a two-second session at 48000 Hz: nothing is recorded, the target is
    96000, and the buffer returned holds 128 samples per channel, not
    [min 0 96000 = 0].  With a target below 128 (one millisecond) the same
    buffer is longer than the target.  A duration so short that the target
    rounds down to 0 counts as no target at all: nothing is cut. *)
Lemma stop_before_first_chunk :
  let r := session 48000 (Some 2%Q) [] in
  recordingLength r = 0 /\ targetSampleCount r = Some 96000 /\
  frames <$> stop_buffer r = Some 128 /\
  frames <$> stop_buffer r <> Some (Z.min (recordingLength r) 96000) /\
  let r' := session 48000 (Some (Dbl.literal (1 # 1000))) [] in
  targetSampleCount r' = Some 48 /\ frames <$> stop_buffer r' = Some 128 /\
  let r'' := session 48000 (Some (Dbl.literal (1 # 100000)))
                     [([1#2; 1#4], [0; 0])%Q] in
  targetSampleCount r'' = Some 0 /\ recordingLength r'' = 2 /\
  frames <$> stop_buffer r'' = Some 2.
Proof. vm_compute. repeat split; intros; discriminate. Qed.

(** The target follows the product of the machine: 2.3 s at 48000 Hz is
    cut at 110399 samples, where the exact product has the integer part
    110400; 0.3 s is cut at 14400, the number 0.3 itself being below
    3/10. *)
Lemma target_follows_machine_product :
  targetSampleCount (session 48000 (Some (Dbl.literal (23 # 10))) [])
    = Some 110399 /\
  Qfloor ((23 # 10) * 48000) = 110400 /\
  targetSampleCount (session 48000 (Some (Dbl.literal (3 # 10))) [])
    = Some 14400 /\
  Qfloor (Dbl.literal (3 # 10) * 48000) = 14399.
Proof. vm_compute. repeat split. Qed.

(** C7 (as amended).  A recorder whose target is unset or not negative and
    that captured nothing returns from [stop] a buffer of two channels of
    128 zero samples, encoded as 256 zero PCM words.  Such a recorder with a
    positive final length whose merged right channel passes the silence test
    returns a buffer whose right channel is the left one: the left channel
    is copied over the right before the fade and the encoding. *)
Theorem stop_synthesizes_valid_output (r : PCMRecorder) :
  (forall T, targetSampleCount r = Some T -> 0 <= T) ->
  0 <= recordingLength r ->
  (recordingLength r = 0 ->
     stop_buffer r = Some (mkBuffer 2 (ctxSampleRate r) (zeros 128) (zeros 128)) /\
     (pcm16 <$> snd (stop r)) = Some (repeat 0 256)) /\
  (forall R,
     0 < finalLength r ->
     _mergeBuffers (rightBuffers r) (finalLength r) = Some R ->
     rightIsSilent R = true ->
     exists L buf,
       _mergeBuffers (leftBuffers r) (finalLength r) = Some L /\
       stop_buffer r = Some buf /\
       channelL buf = fst (fade (finalLength r) (ctxSampleRate r) (L, L)) /\
       channelR buf = channelL buf /\
       length (channelL buf) = Z.to_nat (finalLength r)).
Proof.
  intros Htgt Hrec.
  assert (Hfin : 0 <= finalLength r).
  { unfold finalLength, truthy.
    destruct (targetSampleCount r) as [T|] eqn:E; cbn; [|exact Hrec].
    specialize (Htgt T eq_refl). destruct (T =? 0); cbn; lia. }
  split.
  - intros Hzero.
    assert (Hfin0 : finalLength r = 0).
    { unfold finalLength, truthy.
      destruct (targetSampleCount r) as [T|] eqn:E; cbn; [|exact Hzero].
      specialize (Htgt T eq_refl). destruct (T =? 0); cbn; lia. }
    destruct (stop_buffer_cases r Hfin) as (L & R & _ & _ & _ & _ & Hstop).
    rewrite Hfin0 in Hstop. cbn in Hstop.
    split; [exact Hstop|].
    unfold stop. cbn [snd]. rewrite Hstop. reflexivity.
  - intros R Hpos HR Hsilent.
    destruct (stop_buffer_cases r Hfin) as (L & R' & HL & HR' & HlenL & _ & Hstop).
    rewrite HR in HR'. injection HR' as <-.
    destruct (Z.eqb_spec (finalLength r) 0) as [E|E]; [lia|].
    rewrite Hsilent in Hstop. cbv zeta in Hstop.
    exists L. eexists. split; [exact HL|]. split; [exact Hstop|].
    cbn [channelL channelR]. split; [reflexivity|]. split; [apply fade_same|].
    destruct (fade_length (finalLength r) (ctxSampleRate r) L L) as [Hl _].
    now rewrite Hl.
Qed.

Lemma stop_synthesizes_valid_output_witness :
  stop_buffer (session 48000 None []) =
    Some (mkBuffer 2 48000 (zeros 128) (zeros 128)) /\
  exists L buf,
    stop_buffer (session 48000 None [([1#2; 1#4; 1#8; 1], [0; 0; 0; 0])%Q]) = Some buf /\
    channelL buf = L /\ channelR buf = L.
Proof.
  split.
  - apply (stop_synthesizes_valid_output (session 48000 None []));
      [intros T H; discriminate H | vm_compute; discriminate | reflexivity].
  - destruct (stop_synthesizes_valid_output
                (session 48000 None [([1#2; 1#4; 1#8; 1], [0; 0; 0; 0])%Q]))
      as [_ H]; [intros T HT; discriminate HT | vm_compute; discriminate |].
    destruct (H [0; 0; 0; 0]%Q) as (L & buf & _ & Hstop & _ & Hsame & _);
      [reflexivity | reflexivity | reflexivity |].
    exists (channelL buf), buf. repeat split; [exact Hstop | exact Hsame].
Defined.

(** C7, the claim as stated, fails for a session started with a negative
    duration in which nothing is captured: the target is negative, so is
    the final length, and [stop] asks for an array of negative length
    before it reaches the test for an empty recording.  The call ends by
    the RangeError; no buffer is returned. *)
Lemma stop_fails_on_negative_target :
  let r := session 48000 (Some (-1)%Q) [] in
  recordingLength r = 0 /\ targetSampleCount r = Some (-48000) /\
  finalLength r = -48000 /\
  _mergeBuffers (leftBuffers r) (finalLength r) = None /\
  stop_buffer r = None /\ snd (stop r) = None.
Proof. vm_compute. repeat split. Qed.

End RecorderFacts.

(** ** Sampler voices *)

Module SamplerFacts.
Import Sampler.
Local Open Scope Z_scope.

(** *** One voice *)

Lemma stop_started (v : SamplerVoice) : started (player (stop v)) = false.
Proof. reflexivity. Qed.

Lemma stop_keeps (v : SamplerVoice) :
  id (stop v) = id v /\ chokeGroup (stop v) = chokeGroup v /\
  mode (stop v) = mode v /\ loaded (player (stop v)) = loaded (player v).
Proof. repeat split. Qed.

Lemma trigger_body_keeps (v : SamplerVoice) :
  id (trigger_body v) = id v /\ chokeGroup (trigger_body v) = chokeGroup v /\
  mode (trigger_body v) = mode v /\
  loaded (player (trigger_body v)) = loaded (player v).
Proof.
  unfold trigger_body, play.
  destruct v as [i m tw g nm url playing [ld lp st outs] bus]; cbn.
  destruct m, playing, ld; cbn; repeat split.
Qed.

Lemma trigger_keeps (running : bool) (v : SamplerVoice) :
  id (fst (trigger running v)) = id v /\
  chokeGroup (fst (trigger running v)) = chokeGroup v /\
  mode (fst (trigger running v)) = mode v /\
  loaded (player (fst (trigger running v))) = loaded (player v).
Proof.
  unfold trigger. destruct (loaded (player v)) eqn:E; cbn [negb fst];
    [|now rewrite E].
  destruct running; cbn [fst]; [|now rewrite E].
  rewrite <- E. apply trigger_body_keeps.
Qed.

(** With the context running a loaded voice runs the whole body within the
    call. *)
Lemma trigger_running (v : SamplerVoice) :
  loaded (player v) = true -> trigger true v = (trigger_body v, Returned).
Proof. intros Hl. unfold trigger. now rewrite Hl. Qed.

Lemma pad_step_keeps (v : SamplerVoice) (e : PadEvent) :
  mode (pad_step v e) = mode v /\
  loaded (player (pad_step v e)) = loaded (player v).
Proof.
  destruct e; cbn [pad_step].
  - destruct (trigger_keeps true v) as (_ & _ & H1 & H2). now split.
  - unfold release. destruct (mode v) eqn:E; cbn; now rewrite ?E.
  - now split.
Qed.

Lemma run_keeps (events : list PadEvent) :
  forall v, mode (run events v) = mode v /\
            loaded (player (run events v)) = loaded (player v).
Proof.
  induction events as [|e events IH]; intros v; [now split|].
  unfold run. cbn [fold_left]. fold (run events (pad_step v e)).
  destruct (IH (pad_step v e)) as [H1 H2].
  destruct (pad_step_keeps v e) as [H3 H4].
  split; congruence.
Qed.

(** A gate voice sounds after a trigger and is silent after a release. *)
Lemma gate_trigger_sounds (v : SamplerVoice) :
  loaded (player v) = true -> mode v = gate ->
  started (player (trigger_body v)) = true /\ _isPlaying (trigger_body v) = true.
Proof.
  intros Hl Hm. unfold trigger_body. rewrite Hm.
  destruct (_isPlaying (set_loop false v)); unfold play; cbn; rewrite Hl; now split.
Qed.

Lemma gate_release_stops (v : SamplerVoice) :
  mode v = gate -> started (player (release v)) = false.
Proof. intros Hm. unfold release. now rewrite Hm. Qed.

(** C4 (as amended).  For a voice with a loaded sample, triggered while the
    audio context is running, so that each trigger runs to its end within
    the call.  Toggle mode, for a voice whose playing flag agrees with the
    state of its player: a trigger while the player is stopped starts it
    with its loop flag set, a trigger while it plays stops it, so that two
    triggers in a row start and then stop; [release] changes nothing; once
    the player has reported its stop the next trigger starts it again.
    Gate mode: every trigger leaves the player started, and one [release]
    after any run of triggers (and stop reports of the player) ending in a
    trigger leaves it stopped; in particular trigger-release and
    trigger-trigger-release. *)
Theorem trigger_mode_state_machine (v : SamplerVoice) :
  loaded (player v) = true ->
  let trig := fun u : SamplerVoice => fst (trigger true u) in
  (mode v = toggle -> _isPlaying v = started (player v) ->
     (started (player v) = false ->
        snd (trigger true v) = Returned /\
        started (player (trig v)) = true /\
        loop (player (trig v)) = true /\
        _isPlaying (trig v) = true /\
        started (player (trig (trig v))) = false /\
        started (player (trig (onstop (trig (trig v))))) = true) /\
     (started (player v) = true ->
        snd (trigger true v) = Returned /\
        started (player (trig v)) = false) /\
     release v = v) /\
  (mode v = gate ->
     snd (trigger true v) = Returned /\
     started (player (trig v)) = true /\
     started (player (release (trig v))) = false /\
     started (player (trig (trig v))) = true /\
     started (player (release (trig (trig v)))) = false /\
     forall events : list PadEvent,
       started (player (run (events ++ [Trigger]) v)) = true /\
       started (player (run (events ++ [Trigger; Release]) v)) = false).
Proof.
  intros Hl trig. split.
  - intros Hm Hflag. split; [|split].
    + intros Hp. rewrite Hp in Hflag. unfold trig, trigger, trigger_body, play, onstop.
      destruct v as [i m tw g nm url playing [ld lp st outs] bus].
      cbn in Hl, Hm, Hp, Hflag. subst ld m playing st. cbn. now repeat split.
    + intros Hp. rewrite Hp in Hflag. unfold trig, trigger, trigger_body.
      rewrite Hl, Hm, Hflag. split; reflexivity.
    + unfold release. now rewrite Hm.
  - intros Hm. unfold trig.
    assert (Htrig : forall u, loaded (player u) = true ->
                              fst (trigger true u) = trigger_body u).
    { intros u Hu. now rewrite trigger_running. }
    rewrite (trigger_running v Hl). cbn [fst snd].
    destruct (gate_trigger_sounds v Hl Hm) as [H1 _].
    destruct (trigger_body_keeps v) as (_ & _ & Hm1 & Hl1).
    rewrite Hm in Hm1. rewrite Hl in Hl1.
    rewrite (trigger_running _ Hl1). cbn [fst].
    destruct (gate_trigger_sounds (trigger_body v) Hl1 Hm1) as [H2 _].
    destruct (trigger_body_keeps (trigger_body v)) as (_ & _ & Hm2 & _).
    rewrite Hm1 in Hm2.
    split; [reflexivity|].
    split; [exact H1|]. split; [now apply gate_release_stops|].
    split; [exact H2|]. split; [now apply gate_release_stops|].
    intros events.
    destruct (run_keeps events v) as [Hm' Hl'].
    rewrite Hm in Hm'. rewrite Hl in Hl'.
    unfold run. rewrite !fold_left_app. cbn [fold_left pad_step].
    fold (run events v). rewrite (trigger_running _ Hl'). cbn [fst].
    destruct (gate_trigger_sounds (run events v) Hl' Hm') as [H3 _].
    split; [exact H3|].
    apply gate_release_stops.
    destruct (trigger_body_keeps (run events v)) as (_ & _ & Hm3 & _). congruence.
Qed.

Lemma trigger_mode_state_machine_witness :
  let vg := setMode "gate" (load_resolved (new_voice 5)) in
  let vt := setMode "toggle" (load_resolved (new_voice 9)) in
  (loaded (player vg) = true /\ mode vg = gate /\
   started (player (release (fst (trigger true (fst (trigger true vg)))))) = false) /\
  (loaded (player vt) = true /\ mode vt = toggle /\
   _isPlaying vt = started (player vt) /\
   started (player (fst (trigger true vt))) = true /\
   started (player (fst (trigger true (fst (trigger true vt))))) = false).
Proof.
  split.
  - destruct (trigger_mode_state_machine
                (setMode "gate" (load_resolved (new_voice 5))) eq_refl)
      as [_ Hgate].
    destruct (Hgate eq_refl) as (_ & _ & _ & _ & H & _).
    split; [reflexivity|]. split; [reflexivity|]. exact H.
  - destruct (trigger_mode_state_machine
                (setMode "toggle" (load_resolved (new_voice 9))) eq_refl)
      as [Htoggle _].
    destruct (Htoggle eq_refl eq_refl) as (H & _ & _).
    destruct (H eq_refl) as (_ & H1 & _ & _ & H2 & _).
    do 3 (split; [reflexivity|]). split; [exact H1 | exact H2].
Defined.

(** C4, the claim as stated, fails in two ways.  With the audio context not
    running, the trigger of a loaded gate voice suspends at its [await]; a
    release that comes before the context starts stops a player that has
    not started yet, and the rest of the trigger then starts it: the voice
    sounds after its release.  And a toggle voice that plays and is stopped
    from outside (by [stopAll], a choke or [setMode]) keeps its playing
    flag until the player reports the stop: triggered before that, while
    stopped, it is stopped once more instead of started. *)
Lemma trigger_out_of_step :
  let vg := setMode "gate" (load_resolved (new_voice 5)) in
  let vt := setMode "toggle" (load_resolved (new_voice 9)) in
  (loaded (player vg) = true /\ mode vg = gate /\
   snd (trigger false vg) = Awaiting /\
   started (player (release (fst (trigger false vg)))) = false /\
   started (player (trigger_resume (release (fst (trigger false vg))))) = true) /\
  (loaded (player vt) = true /\ mode vt = toggle /\
   let playing := fst (trigger true vt) in
   started (player playing) = true /\
   started (player (stop playing)) = false /\
   started (player (fst (trigger true (stop playing)))) = false).
Proof. vm_compute. repeat split. Qed.

(** *** The service *)

Lemma filter_none {A : Type} (P : A -> bool) (l : list A) :
  (forall (i : nat) (x : A), l !! i = Some x -> P x = false) ->
  List.filter P l = [].
Proof.
  induction l as [|x l IH]; intros H; [reflexivity|].
  cbn [List.filter]. rewrite (H 0%nat x eq_refl).
  apply IH. intros i y Hy. exact (H (S i) y Hy).
Qed.

(** If only one position of a list can hold an element that passes a test,
    at most one element passes. *)
Lemma filter_single_index {A : Type} (P : A -> bool) (l : list A) :
  forall n : nat,
    (forall (i : nat) (x : A), l !! i = Some x -> P x = true -> i = n) ->
    (length (List.filter P l) <= 1)%nat.
Proof.
  induction l as [|x l IH]; intros n H; [cbn; lia|].
  cbn [List.filter]. destruct (P x) eqn:Px.
  - rewrite filter_none; [cbn; lia|].
    intros i y Hy. destruct (P y) eqn:Py; [|reflexivity].
    pose proof (H 0%nat x eq_refl Px) as H0.
    pose proof (H (S i) y Hy Py) as HS. lia.
  - apply (IH (Nat.pred n)). intros i y Hy Py.
    pose proof (H (S i) y Hy Py). lia.
Qed.

Lemma in_group_iff (g : ChokeGroup) (v : SamplerVoice) :
  in_group g v = true <-> chokeGroup v = g.
Proof. unfold in_group. apply bool_decide_eq_true. Qed.

Lemma getVoice_lookup (padId : Z) (svc : SamplerService) (voice : SamplerVoice) :
  getVoice padId svc = Some voice ->
  1 <= padId /\ voices svc !! Z.to_nat (padId - 1) = Some voice.
Proof.
  unfold getVoice. destruct (Z.ltb_spec (padId - 1) 0) as [Hlt|Hge];
    [discriminate|].
  intros H. split; [lia | exact H].
Qed.

(** The voices after [silenceChokeGroup], position by position. *)
Lemma silenceChokeGroup_lookup (g : ChokeGroup) (ex : Z) (svc : SamplerService)
    (i : nat) (v : SamplerVoice) :
  voices (silenceChokeGroup g ex svc) !! i = Some v ->
  exists u, voices svc !! i = Some u /\ id v = id u /\
            chokeGroup v = chokeGroup u /\
            (chokeGroup u = g -> id u <> ex -> started (player v) = false) /\
            (id u = ex -> v = u).
Proof.
  unfold silenceChokeGroup. cbn [voices]. rewrite list_lookup_fmap.
  destruct (voices svc !! i) as [u|]; [|discriminate].
  cbn. intros [= <-]. exists u. split; [reflexivity|].
  destruct (in_group g u) eqn:Hg; destruct (Z.eqb_spec (id u) ex) as [He|He]; cbn;
    repeat split; try congruence;
    intros Hc; apply in_group_iff in Hc; congruence.
Qed.

(** The service after [triggerPad] on a pad that has a group. *)
Lemma triggerPad_grouped (running : bool) (svc : SamplerService) (padId : Z)
    (voice : SamplerVoice) :
  getVoice padId svc = Some voice -> chokeGroup voice <> GNull ->
  triggerPad running padId svc
  = (update_voice padId (fun v => fst (trigger running v))
                  (silenceChokeGroup (chokeGroup voice) (id voice) svc),
     snd (trigger running voice)).
Proof.
  intros Hget Hg. unfold triggerPad. rewrite Hget.
  destruct (chokeGroup voice); [contradiction | reflexivity | reflexivity].
Qed.

(** C3 (as amended).  In a service whose voices are numbered by position,
    [triggerPad] on a voice of choke group [G] first runs
    [silenceChokeGroup]: in the state in which the voice is then triggered
    every other voice of group [G] has its player stopped.  When the call
    returns a started voice of group [G] can only be the triggered one, so
    at most one voice of the group sounds then; and when the audio context
    is running the trigger is complete by that time. *)
Theorem triggerPad_chokes_group (running : bool) (svc : SamplerService)
    (padId : Z) (G : ChokeGroup) (voice : SamplerVoice) :
  numbered svc ->
  getVoice padId svc = Some voice ->
  chokeGroup voice = G -> G <> GNull ->
  let choked := silenceChokeGroup G (id voice) svc in
  let after := fst (triggerPad running padId svc) in
  after = update_voice padId (fun v => fst (trigger running v)) choked /\
  (running = true -> snd (triggerPad running padId svc) = Returned) /\
  (forall v, v ∈ voices choked -> chokeGroup v = G -> id v <> id voice ->
             started (player v) = false) /\
  (forall v, v ∈ voices after -> chokeGroup v = G ->
             started (player v) = true -> id v = id voice) /\
  (length (sounding G after) <= 1)%nat.
Proof.
  intros Hnum Hget Hgrp HG choked after.
  destruct (getVoice_lookup _ _ _ Hget) as [Hpad Hlook].
  pose proof (Hnum _ _ Hlook) as Hid.
  assert (Hcall := triggerPad_grouped running svc padId voice Hget
                     ltac:(now rewrite Hgrp)).
  rewrite Hgrp in Hcall. fold choked in Hcall.
  assert (Htrig : after = update_voice padId (fun v => fst (trigger running v)) choked)
    by (unfold after; now rewrite Hcall).
  assert (Hchoked : forall i v, voices choked !! i = Some v ->
            chokeGroup v = G -> id v <> id voice ->
            started (player v) = false).
  { intros i v Hv Hg Hne.
    destruct (silenceChokeGroup_lookup _ _ _ _ _ Hv) as (u & _ & Hi & Hc & Hs & _).
    apply Hs; congruence. }
  assert (Hfinal : forall i v, voices after !! i = Some v ->
            chokeGroup v = G -> started (player v) = true ->
            i = Z.to_nat (padId - 1) /\ id v = id voice).
  { intros i v Hv Hg Hs. rewrite Htrig in Hv. unfold update_voice in Hv.
    cbn [voices] in Hv.
    destruct (decide (i = Z.to_nat (padId - 1))) as [->|Hne].
    - split; [reflexivity|].
      rewrite list_lookup_alter_eq in Hv.
      destruct (voices choked !! Z.to_nat (padId - 1)) as [w|] eqn:Hw;
        [|discriminate].
      cbn in Hv. injection Hv as <-.
      destruct (silenceChokeGroup_lookup _ _ _ _ _ Hw) as (u & Hu & Hi & _).
      destruct (trigger_keeps running w) as (Hti & _). congruence.
    - exfalso. rewrite list_lookup_alter_ne in Hv by congruence.
      destruct (silenceChokeGroup_lookup _ _ _ _ _ Hv) as (u & Hu & Hi & Hc & Hst & _).
      pose proof (Hnum _ _ Hu) as Hidu.
      assert (id u <> id voice) by lia.
      rewrite Hst in Hs; [discriminate | congruence | assumption]. }
  split; [exact Htrig|]. split; [|split; [|split]].
  - intros ->. rewrite Hcall. cbn [snd]. unfold trigger.
    destruct (loaded (player voice)); reflexivity.
  - intros v Hin. apply list_elem_of_lookup in Hin as [i Hi]. eauto.
  - intros v Hin Hg Hs. apply list_elem_of_lookup in Hin as [i Hi].
    exact (proj2 (Hfinal i v Hi Hg Hs)).
  - unfold sounding. apply (filter_single_index _ _ (Z.to_nat (padId - 1))).
    intros i v Hv HP. apply andb_prop in HP as [Hg Hs].
    apply in_group_iff in Hg. exact (proj1 (Hfinal i v Hv Hg Hs)).
Qed.

Lemma numbered_new_service : numbered new_service.
Proof.
  intros i v. unfold new_service. cbn [voices].
  rewrite list_lookup_fmap.
  destruct (seq 0 20 !! i) as [k|] eqn:E; [|discriminate].
  apply lookup_seq in E as [-> _]. cbn. now intros [= <-].
Qed.

Lemma numbered_update_voice (padId : Z) (f : SamplerVoice -> SamplerVoice)
    (svc : SamplerService) :
  (forall v, id (f v) = id v) -> numbered svc ->
  numbered (update_voice padId f svc).
Proof.
  intros Hf Hnum i v. unfold update_voice. cbn [voices].
  rewrite list_lookup_alter. case_decide as Hd.
  - subst i. destruct (voices svc !! Z.to_nat (padId - 1)) as [u|] eqn:E;
      [|discriminate].
    cbn. intros [= <-]. rewrite Hf. exact (Hnum _ _ E).
  - apply Hnum.
Qed.

Lemma numbered_setPadChokeGroup (padId : Z) (g : ChokeGroup)
    (svc : SamplerService) :
  numbered svc -> numbered (setPadChokeGroup padId g svc).
Proof.
  intros Hnum. unfold setPadChokeGroup.
  destruct (getVoice padId svc); [|exact Hnum].
  apply numbered_update_voice; [reflexivity | exact Hnum].
Qed.

(** Pads 1, 2 and 3 share choke group 7; pads 1 and 2 are loaded and
    sounding when pad 3 is triggered, the context running. *)
Lemma triggerPad_chokes_group_witness :
  let playing := fun v => trigger_body (load_resolved v) in
  let svc :=
    update_voice 3 load_resolved
      (update_voice 2 playing
        (update_voice 1 playing
          (setPadChokeGroup 3 (GNum 7)
            (setPadChokeGroup 2 (GNum 7)
              (setPadChokeGroup 1 (GNum 7) new_service))))) in
  length (sounding (GNum 7) svc) = 2%nat /\
  (length (sounding (GNum 7) (fst (triggerPad true 3 svc))) <= 1)%nat.
Proof.
  intros playing svc. split; [reflexivity|].
  assert (Hnum : numbered svc).
  { unfold svc.
    apply numbered_update_voice; [reflexivity|].
    apply numbered_update_voice;
      [intros v; exact (proj1 (trigger_body_keeps (load_resolved v)))|].
    apply numbered_update_voice;
      [intros v; exact (proj1 (trigger_body_keeps (load_resolved v)))|].
    do 3 apply numbered_setPadChokeGroup. apply numbered_new_service. }
  destruct (getVoice 3 svc) as [voice|] eqn:Hget; [|discriminate Hget].
  assert (Hgrp : chokeGroup voice = GNum 7)
    by (vm_compute in Hget; injection Hget as <-; reflexivity).
  exact (proj2 (proj2 (proj2 (proj2
           (triggerPad_chokes_group true svc 3 (GNum 7) voice Hnum Hget Hgrp
              ltac:(discriminate)))))).
Defined.

(** C3, the claim as stated, fails while the audio context is not running.
    Pads 1 and 2 share choke group 7 and are loaded.  Pad 1 is triggered:
    its trigger suspends.  Pad 2 is triggered: pad 1, not started yet, is
    stopped to no effect, and the trigger of pad 2 suspends too.  When the
    context starts the two triggers run on, in the order of the calls, and
    each starts its player: two voices of the group sound. *)
Lemma suspended_triggers_both_sound :
  let svc :=
    update_voice 2 load_resolved
      (update_voice 1 load_resolved
        (setPadChokeGroup 2 (GNum 7)
          (setPadChokeGroup 1 (GNum 7) new_service))) in
  let s1 := triggerPad false 1 svc in
  let s2 := triggerPad false 2 (fst s1) in
  let s3 := resumePad 2 (resumePad 1 (fst s2)) in
  snd s1 = Awaiting /\ snd s2 = Awaiting /\
  length (sounding (GNum 7) (fst s2)) = 0%nat /\
  length (sounding (GNum 7) s3) = 2%nat.
Proof. vm_compute. repeat split. Qed.

(** *** Routing of a pad *)

Lemma trackIndex_of_row5 (padId : Z) :
  17 <= padId <= 20 -> trackIndex_of padId = padId - 17.
Proof.
  intros H. unfold trackIndex_of.
  repeat match goal with |- context [?a =? ?b] => destruct (Z.eqb_spec a b) end;
    lia.
Qed.

Lemma route_outputBus (padId : Z) (tracks : Tracks) (v : SamplerVoice) :
  outputBus (route padId tracks v) =
    if (17 <=? padId) && (padId <=? 20)
    then [default SamplerOutput (chain_input_of tracks (trackIndex_of padId))]
    else [SamplerOutput].
Proof.
  unfold route. destruct ((17 <=? padId) && (padId <=? 20)); [|reflexivity].
  destruct (chain_input_of tracks (trackIndex_of padId)); reflexivity.
Qed.

Lemma load_outputBus (url : string) (nm : option string) (v : SamplerVoice) :
  outputBus (load url nm v) = outputBus v.
Proof. reflexivity. Qed.

(** Where [assignSample] connects the output bus of an existing pad.  For
    pads 17 to 20 it is the chain input of the track at index [padId - 17]
    when [window.tracks] holds that track with a track audio and a chain
    input, and the shared sampler output otherwise; for pads 1 to 16 it is
    the shared sampler output. *)
Lemma assignSample_routing (svc : SamplerService) (padId : Z) (url : string)
    (nm : option string) (tracks : Tracks) (voice : SamplerVoice) :
  getVoice padId svc = Some voice ->
  exists voice',
    getVoice padId (fst (assignSample padId url nm tracks svc)) = Some voice' /\
    snd (assignSample padId url nm tracks svc) = true /\
    (17 <= padId <= 20 ->
       forall c, chain_input_of tracks (padId - 17) = Some c ->
                 outputBus voice' = [c]) /\
    (17 <= padId <= 20 ->
       chain_input_of tracks (padId - 17) = None ->
       outputBus voice' = [SamplerOutput]) /\
    (1 <= padId <= 16 -> outputBus voice' = [SamplerOutput]).
Proof.
  intros Hget.
  destruct (getVoice_lookup _ _ _ Hget) as [Hpad Hlook].
  unfold assignSample. rewrite Hget. cbn [fst snd].
  set (f := fun v => load url nm (route padId tracks (setMode (defaultMode padId) v))).
  exists (f voice).
  assert (Hbus : outputBus (f voice) =
            if (17 <=? padId) && (padId <=? 20)
            then [default SamplerOutput (chain_input_of tracks (trackIndex_of padId))]
            else [SamplerOutput]).
  { unfold f. rewrite load_outputBus. apply route_outputBus. }
  split.
  { unfold getVoice, update_voice. cbn [voices].
    destruct (Z.ltb_spec (padId - 1) 0) as [Hlt|Hge]; [lia|].
    rewrite list_lookup_alter_eq, Hlook. reflexivity. }
  split; [reflexivity|].
  split; [|split].
  - intros Hrow c Hc. rewrite Hbus, trackIndex_of_row5, Hc by exact Hrow.
    destruct (Z.leb_spec 17 padId), (Z.leb_spec padId 20); try lia. reflexivity.
  - intros Hrow Hc. rewrite Hbus, trackIndex_of_row5, Hc by exact Hrow.
    destruct (Z.leb_spec 17 padId), (Z.leb_spec padId 20); reflexivity.
  - intros Hrow. rewrite Hbus.
    destruct (Z.leb_spec 17 padId), (Z.leb_spec padId 20); try lia; reflexivity.
Qed.

(** For pads 17 to 20 the same call also runs [voice.player.disconnect()]:
    the player is left without an outgoing connection, its own output bus
    included. *)
Lemma assignSample_row5_player (svc : SamplerService) (padId : Z) (url : string)
    (nm : option string) (tracks : Tracks) (voice : SamplerVoice) :
  getVoice padId svc = Some voice -> 17 <= padId <= 20 ->
  exists voice',
    getVoice padId (fst (assignSample padId url nm tracks svc)) = Some voice' /\
    outputs (player voice') = [].
Proof.
  intros Hget Hrow.
  destruct (getVoice_lookup _ _ _ Hget) as [Hpad Hlook].
  unfold assignSample. rewrite Hget. cbn [fst].
  eexists. split.
  - unfold getVoice, update_voice. cbn [voices].
    destruct (Z.ltb_spec (padId - 1) 0) as [Hlt|Hge]; [lia|].
    rewrite list_lookup_alter_eq, Hlook. reflexivity.
  - unfold route.
    destruct (Z.leb_spec 17 padId), (Z.leb_spec padId 20); try lia.
    cbn [andb].
    destruct (chain_input_of tracks (trackIndex_of padId)); reflexivity.
Qed.

(** C9.  Four tracks are up and a sample is assigned to pad 18 of a new
    service.  Before the call the player of voice 18 feeds the voice's
    output bus, which feeds the shared sampler output.  After the call the
    output bus is connected to the chain input of the track at index 1 and
    to nothing else, as the claim says; but the player of the voice has no
    outgoing connection left, its own output bus included: no node is
    reached from the player, so what voice 18 plays arrives neither at the
    track nor at the sampler output. *)
Theorem pad18_player_is_cut_off :
  let tracks : Tracks :=
    Some ((fun k => Some (mkTrackView (Some (mkTrackAudioRef (Z.of_nat k) true))))
            <$> seq 0 4) in
  let after := fst (assignSample 18 "kick.wav" None tracks new_service) in
  (exists voice,
     getVoice 18 new_service = Some voice /\
     outputs (player voice) = [OutputBus 18] /\
     outputBus voice = [SamplerOutput]) /\
  (exists voice',
     getVoice 18 after = Some voice' /\
     outputBus voice' = [ChainInput 1] /\
     outputs (player voice') = [] /\
     forall n, ~ reaches voice' n).
Proof.
  cbv zeta. split.
  - eexists. split; [reflexivity|]. split; reflexivity.
  - eexists. split; [reflexivity|]. split; [reflexivity|].
    split; [reflexivity|].
    intros n H. unfold reaches in H. cbn in H.
    destruct H as [H|(H & _)]; apply elem_of_nil in H; exact H.
Qed.

End SamplerFacts.

(** ** Cast framing *)

Module PcmFacts.
Import Pcm JsFacts.
Local Open Scope Z_scope.

(** Three bytes hold a 24-bit two's complement integer exactly. *)
Lemma int24_roundtrip (n : Z) :
  -8388608 <= n < 8388608 ->
  int24_of_bytes (Z.land n 255) (Z.land (Z.shiftr n 8) 255)
                 (Z.land (Z.shiftr n 16) 255) = n.
Proof.
  intros Hn. unfold int24_of_bytes.
  change 255 with (Z.ones 8).
  rewrite !Z.land_ones by lia.
  rewrite !Z.shiftr_div_pow2 by lia.
  change (2 ^ 8) with 256. change (2 ^ 16) with 65536.
  destruct (Z.leb_spec 8388608
              (n mod 256 + 256 * ((n / 256) mod 256) + 65536 * ((n / 65536) mod 256)));
    Z.div_mod_to_equations; lia.
Qed.

Lemma bytes24_are_bytes (n : Z) :
  Forall (fun b => 0 <= b < 256) (bytes24 n).
Proof.
  unfold bytes24. change 255 with (Z.ones 8).
  rewrite !Z.land_ones by lia. change (2 ^ 8) with 256.
  repeat constructor; apply Z.mod_pos_bound; lia.
Qed.

Lemma headroom_range (x : Q) : (-1 <= headroom x /\ headroom x <= 1)%Q.
Proof.
  unfold headroom.
  destruct (Js.lt_bool 1 (x * (95 # 100))) eqn:E1; [split; lra|].
  destruct (Js.lt_bool (x * (95 # 100)) (-1)) eqn:E2; [split; lra|].
  split.
  - destruct (Qlt_le_dec (x * (95 # 100)) (-1)) as [H|H]; [|exact H].
    apply lt_bool_iff in H. congruence.
  - destruct (Qlt_le_dec 1 (x * (95 # 100))) as [H|H]; [|exact H].
    apply lt_bool_iff in H. congruence.
Qed.

Lemma headroom_inside (x : Q) :
  (-1 <= x * (95 # 100) <= 1)%Q -> headroom x = (x * (95 # 100))%Q.
Proof.
  intros [Hl Hu]. unfold headroom.
  destruct (Js.lt_bool 1 (x * (95 # 100))) eqn:E1.
  { apply lt_bool_iff in E1. lra. }
  destruct (Js.lt_bool (x * (95 # 100)) (-1)) eqn:E2; [|reflexivity].
  apply lt_bool_iff in E2. lra.
Qed.

Lemma to_int24_range (l : Q) :
  (-1 <= l <= 1)%Q -> -8388607 <= to_int24 l <= 8388607.
Proof.
  intros [Hl Hu]. unfold to_int24.
  assert (H1 : Qfloor (inject_Z (-8388607)) <= Qfloor (l * 8388607)).
  { apply Qfloor_resp_le. change (inject_Z (-8388607)) with (-8388607)%Q. lra. }
  assert (H2 : Qfloor (l * 8388607) <= Qfloor (inject_Z 8388607)).
  { apply Qfloor_resp_le. change (inject_Z 8388607) with 8388607%Q. lra. }
  rewrite Qfloor_Z in H1, H2. split; assumption.
Qed.

Lemma decode_encode_sample (x : Q) :
  decode_sample (encode_sample x) = Some (quantized x).
Proof.
  unfold encode_sample, bytes24, decode_sample, quantized.
  rewrite int24_roundtrip; [reflexivity|].
  pose proof (to_int24_range _ (headroom_range x)). lia.
Qed.

(** A batch of equally long channels is read back frame by frame. *)
Lemma decode_encode_batch (leftData : list Q) :
  forall rightData : list Q,
    length leftData = length rightData ->
    decode_batch (encode_batch leftData rightData)
    = Some (zip (quantized <$> leftData) (quantized <$> rightData)).
Proof.
  induction leftData as [|l ls IH]; intros [|r rs] Hlen; try discriminate;
    [reflexivity|].
  cbn [encode_batch]. unfold encode_frame, encode_sample, bytes24.
  cbn [app decode_batch]. rewrite IH by (cbn in Hlen; lia).
  pose proof (to_int24_range _ (headroom_range l)).
  pose proof (to_int24_range _ (headroom_range r)).
  rewrite !int24_roundtrip by lia. reflexivity.
Qed.

(** C8 (as amended).  Encoding a captured sample to three bytes and decoding
    them gives back the integer the encoder computed, and the decoded value
    lies below the attenuated, clamped sample (0.95 times the captured one,
    limited to [[-1, 1]]) by less than one 24-bit step, 1/8388607.  For a
    sample within full scale the attenuated value is 0.95 times the sample. *)
Theorem pcm24_roundtrip (x : Q) :
  exists d : Q,
    decode_sample (encode_sample x) = Some d /\
    (d == inject_Z (to_int24 (headroom x)) / 8388607)%Q /\
    (0 <= headroom x - d)%Q /\ (headroom x - d < 1 # 8388607)%Q /\
    ((-1 <= x <= 1)%Q -> headroom x = (x * (95 # 100))%Q).
Proof.
  pose proof (headroom_range x) as Hr.
  pose proof (to_int24_range _ Hr) as Hn.
  unfold encode_sample, bytes24, decode_sample.
  rewrite int24_roundtrip by lia.
  eexists. split; [reflexivity|]. split; [reflexivity|].
  assert (Hin : (-1 <= x <= 1)%Q -> headroom x = (x * (95 # 100))%Q)
    by (intros Hx; apply headroom_inside; lra).
  revert Hin. generalize (x * (95 # 100))%Q. intros xs Hin.
  set (l := headroom x) in *.
  pose proof (Qfloor_le (l * 8388607)) as Hlo.
  pose proof (Qlt_floor (l * 8388607)) as Hhi.
  rewrite inject_Z_plus in Hhi. change (inject_Z 1) with 1%Q in Hhi.
  fold (to_int24 l) in Hlo, Hhi.
  set (n := inject_Z (to_int24 l)) in *.
  assert (E : (n / 8388607 == n * (1 # 8388607))%Q) by (unfold Qdiv; reflexivity).
  clearbody n l. clear Hn.
  split; [rewrite E; lra|]. split; [rewrite E; lra|].
  exact Hin.
Qed.

Lemma pcm24_roundtrip_witness :
  exists d : Q,
    decode_sample (encode_sample (1 # 2)) = Some d /\
    (d == 3984588 # 8388607)%Q /\ headroom (1 # 2) = ((1 # 2) * (95 # 100))%Q.
Proof.
  destruct (pcm24_roundtrip (1 # 2)) as (d & Hd & He & _ & _ & Hin).
  exists d. split; [exact Hd|]. split.
  - rewrite He. reflexivity.
  - apply Hin. split; discriminate.
Defined.

(** C8, the claim as stated, fails for a full-scale sample: 1.0 is encoded
    as 7969176 (0.95 of full scale) and decoded as 7969176/8388607, which is
    0.05 away from the sample, far more than 2^-23. *)
Lemma pcm24_full_scale_not_reproduced :
  encode_sample 1 = [152; 153; 121] /\
  exists d : Q,
    decode_sample (encode_sample 1) = Some d /\
    (d == 7969176 # 8388607)%Q /\
    ~ (Qabs (d - 1) < 1 # 8388608)%Q /\
    (1 # 20 <= Qabs (d - 1))%Q.
Proof.
  split; [reflexivity|].
  eexists. split; [reflexivity|].
  vm_compute. repeat split; intros; discriminate.
Qed.

End PcmFacts.

(** ** Shared input streams *)

Module StreamFacts.
Import Streams.






End StreamFacts.

(** ** LFO bindings *)

Module LfoFacts.
Import Lfo.

(** *** The index of an oscillator *)

Lemma getLfo_one (m : Manager) : getLfo (JNum 1) m = lfo m.
Proof. reflexivity. Qed.


(** *** The try block of [disconnectLFO] *)

Lemma same_bindings_refl (t : Track) : same_bindings t t.
Proof. now repeat split. Qed.

Lemma same_bindings_trans (t1 t2 t3 : Track) :
  same_bindings t1 t2 -> same_bindings t2 t3 -> same_bindings t1 t3.
Proof.
  intros (A1 & A2 & A3 & A4 & A5) (B1 & B2 & B3 & B4 & B5).
  repeat split; congruence.
Qed.

Lemma try_ops_same_bindings (ops : list GraphOp) :
  forall t, same_bindings t (try_ops ops t).
Proof.
  induction ops as [|op ops IH]; intros t; [apply same_bindings_refl|].
  cbn [try_ops]. destruct (graph_step t op) as [t'|] eqn:E;
    [|apply same_bindings_refl].
  apply same_bindings_trans with t'; [|apply IH].
  destruct op as [e|n]; cbn in E.
  - destruct (decide (e ∈ edges t)); [|discriminate].
    injection E as <-. now repeat split.
  - injection E as <-. now repeat split.
Qed.

(** Connections that are all there are taken down one after the other. *)
Lemma try_ops_disconnects (es : list Edge) (rest : list GraphOp) :
  forall t,
    NoDup es -> (forall e, e ∈ es -> e ∈ edges t) ->
    exists t',
      try_ops ((Disconnect <$> es) ++ rest) t = try_ops rest t' /\
      disposed t' = disposed t /\
      (forall e, e ∈ edges t' <-> e ∈ edges t /\ e ∉ es).
Proof.
  induction es as [|e1 es IH]; intros t Hnd Hin.
  - exists t. split; [reflexivity|]. split; [reflexivity|].
    intros e. split; [intros H; split; [exact H | apply not_elem_of_nil] | tauto].
  - apply NoDup_cons in Hnd as [Hnotin Hnd].
    cbn [fmap list_fmap app try_ops graph_step].
    destruct (decide (e1 ∈ edges t)) as [_|Hno];
      [|exfalso; apply Hno, Hin; left].
    set (t1 := set_edges (filter (fun x => x ≠ e1) (edges t)) t).
    destruct (IH t1 Hnd) as (t' & Hrun & Hdis & Hmem).
    { intros e He. unfold t1. cbn [edges set_edges].
      apply list_elem_of_filter. split; [|apply Hin; now right].
      intros ->. contradiction. }
    exists t'. split; [exact Hrun|]. split; [exact Hdis|].
    intros e. rewrite Hmem. unfold t1. cbn [edges set_edges].
    rewrite list_elem_of_filter, not_elem_of_cons. tauto.
Qed.

Lemma try_ops_disposes (ns : list nat) :
  forall t,
    edges (try_ops (Dispose <$> ns) t) = edges t /\
    (forall n, n ∈ ns -> n ∈ disposed (try_ops (Dispose <$> ns) t)) /\
    (forall n, n ∈ disposed t -> n ∈ disposed (try_ops (Dispose <$> ns) t)).
Proof.
  induction ns as [|n ns IH]; intros t.
  - split; [reflexivity|]. split; [|tauto].
    intros n H. now apply not_elem_of_nil in H.
  - cbn [fmap list_fmap try_ops graph_step].
    set (t1 := mkTrack (lfoConnections t) (lfoReverseState t) (edges t)
                       (n :: disposed t) (next t) (slotParam t) (playbackRate t)).
    destruct (IH t1) as (He & Hnew & Hold).
    split; [exact He|]. split.
    + intros k Hk. apply elem_of_cons in Hk as [->|Hk]; [|now apply Hnew].
      apply Hold. unfold t1. cbn. left.
    + intros k Hk. apply Hold. unfold t1. cbn. now right.
Qed.

(** *** Shape of a binding *)

Lemma conn_edges_NoDup (c : Connection) :
  NoDup (conn_nodes c) -> NoDup (conn_edges c).
Proof.
  unfold conn_nodes, conn_edges.
  destruct (reversal c) as [[ng ad]|]; intros H.
  - apply NoDup_cons in H as [H1 H]. apply NoDup_cons in H as [H2 _].
    apply not_elem_of_cons in H1 as [H1 H1'].
    apply not_elem_of_cons in H1' as [H1' _].
    apply not_elem_of_cons in H2 as [H2 _].
    repeat (apply NoDup_cons; split); try apply NoDup_nil_2;
      rewrite ?not_elem_of_cons; repeat split;
      try apply not_elem_of_nil; congruence.
  - repeat (apply NoDup_cons; split); try apply NoDup_nil_2;
      rewrite ?not_elem_of_cons; repeat split;
      try apply not_elem_of_nil; congruence.
Qed.

Lemma conn_disposals_nodes (c : Connection) (n : nat) :
  n ∈ conn_nodes c -> n ∈ conn_disposals c.
Proof.
  unfold conn_nodes, conn_disposals.
  destruct (reversal c) as [[ng ad]|];
    rewrite ?elem_of_app, ?elem_of_cons, ?elem_of_nil; tauto.
Qed.

(** Every connection of a binding touches a node made for it, and touches
    made nodes of that binding only. *)
Lemma conn_edge_nodes (c : Connection) (e : Edge) :
  e ∈ conn_edges c ->
  (exists n, n ∈ edge_nodes e) /\
  (forall n, n ∈ edge_nodes e -> n ∈ conn_nodes c).
Proof.
  unfold conn_edges, conn_nodes.
  destruct (reversal c) as [[ng ad]|]; intros He;
    repeat (apply elem_of_cons in He as [->|He]);
    try (now apply not_elem_of_nil in He);
    (split; [eexists; cbn; left |
             cbn; intros n; rewrite ?elem_of_cons, ?elem_of_nil; tauto]).
Qed.

(** In a consistent track two bindings share no connection. *)
Lemma bindings_share_no_edge (t : Track) (name1 name2 : string)
    (c1 c2 : Connection) (e : Edge) :
  consistent t -> name1 <> name2 ->
  lfoConnections t !! name1 = Some c1 ->
  lfoConnections t !! name2 = Some c2 ->
  e ∈ conn_edges c1 -> e ∉ conn_edges c2.
Proof.
  intros Hc Hne H1 H2 He1 He2.
  destruct (conn_edge_nodes c1 e He1) as [[n Hn] Hall1].
  destruct (conn_edge_nodes c2 e He2) as [_ Hall2].
  exact (own_nodes t Hc name1 name2 c1 c2 Hne H1 H2 n (Hall1 n Hn) (Hall2 n Hn)).
Qed.

(** *** [disconnectLFO] *)

(** The statements of [disconnectLFO]: the connections of the binding are
    taken down first, then its nodes are disposed of. *)
Lemma disconnect_ops_shape (c : Connection) :
  disconnect_ops c
  = (Disconnect <$> conn_edges c) ++ (Dispose <$> conn_disposals c).
Proof.
  unfold disconnect_ops, conn_edges, conn_disposals.
  destruct (reversal c) as [[ng ad]|]; reflexivity.
Qed.

Lemma disconnectLFO_unbound (name : string) (t : Track) :
  lfoConnections t !! name = None -> disconnectLFO name t = t.
Proof. intros H. unfold disconnectLFO. now rewrite H. Qed.

(** On a consistent track the whole block runs: the entry goes, every
    connection of the binding goes, its nodes are disposed of, and nothing
    else changes. *)
Lemma disconnectLFO_bound (name : string) (t : Track) (c : Connection) :
  consistent t ->
  lfoConnections t !! name = Some c ->
  let t' := disconnectLFO name t in
  lfoConnections t' = delete name (lfoConnections t) /\
  lfoReverseState t' = lfoReverseState t /\
  next t' = next t /\ slotParam t' = slotParam t /\
  (forall e, e ∈ edges t' <-> e ∈ edges t /\ e ∉ conn_edges c) /\
  (forall n, n ∈ conn_nodes c -> n ∈ disposed t').
Proof.
  intros Hc Hb t'. subst t'. unfold disconnectLFO. rewrite Hb.
  rewrite disconnect_ops_shape.
  destruct (bound_nodes t Hc name c Hb) as [Hnd _].
  destruct (try_ops_disconnects (conn_edges c) (Dispose <$> conn_disposals c) t
              (conn_edges_NoDup c Hnd) (bound_edges t Hc name c Hb))
    as (t1 & Hrun & Hdis & Hmem).
  destruct (try_ops_same_bindings
              ((Disconnect <$> conn_edges c) ++ (Dispose <$> conn_disposals c)) t)
    as (S1 & S2 & S3 & S4 & S5).
  destruct (try_ops_disposes (conn_disposals c) t1) as (He & Hnew & _).
  cbn [lfoConnections lfoReverseState next slotParam edges disposed].
  rewrite S1, S2, S3, S4, Hrun, He.
  do 4 (split; [reflexivity|]). split; [exact Hmem|].
  intros n Hn. apply Hnew, conn_disposals_nodes, Hn.
Qed.

Lemma disconnectLFO_consistent (name : string) (t : Track) :
  consistent t -> consistent (disconnectLFO name t).
Proof.
  intros Hc.
  destruct (lfoConnections t !! name) as [c|] eqn:Hb;
    [|now rewrite disconnectLFO_unbound].
  destruct (disconnectLFO_bound name t c Hc Hb) as (Hm & _ & Hn & _ & He & _).
  constructor.
  - intros name' c' H'. rewrite Hm in H'.
    apply lookup_delete_Some in H' as [_ H']. rewrite Hn.
    exact (bound_nodes t Hc name' c' H').
  - intros name' c' H' e Hin. rewrite Hm in H'.
    apply lookup_delete_Some in H' as [Hne H'].
    apply He. split; [exact (bound_edges t Hc name' c' H' e Hin)|].
    exact (bindings_share_no_edge t name' name c' c e Hc (not_eq_sym Hne) H' Hb Hin).
  - intros n1 n2 c1 c2 Hne H1 H2. rewrite Hm in H1, H2.
    apply lookup_delete_Some in H1 as [_ H1].
    apply lookup_delete_Some in H2 as [_ H2].
    exact (own_nodes t Hc n1 n2 c1 c2 Hne H1 H2).
  - intros e Hin. apply He in Hin as [Hin Hout].
    destruct (edges_bound t Hc e Hin) as (name' & c' & H' & He').
    exists name', c'. split; [|exact He'].
    rewrite Hm. apply lookup_delete_Some. split; [|exact H'].
    intros <-. rewrite Hb in H'. injection H' as <-. contradiction.
Qed.

(** *** [bind] *)

Lemma new_connection_nodes (sc : nat) (min max : Q) (rv : bool)
    (p : AudioParam) (l : nat) :
  let c := new_connection sc min max rv p l in
  NoDup (conn_nodes c) /\
  (forall n, n ∈ conn_nodes c -> sc <= n < sc + length (conn_nodes c)).
Proof.
  unfold new_connection, conn_nodes. destruct rv; cbn.
  - split.
    + repeat (apply NoDup_cons; split); try apply NoDup_nil_2;
        rewrite ?not_elem_of_cons; repeat split;
        try apply not_elem_of_nil; lia.
    + intros n Hn. repeat (apply elem_of_cons in Hn as [->|Hn]); try lia.
      now apply not_elem_of_nil in Hn.
  - split; [apply NoDup_singleton|].
    intros n Hn. apply list_elem_of_singleton in Hn. lia.
Qed.

Lemma bind_consistent (name : string) (min max : Q) (rv : bool)
    (p : AudioParam) (l : nat) (t : Track) :
  consistent t ->
  lfoConnections t !! name = None ->
  consistent (bind name (new_connection (next t) min max rv p l) t).
Proof.
  intros Hc Hfree.
  set (c := new_connection (next t) min max rv p l).
  destruct (new_connection_nodes (next t) min max rv p l) as [Hnd Hrange].
  fold c in Hnd, Hrange.
  constructor; unfold bind; cbn [lfoConnections edges next].
  - intros name' c' H'. apply lookup_insert_Some in H' as [[<- <-]|[Hne H']].
    + split; [exact Hnd|]. intros n Hn. apply Hrange in Hn. lia.
    + destruct (bound_nodes t Hc name' c' H') as [A B].
      split; [exact A|]. intros n Hn. apply B in Hn. lia.
  - intros name' c' H' e Hin. apply elem_of_app.
    apply lookup_insert_Some in H' as [[<- <-]|[Hne H']].
    + left. apply elem_of_reverse. exact Hin.
    + right. exact (bound_edges t Hc name' c' H' e Hin).
  - intros n1 n2 c1 c2 Hne H1 H2 n Hn1 Hn2.
    apply lookup_insert_Some in H1 as [[<- <-]|[Hne1 H1]];
      apply lookup_insert_Some in H2 as [[<- <-]|[Hne2 H2]].
    + contradiction.
    + apply Hrange in Hn1.
      pose proof (proj2 (bound_nodes t Hc n2 c2 H2) n Hn2). lia.
    + apply Hrange in Hn2.
      pose proof (proj2 (bound_nodes t Hc n1 c1 H1) n Hn1). lia.
    + exact (own_nodes t Hc n1 n2 c1 c2 Hne H1 H2 n Hn1 Hn2).
  - intros e Hin. apply elem_of_app in Hin as [Hin|Hin].
    + exists name, c. split; [apply lookup_insert_eq|].
      rewrite elem_of_reverse in Hin. exact Hin.
    + destruct (edges_bound t Hc e Hin) as (name' & c' & H' & He').
      exists name', c'. split; [|exact He'].
      rewrite lookup_insert_ne; [exact H'|]. intros <-. congruence.
Qed.

Lemma new_track_consistent : consistent new_track.
Proof.
  constructor; cbn.
  - intros name c H. now rewrite lookup_empty in H.
  - intros name c H. now rewrite lookup_empty in H.
  - intros n1 n2 c1 c2 _ H. now rewrite lookup_empty in H.
  - intros e H. now apply not_elem_of_nil in H.
Qed.

(** *** [connectLFO] *)

Lemma disconnectLFO_keeps (name : string) (t : Track) :
  lfoConnections (disconnectLFO name t) = delete name (lfoConnections t) /\
  lfoReverseState (disconnectLFO name t) = lfoReverseState t /\
  next (disconnectLFO name t) = next t /\
  slotParam (disconnectLFO name t) = slotParam t /\
  playbackRate (disconnectLFO name t) = playbackRate t.
Proof.
  unfold disconnectLFO.
  destruct (lfoConnections t !! name) as [c|] eqn:Hb.
  - destruct (try_ops_same_bindings (disconnect_ops c) t)
      as (S1 & S2 & S3 & S4 & S5).
    cbn [lfoConnections lfoReverseState next slotParam playbackRate].
    now rewrite S1, S2, S3, S4, S5.
  - repeat split. symmetry. now apply delete_id.
Qed.

Lemma getAudioParamByName_ext (name : string) (t t' : Track) :
  slotParam t' = slotParam t -> playbackRate t' = playbackRate t ->
  getAudioParamByName name t' = getAudioParamByName name t.
Proof. intros H1 H2. unfold getAudioParamByName. now rewrite H1, H2. Qed.

Lemma getAudioParamByName_disconnectLFO (name name' : string) (t : Track) :
  getAudioParamByName name' (disconnectLFO name t) = getAudioParamByName name' t.
Proof.
  destruct (disconnectLFO_keeps name t) as (_ & _ & _ & H1 & H2).
  now apply getAudioParamByName_ext.
Qed.

(** The ways a call of [connectLFO] can go. *)

(** Without a parameter or without an oscillator it stops after the
    disconnection. *)
Lemma connectLFO_run_unresolved (name : string) (min max : Q) (index : JsValue)
    (m : Manager) (t : Track) :
  getAudioParamByName name t = None \/ getLfo (default_index index) m = None ->
  connectLFO_run name min max index m t = (disconnectLFO name t, Returned).
Proof.
  intros H. unfold connectLFO_run. rewrite getAudioParamByName_disconnectLFO.
  destruct (getAudioParamByName name t) as [param|]; [|reflexivity].
  destruct H as [H|H]; [discriminate|]. rewrite H.
  destruct (negb (truthy param)); reflexivity.
Qed.

Lemma connectLFO_unresolved (name : string) (min max : Q) (index : JsValue)
    (m : Manager) (t : Track) :
  getAudioParamByName name t = None \/ getLfo (default_index index) m = None ->
  connectLFO name min max index m t = disconnectLFO name t.
Proof.
  intros H. unfold connectLFO. now rewrite connectLFO_run_unresolved.
Qed.

(** So it does for a number that is zero. *)
Lemma connectLFO_run_zero (name : string) (min max : Q) (index : JsValue)
    (m : Manager) (t : Track) (n : Q) :
  getAudioParamByName name t = Some (TNumber n) -> Qeq_bool n 0 = true ->
  connectLFO_run name min max index m t = (disconnectLFO name t, Returned).
Proof.
  intros H Hz. unfold connectLFO_run. rewrite getAudioParamByName_disconnectLFO, H.
  cbn [truthy]. now rewrite Hz.
Qed.

(** With an audio parameter and an oscillator, the entry is stored and its
    connections are made on top of the disconnected track. *)
Lemma connectLFO_run_bind (name : string) (min max : Q) (index : JsValue)
    (m : Manager) (t : Track) (p : AudioParam) (l : nat) :
  getAudioParamByName name t = Some (TParam p) ->
  getLfo (default_index index) m = Some l ->
  connectLFO_run name min max index m t
  = (bind name
          (new_connection (next t) min max
                          (default false (lfoReverseState t !! name)) p l)
          (disconnectLFO name t),
     Returned).
Proof.
  intros Hp Hl. unfold connectLFO_run.
  rewrite getAudioParamByName_disconnectLFO, Hp, Hl.
  destruct (disconnectLFO_keeps name t) as (_ & K2 & K3 & _).
  rewrite <- K2, <- K3.
  cbn [truthy negb set_next lfoReverseState next].
  destruct (default false (lfoReverseState (disconnectLFO name t) !! name));
    reflexivity.
Qed.

(** With a number other than zero and an oscillator, the call raises at its
    last connection. *)
Lemma connectLFO_run_number (name : string) (min max : Q) (index : JsValue)
    (m : Manager) (t : Track) (n : Q) (l : nat) :
  getAudioParamByName name t = Some (TNumber n) -> Qeq_bool n 0 = false ->
  getLfo (default_index index) m = Some l ->
  connectLFO_run name min max index m t
  = (after_raise l (default false (lfoReverseState t !! name))
                 (disconnectLFO name t),
     Raised).
Proof.
  intros Hp Hz Hl. unfold connectLFO_run.
  rewrite getAudioParamByName_disconnectLFO, Hp, Hl.
  destruct (disconnectLFO_keeps name t) as (_ & K2 & _).
  rewrite <- K2.
  cbn [truthy negb set_next lfoReverseState next]. rewrite Hz. cbn [negb].
  destruct (default false (lfoReverseState (disconnectLFO name t) !! name));
    reflexivity.
Qed.

Lemma connectLFO_run_cases (name : string) (min max : Q) (index : JsValue)
    (m : Manager) (t : Track) :
  let rv := default false (lfoReverseState t !! name) in
  connectLFO_run name min max index m t = (disconnectLFO name t, Returned) \/
  (exists p l,
     getAudioParamByName name t = Some (TParam p) /\
     getLfo (default_index index) m = Some l /\
     connectLFO_run name min max index m t
     = (bind name (new_connection (next t) min max rv p l) (disconnectLFO name t),
        Returned)) \/
  (exists n l,
     getAudioParamByName name t = Some (TNumber n) /\
     Qeq_bool n 0 = false /\
     getLfo (default_index index) m = Some l /\
     connectLFO_run name min max index m t
     = (after_raise l rv (disconnectLFO name t), Raised)).
Proof.
  intros rv.
  destruct (getAudioParamByName name t) as [[p|n]|] eqn:Hp;
    [| |left; apply connectLFO_run_unresolved; now left].
  - destruct (getLfo (default_index index) m) as [l|] eqn:Hl;
      [|left; apply connectLFO_run_unresolved; now right].
    right. left. exists p, l. split; [reflexivity|]. split; [reflexivity|].
    exact (connectLFO_run_bind name min max index m t p l Hp Hl).
  - destruct (Qeq_bool n 0) eqn:Hz;
      [left; now apply (connectLFO_run_zero name min max index m t n)|].
    destruct (getLfo (default_index index) m) as [l|] eqn:Hl;
      [|left; apply connectLFO_run_unresolved; now right].
    right. right. exists n, l. split; [reflexivity|]. split; [exact Hz|].
    split; [reflexivity|].
    exact (connectLFO_run_number name min max index m t n l Hp Hz Hl).
Qed.

(** The call raises for a number other than zero when the oscillator is
    there, and in no other case. *)
Lemma connectLFO_raises_number (name : string) (min max : Q) (index : JsValue)
    (m : Manager) (t : Track) :
  connectLFO_raises name min max index m t = true <->
  exists n l, getAudioParamByName name t = Some (TNumber n) /\
              Qeq_bool n 0 = false /\
              getLfo (default_index index) m = Some l.
Proof.
  unfold connectLFO_raises. rewrite bool_decide_eq_true.
  destruct (connectLFO_run_cases name min max index m t)
    as [E|[(p & l & Hp & Hl & E)|(n & l & Hp & Hz & Hl & E)]]; rewrite E; cbn [snd].
  - split; [discriminate|]. intros (n & l & Hp & Hz & Hl).
    destruct (getLfo (default_index index) m) as [l'|] eqn:Hl'; [|discriminate].
    rewrite (connectLFO_run_number name min max index m t n l' Hp Hz Hl') in E.
    discriminate E.
  - split; [discriminate|]. intros (n & l' & Hp' & _). congruence.
  - split; [|reflexivity]. intros _. now exists n, l.
Qed.


Lemma leaked_nodes (l sc : nat) (rv : bool) (e : Edge) :
  e ∈ leaked l sc rv ->
  (exists k, k ∈ edge_nodes e) /\ (forall k, k ∈ edge_nodes e -> sc <= k).
Proof.
  unfold leaked. destruct rv; intros He;
    repeat (apply elem_of_cons in He as [->|He]);
    try (now apply not_elem_of_nil in He);
    (split; [eexists; cbn; left |
             cbn; intros k; rewrite ?elem_of_cons, ?elem_of_nil; lia]).
Qed.

(** With parameter and oscillator, a new binding is made. *)
Lemma connectLFO_resolved (name : string) (min max : Q) (index : JsValue)
    (m : Manager) (t : Track) (p : AudioParam) (l : nat) :
  consistent t ->
  getAudioParamByName name t = Some (TParam p) ->
  getLfo (default_index index) m = Some l ->
  let t' := connectLFO name min max index m t in
  exists c,
    lfoConnections t' !! name = Some c /\
    source c = l /\ param c = p /\ scaleMin c = min /\ scaleMax c = max /\
    (forall n, n ∈ conn_nodes c -> next t <= n) /\
    (forall e, e ∈ edges t' <->
               e ∈ conn_edges c \/ e ∈ edges (disconnectLFO name t)) /\
    disposed t' = disposed (disconnectLFO name t) /\
    consistent t'.
Proof.
  intros Hc Hp Hl t'. subst t'. unfold connectLFO.
  rewrite (connectLFO_run_bind name min max index m t p l Hp Hl). cbn [fst].
  destruct (disconnectLFO_keeps name t) as (K1 & K2 & K3 & K4 & K5).
  rewrite <- K3.
  set (t0 := disconnectLFO name t) in *.
  set (rv := default false (lfoReverseState t !! name)).
  set (c := new_connection (next t0) min max rv p l).
  exists c. split; [apply lookup_insert_eq|].
  do 4 (split; [reflexivity|]).
  destruct (new_connection_nodes (next t0) min max rv p l) as [_ Hrange].
  fold c in Hrange.
  split; [intros n Hn; apply Hrange in Hn; lia|].
  split.
  { intros e. unfold bind. cbn [edges].
    rewrite elem_of_app, elem_of_reverse. reflexivity. }
  split; [reflexivity|].
  apply bind_consistent; [now apply disconnectLFO_consistent|].
  rewrite K1. apply lookup_delete_eq.
Qed.

Lemma connectLFO_consistent (name : string) (min max : Q) (index : JsValue)
    (m : Manager) (t : Track) :
  consistent t -> connectLFO_raises name min max index m t = false ->
  consistent (connectLFO name min max index m t).
Proof.
  intros Hc Hr.
  destruct (connectLFO_run_cases name min max index m t)
    as [E|[(p & l & Hp & Hl & E)|(n & l & Hp & Hz & Hl & E)]].
  - unfold connectLFO. rewrite E. now apply disconnectLFO_consistent.
  - destruct (connectLFO_resolved name min max index m t p l Hc Hp Hl)
      as (c & _ & _ & _ & _ & _ & _ & _ & _ & H). exact H.
  - exfalso. unfold connectLFO_raises in Hr. rewrite E in Hr.
    cbn [snd] in Hr. now apply bool_decide_eq_false in Hr.
Qed.

(** Every connection of a consistent track lies between nodes already
    made. *)
Lemma edges_allocated (t : Track) (e : Edge) (k : nat) :
  consistent t -> e ∈ edges t -> k ∈ edge_nodes e -> k < next t.
Proof.
  intros Hc He Hk.
  destruct (edges_bound t Hc e He) as (name & c & Hb & Hin).
  destruct (conn_edge_nodes c e Hin) as [_ Hall].
  exact (proj2 (bound_nodes t Hc name c Hb) k (Hall k Hk)).
Qed.


(** What a call does to the rest of the track, however it ends: other
    entries stay, the connections left by the disconnection stay, every
    connection added lies between nodes made by the call. *)
Lemma connectLFO_frame (name : string) (min max : Q) (index : JsValue)
    (m : Manager) (t : Track) :
  let t0 := disconnectLFO name t in
  let t' := connectLFO name min max index m t in
  (forall name', name' <> name ->
     lfoConnections t' !! name' = lfoConnections t !! name') /\
  (forall e, e ∈ edges t0 -> e ∈ edges t') /\
  (forall e, e ∈ edges t' ->
     e ∈ edges t0 \/
     ((exists k, k ∈ edge_nodes e) /\ forall k, k ∈ edge_nodes e -> next t <= k)) /\
  disposed t' = disposed t0 /\
  lfoReverseState t' = lfoReverseState t /\
  slotParam t' = slotParam t /\ playbackRate t' = playbackRate t /\
  next t <= next t'.
Proof.
  intros t0 t'.
  destruct (disconnectLFO_keeps name t) as (K1 & K2 & K3 & K4 & K5).
  fold t0 in K1, K2, K3, K4, K5.
  assert (H0 : forall name', name' <> name ->
                 lfoConnections t0 !! name' = lfoConnections t !! name').
  { intros name' Hne. rewrite K1. apply lookup_delete_ne. congruence. }
  unfold t', connectLFO.
  destruct (connectLFO_run_cases name min max index m t)
    as [E|[(p & l & Hp & Hl & E)|(n & l & Hp & Hz & Hl & E)]];
    rewrite E; cbn [fst]; fold t0.
  - split; [exact H0|]. split; [tauto|]. split; [tauto|].
    split; [reflexivity|]. repeat split; try assumption. lia.
  - unfold bind. cbn [lfoConnections edges disposed lfoReverseState slotParam
                      playbackRate next].
    split; [intros name' Hne; rewrite lookup_insert_ne by congruence; now apply H0|].
    split; [intros e He; apply elem_of_app; now right|].
    split.
    { intros e He. apply elem_of_app in He as [He|He]; [right | now left].
      rewrite elem_of_reverse in He.
      destruct (conn_edge_nodes _ e He) as [Hex Hall]. split; [exact Hex|].
      intros k Hk. apply Hall in Hk.
      destruct (new_connection_nodes (next t) min max
                  (default false (lfoReverseState t !! name)) p l) as [_ Hrange].
      apply Hrange in Hk. lia. }
    split; [reflexivity|]. repeat split; try assumption. lia.
  - unfold after_raise. cbn [lfoConnections edges disposed lfoReverseState
                             slotParam playbackRate next].
    split; [exact H0|].
    split; [intros e He; apply elem_of_app; now right|].
    split.
    { intros e He. apply elem_of_app in He as [He|He]; [right | now left].
      rewrite K3 in He. now apply leaked_nodes in He. }
    split; [reflexivity|]. repeat split; try assumption.
    destruct (default false (lfoReverseState t !! name)); lia.
Qed.



(** The connections of an entry of a consistent track, one by one. *)
Lemma bound_wiring (t : Track) (name : string) (c : Connection) :
  consistent t -> lfoConnections t !! name = Some c ->
  (LfoNode (source c), Made (scale c)) ∈ edges t /\
  (reversal c = None -> (Made (scale c), ParamNode (param c)) ∈ edges t) /\
  (forall negate addMax, reversal c = Some (negate, addMax) ->
     (Made (scale c), Made negate) ∈ edges t /\
     (Made negate, Made addMax) ∈ edges t /\
     (Made addMax, ParamNode (param c)) ∈ edges t).
Proof.
  intros Hc Hb. pose proof (bound_edges t Hc name c Hb) as H.
  unfold conn_edges in H. split; [apply H; left|]. split.
  - intros Hr. rewrite Hr in H. apply H. right. left.
  - intros ng ad Hr. rewrite Hr in H.
    split; [|split]; apply H; rewrite !elem_of_cons; tauto.
Qed.


(** A connection of a consistent track that does not belong to an entry
    touches none of the nodes of that entry. *)
Lemma foreign_edge_nodes (t : Track) (name : string) (c : Connection)
    (e : Edge) (k : nat) :
  consistent t -> lfoConnections t !! name = Some c ->
  e ∈ edges t -> e ∉ conn_edges c -> k ∈ edge_nodes e -> k ∉ conn_nodes c.
Proof.
  intros Hc Hb He Hout Hk.
  destruct (edges_bound t Hc e He) as (name' & c' & Hb' & Hin).
  assert (Hne : name' <> name) by (intros ->; congruence).
  destruct (conn_edge_nodes c' e Hin) as [_ Hall].
  exact (own_nodes t Hc name' name c' c Hne Hb' Hb k (Hall k Hk)).
Qed.

(** What a call does to the binding it replaces, however it ends: no
    connection of the graph touches a node of the old binding any more, and
    those nodes are disposed of. *)
Lemma connectLFO_tears_down (name : string) (min max : Q) (index : JsValue)
    (m : Manager) (t : Track) (old : Connection) :
  consistent t ->
  lfoConnections t !! name = Some old ->
  let t' := connectLFO name min max index m t in
  (forall e k, e ∈ edges t' -> k ∈ edge_nodes e -> k ∉ conn_nodes old) /\
  (forall e, e ∈ conn_edges old -> e ∉ edges t') /\
  (forall n, n ∈ conn_nodes old -> n ∈ disposed t').
Proof.
  intros Hc Hb t'.
  destruct (disconnectLFO_bound name t old Hc Hb) as (_ & _ & _ & _ & He & Hd).
  destruct (connectLFO_frame name min max index m t)
    as (_ & _ & Hnew & Hdisp & _).
  fold t' in Hnew, Hdisp.
  assert (Hfar : forall e k, e ∈ edges t' -> k ∈ edge_nodes e ->
                             k ∉ conn_nodes old).
  { intros e k Hin Hk Hold. apply Hnew in Hin as [Hin|[_ Hfresh]].
    - apply He in Hin as [Hin Hout].
      exact (foreign_edge_nodes t name old e k Hc Hb Hin Hout Hk Hold).
    - pose proof (proj2 (bound_nodes t Hc name old Hb) k Hold).
      pose proof (Hfresh k Hk). lia. }
  split; [exact Hfar|]. split.
  - intros e Hin Hin'.
    destruct (conn_edge_nodes old e Hin) as [[k Hk] Hall].
    exact (Hfar e k Hin' Hk (Hall k Hk)).
  - intros n Hn. rewrite Hdisp. now apply Hd.
Qed.

Lemma made_in_edge_nodes (x : Node) (n : nat) :
  n ∈ edge_nodes (x, Made n) /\ n ∈ edge_nodes (Made n, x).
Proof.
  unfold edge_nodes. cbn [fst snd made_of]. split.
  - apply elem_of_app. right. left.
  - apply elem_of_app. left. left.
Qed.







End LfoFacts.

(** ** The capture processor *)

Module WorkletFacts.
Import Worklet.

Lemma data_chunks_app (a b : list Message) :
  data_chunks (a ++ b) = data_chunks a ++ data_chunks b.
Proof. unfold data_chunks. apply omap_app. Qed.

Lemma tracks_input_new (latency : option nat) :
  tracks_input (default 0 latency) [] (new_processor latency).
Proof.
  unfold tracks_input, new_processor. cbn [fst snd bufferSize bufferL bufferR
    index samplesToSkip skippedSamples data_chunks omap].
  rewrite length_replicate.
  repeat split;
    first [lia | apply Forall_nil_2 | now rewrite drop_nil | cbn; lia].
Qed.

Lemma take_S_insert (l : list Q) (i : nat) (v : Q) :
  i < length l -> take (S i) (<[i := v]> l) = take i l ++ [v].
Proof.
  revert i. induction l as [|x l IH]; intros i Hi; [cbn in Hi; lia|].
  destruct i as [|i]; [reflexivity|].
  cbn. f_equal. apply IH. cbn in Hi. lia.
Qed.

(** One sample more keeps the processor in step with its input. *)
Lemma sample_step_tracks (skip : nat) (consumed : list Q)
    (st : RecorderProcessor * list Message) (valL valR : Q) :
  tracks_input skip consumed st ->
  tracks_input skip (consumed ++ [valL]) (sample_step st valL valR).
Proof.
  intros (Hsz & HlL & HlR & Hidx & Hskip & Hskipped & Hall & Hcat).
  unfold sample_step.
  destruct (Nat.ltb_spec (skippedSamples (fst st)) (samplesToSkip (fst st)))
    as [Hlt|Hge].
  - unfold tracks_input. cbn [fst snd bufferSize bufferL bufferR index
      samplesToSkip skippedSamples].
    rewrite length_app. cbn [length].
    repeat split; try assumption; try lia.
    rewrite Hcat. rewrite !drop_ge; [reflexivity | rewrite length_app; cbn; lia | lia].
  - assert (Hdrop : drop skip (consumed ++ [valL]) = drop skip consumed ++ [valL])
      by (apply drop_app_le; lia).
    destruct (Nat.leb_spec (bufferSize (fst st)) (S (index (fst st)))) as [Hfull|Hroom].
    + unfold tracks_input. cbn [fst snd bufferSize bufferL bufferR index
        samplesToSkip skippedSamples].
      rewrite data_chunks_app, !length_insert, length_app. cbn [length].
      repeat split; try assumption; try lia.
      * apply Forall_app. split; [exact Hall|].
        cbn. apply Forall_singleton. cbn. now rewrite !length_insert.
      * cbn [data_chunks omap]. rewrite fmap_app, concat_app. cbn.
        rewrite !app_nil_r, Hdrop, <- Hcat, <- app_assoc. f_equal.
        rewrite <- take_S_insert by lia.
        symmetry. apply take_ge. rewrite length_insert. lia.
    + unfold tracks_input. cbn [fst snd bufferSize bufferL bufferR index
        samplesToSkip skippedSamples].
      rewrite !length_insert, length_app. cbn [length].
      repeat split; try assumption; try lia.
      rewrite take_S_insert by lia. rewrite app_assoc, Hcat. now rewrite Hdrop.
Qed.

Lemma sample_loop_tracks (skip : nat) (leftRest rightIn : list Q) :
  forall (i : nat) (consumed : list Q) (st : RecorderProcessor * list Message),
    tracks_input skip consumed st ->
    tracks_input skip (consumed ++ leftRest) (sample_loop i leftRest rightIn st).
Proof.
  induction leftRest as [|v rest IH]; intros i consumed st H.
  - now rewrite app_nil_r.
  - cbn [sample_loop].
    replace (consumed ++ v :: rest) with ((consumed ++ [v]) ++ rest)
      by now rewrite <- app_assoc.
    apply IH. now apply sample_step_tracks.
Qed.

(** The messages posted during a loop come after those already there. *)
Lemma sample_step_extends (st : RecorderProcessor * list Message) (valL valR : Q) :
  exists more, snd (sample_step st valL valR) = snd st ++ more /\
               sample_step (fst st, []) valL valR
               = (fst (sample_step st valL valR), more).
Proof.
  unfold sample_step. cbn [fst snd].
  destruct (skippedSamples (fst st) <? samplesToSkip (fst st)).
  - exists []. now rewrite app_nil_r.
  - destruct (bufferSize (fst st) <=? S (index (fst st))).
    + eexists. split; reflexivity.
    + exists []. now rewrite app_nil_r.
Qed.

Lemma process_tracks (skip : nat) (consumed : list Q) (input : list (list Q))
    (p : RecorderProcessor) (msgs : list Message) :
  tracks_input skip consumed (p, msgs) ->
  tracks_input skip (consumed ++ left_of input)
               (fst (process input p), msgs ++ snd (process input p)).
Proof.
  intros H. destruct input as [|leftIn others].
  - cbn. now rewrite !app_nil_r.
  - cbn [process left_of].
    set (rightIn := match others with r :: _ => r | [] => leftIn end).
    assert (Hloop : forall st0,
              tracks_input skip consumed st0 ->
              tracks_input skip (consumed ++ leftIn)
                           (sample_loop 0 leftIn rightIn st0))
      by (intros st0; apply sample_loop_tracks).
    assert (Hsplit : forall (l : list Q) (i : nat) (st0 : RecorderProcessor * list Message),
              sample_loop i l rightIn st0
              = (fst (sample_loop i l rightIn (fst st0, [])),
                 snd st0 ++ snd (sample_loop i l rightIn (fst st0, [])))).
    { induction l as [|v l IHl]; intros i st0.
      - cbn. rewrite app_nil_r. now destruct st0.
      - cbn [sample_loop].
        destruct (sample_step_extends st0 v (default 0%Q (rightIn !! i)))
          as (more & Hm & Hz).
        rewrite (IHl (S i) (sample_step st0 v _)).
        rewrite (IHl (S i) (sample_step (fst st0, []) v _)).
        rewrite Hz, Hm. cbn [fst snd]. now rewrite app_assoc. }
    pose proof (Hloop (p, msgs) H) as Ht.
    rewrite (Hsplit leftIn 0 (p, msgs)) in Ht. cbn [fst snd] in Ht.
    set (st := sample_loop 0 leftIn rightIn (p, [])) in *.
    destruct Ht as (T1 & T2 & T3 & T4 & T5 & T6 & T7 & T8).
    cbn [fst snd] in T1, T2, T3, T4, T5, T6, T7, T8.
    destruct (30 <? S (_peakCount (fst st))); unfold tracks_input;
      cbn [fst snd bufferSize bufferL bufferR index samplesToSkip skippedSamples].
    + rewrite app_assoc, data_chunks_app. cbn [data_chunks omap].
      rewrite app_nil_r. repeat split; assumption.
    + repeat split; assumption.
Qed.

Lemma run_tracks (skip : nat) (inputs : list (list (list Q))) :
  forall (consumed : list Q) (st : RecorderProcessor * list Message),
    tracks_input skip consumed st ->
    tracks_input skip (consumed ++ concat (left_of <$> inputs)) (run inputs st).
Proof.
  induction inputs as [|input inputs IH]; intros consumed st H.
  - cbn. now rewrite app_nil_r.
  - unfold run. cbn [fold_left fmap list_fmap concat].
    fold (run inputs (fst (process input (fst st)),
                      snd st ++ snd (process input (fst st)))).
    rewrite app_assoc. apply IH.
    destruct st as [p msgs]. now apply process_tracks.
Qed.

(** X1.  Whatever render quanta the capture processor is given, every data
    message it posts carries exactly 2048 samples per channel, and the posted
    left samples followed by the samples waiting in the buffer are the left
    input without its first [latencySamples] samples, in order.  Fewer than
    2048 samples are ever waiting, so the posted audio is a whole number of
    2048-sample chunks and ends less than one chunk before the input does. *)
Theorem processor_posts_whole_chunks (latency : option nat)
    (inputs : list (list (list Q))) :
  let st := run inputs (new_processor latency) in
  let chunks := data_chunks (snd st) in
  let input := concat (left_of <$> inputs) in
  Forall (fun c => length (fst c) = 2048 /\ length (snd c) = 2048) chunks /\
  concat (fst <$> chunks) ++ take (index (fst st)) (bufferL (fst st))
    = drop (default 0 latency) input /\
  index (fst st) < 2048 /\
  length (concat (fst <$> chunks)) = 2048 * length chunks /\
  length (concat (fst <$> chunks)) + index (fst st)
    = length input - default 0 latency.
Proof.
  intros st chunks input.
  pose proof (run_tracks (default 0 latency) inputs [] (new_processor latency)
                (tracks_input_new latency)) as H.
  cbn [app] in H. fold st in H.
  destruct H as (_ & HlL & _ & Hidx & _ & _ & Hall & Hcat).
  fold chunks in Hall, Hcat. fold input in Hcat.
  split; [exact Hall|]. split; [exact Hcat|]. split; [exact Hidx|].
  assert (Hlen : length (concat (fst <$> chunks)) = 2048 * length chunks).
  { clear Hcat. induction Hall as [|c cs [Hc _] _ IH]; [reflexivity|].
    cbn [fmap list_fmap concat length]. rewrite length_app, Hc, IH. lia. }
  split; [exact Hlen|].
  apply (f_equal length) in Hcat.
  rewrite length_app, length_take, length_drop in Hcat. lia.
Qed.

End WorkletFacts.

(** ** The recorder: automatic stop, content and fade *)

Module RecorderMore.
Import Recorder RecorderFacts.
Local Open Scope Z_scope.

(** What the message handler keeps true for a recorder with target [T] fed
    chunks of at most [k] samples. *)
Lemma on_data_autostop (T k : Z) (left right : list Q) (r : PCMRecorder) :
  targetSampleCount r = Some T -> 0 < T ->
  Z.of_nat (length left) <= k ->
  (isRecording r = true -> recordingLength r < T) ->
  recordingLength r < T + k ->
  let r' := fst (on_data left right r) in
  targetSampleCount r' = Some T /\
  (isRecording r' = true -> recordingLength r' < T) /\
  recordingLength r' < T + k /\
  recordingLength r <= recordingLength r' /\
  (isRecording r = false -> r' = r).
Proof.
  intros HT Hpos Hk Hrec Hlt r'. subst r'. unfold on_data.
  destruct (isRecording r) eqn:E; cbn [negb fst].
  - rewrite HT. cbn [targetSampleCount isRecording recordingLength].
    specialize (Hrec eq_refl).
    destruct (Z.eqb_spec T 0) as [?|_]; [lia|]. cbn [negb andb].
    destruct (Z.leb_spec T (recordingLength r + Z.of_nat (length left)));
      repeat split; try discriminate; try lia.
  - repeat split; try assumption; try lia.
    intros H. rewrite E in H. discriminate H.
Qed.

Lemma feed_autostop (T k : Z) (chunks : list (list Q * list Q)) :
  forall r,
    targetSampleCount r = Some T -> 0 < T ->
    Forall (fun c => Z.of_nat (length (fst c)) <= k) chunks ->
    (isRecording r = true -> recordingLength r < T) ->
    recordingLength r < T + k ->
    (isRecording (feed chunks r) = true -> recordingLength (feed chunks r) < T) /\
    recordingLength (feed chunks r) < T + k /\
    recordingLength r <= recordingLength (feed chunks r) /\
    (isRecording r = false -> feed chunks r = r).
Proof.
  induction chunks as [|c chunks IH]; intros r HT Hpos Hall Hrec Hlt.
  - cbn. repeat split; try assumption; lia.
  - apply Forall_cons in Hall as [Hc Hall].
    destruct (on_data_autostop T k (fst c) (snd c) r HT Hpos Hc Hrec Hlt)
      as (H1 & H2 & H3 & H4 & H5).
    unfold feed. cbn [fold_left]. fold (feed chunks (fst (on_data c.1 c.2 r))).
    destruct (IH _ H1 Hpos Hall H2 H3) as (I1 & I2 & I3 & I4).
    repeat split; try assumption; try lia.
    intros Hoff. rewrite I4; [exact (H5 Hoff) | now rewrite (H5 Hoff)].
Qed.

Lemma feed_stopped (later : list (list Q * list Q)) (r : PCMRecorder) :
  isRecording r = false -> feed later r = r.
Proof.
  intros Hoff. induction later as [|c later IH]; [reflexivity|].
  unfold feed. cbn [fold_left].
  replace (fst (on_data c.1 c.2 r)) with r; [exact IH|].
  unfold on_data. now rewrite Hoff.
Qed.

(** X2.  In a session started with a duration whose target [T], the
    integer part of the machine's product of duration and sample rate, is
    at least one sample, and fed chunks of at most [k] samples, the recorder
    stops taking chunks as soon as the count reaches [T]: while it is
    recording the count is below [T], the count never reaches [T + k], and
    chunks that arrive once it has stopped itself are dropped. *)
Theorem session_stops_at_target (sr k : Z) (d : Q)
    (chunks later : list (list Q * list Q)) :
  0 < sr -> 1 <= Qfloor (Dbl.round (d * inject_Z sr)) ->
  Forall (fun c => Z.of_nat (length (fst c)) <= k) chunks ->
  0 < k ->
  let T := Qfloor (Dbl.round (d * inject_Z sr)) in
  let r := session sr (Some d) chunks in
  (isRecording r = true -> recordingLength r < T) /\
  recordingLength r < T + k /\
  (T <= recordingLength r ->
     isRecording r = false /\ feed later r = r /\ finalLength r = T).
Proof.
  intros Hsr Hd Hall Hk T r.
  assert (Hd0 : ~ (d == 0)%Q) by exact (target_positive_duration sr d Hd).
  assert (HT : 0 < T) by (unfold T; lia).
  assert (Hstart : targetSampleCount (start (set_target (Some d) (new_recorder sr)))
                   = Some T).
  { unfold set_target, start, new_recorder.
    destruct (Qeq_bool d 0) eqn:E; [apply Qeq_bool_iff in E; contradiction|].
    cbn [ctxSampleRate leftBuffers rightBuffers recordingLength isRecording
         onComplete targetSampleCount].
    destruct (Z.eqb_spec sr 0); [lia | reflexivity]. }
  destruct (feed_autostop T k chunks _ Hstart HT Hall) as (F1 & F2 & _ & _);
    [intros _; cbn [start recordingLength]; lia
    | cbn [start recordingLength]; lia |].
  fold (session sr (Some d) chunks) in F1, F2. fold r in F1, F2.
  split; [exact F1|]. split; [exact F2|].
  intros Hreached.
  assert (Hoff : isRecording r = false).
  { destruct (isRecording r) eqn:E; [|reflexivity]. specialize (F1 eq_refl). lia. }
  assert (Htgt : targetSampleCount r = Some T).
  { destruct (session_fields sr d chunks Hsr Hd0) as (_ & H & _). exact H. }
  split; [exact Hoff|]. split.
  - now apply feed_stopped.
  - rewrite (finalLength_target r T Htgt HT). lia.
Qed.

Lemma session_stops_at_target_witness :
  let d := Dbl.literal (23 # 10) in
  let chunk := (replicate 2048 1%Q, replicate 2048 0%Q) in
  let r := session 48000 (Some d) (replicate 60 chunk) in
  recordingLength r = 110592 /\ isRecording r = false /\
  finalLength r = 110399.
Proof.
  intros d chunk r.
  destruct (session_stops_at_target 48000 2048 d (replicate 60 chunk) [])
    as (_ & _ & H); [lia | vm_compute; discriminate | | lia |].
  - repeat constructor; cbn; lia.
  - split; [reflexivity|].
    destruct H as (H1 & _ & H3); [vm_compute; discriminate|].
    split; [exact H1 | exact H3].
Defined.

(** The fade loop works on each channel by itself. *)
Lemma fade_fold_channels (n k : nat) (idx : list nat) :
  forall lr : list Q * list Q,
    fold_left (fade_step n k) idx lr
    = (fold_left (fade_channel_step n k) idx (fst lr),
       fold_left (fade_channel_step n k) idx (snd lr)).
Proof.
  induction idx as [|i idx IH]; intros [l r]; [reflexivity|].
  cbn [fold_left]. now rewrite IH.
Qed.

(** The channel after the first [m] rounds: the first [m] samples and the
    last [m] samples carry their ramp factor, the rest is as it was. *)
Lemma fade_channel_lookup (n k : nat) (buf : list Q) :
  length buf = n -> (2 * k <= n)%nat ->
  forall m, (m <= k)%nat ->
  forall j,
    fold_left (fade_channel_step n k) (seq 0 m) buf !! j =
      if decide (j < m)%nat
      then (fun x => fade_product x (fadeMultiplier j k)) <$> buf !! j
      else if decide (n - m <= j)%nat
      then (fun x => fade_product x (fadeMultiplier (n - 1 - j) k)) <$> buf !! j
      else buf !! j.
Proof.
  intros Hlen Hk m. induction m as [|m IH]; intros Hm j.
  - cbn [seq fold_left]. case_decide; [lia|]. case_decide; [|reflexivity].
    rewrite lookup_ge_None_2 by lia. reflexivity.
  - rewrite seq_S, fold_left_app. cbn [fold_left Nat.add].
    unfold fade_channel_step at 1. unfold scale_at.
    rewrite !list_lookup_alter.
    specialize (IH ltac:(lia)).
    repeat case_decide; try subst j; try lia; rewrite ?IH;
      repeat case_decide; try lia; try reflexivity.
    replace (n - 1 - (n - 1 - m))%nat with m by lia. reflexivity.
Qed.

(** X3.  The edge fade of [stop], on channels of [n] samples with [k] fade
    samples.  Sample [j] of the head ([j < k]) is replaced by its product
    with the ramp factor [j / k], sample [j] of the tail ([j >= n - k]) by
    its product with [(n - 1 - j) / k]; quotient and product are the ones
    of the machine, and the product is stored as a 32-bit float.  Every
    sample in between is left exactly as it was.  Head and tail never
    overlap ([2 k <= n]), and with at least one fade sample the first and the
    last sample of both channels become 0. *)
Theorem fade_shapes_only_the_edges (n sr : Z) (l r : list Q) :
  0 <= n -> length l = Z.to_nat n -> length r = Z.to_nat n ->
  let N := Z.to_nat n in
  let k := Z.to_nat (fadeSamples n sr) in
  let ramp := fun i : nat => fadeMultiplier i k in
  let out := fade n sr (l, r) in
  (2 * k <= N)%nat /\
  (forall j x y, l !! j = Some x -> r !! j = Some y ->
     ((j < k)%nat ->
        fst out !! j = Some (fade_product x (ramp j)) /\
        snd out !! j = Some (fade_product y (ramp j))) /\
     ((k <= j < N - k)%nat ->
        fst out !! j = Some x /\ snd out !! j = Some y) /\
     ((N - k <= j)%nat ->
        fst out !! j = Some (fade_product x (ramp (N - 1 - j)%nat)) /\
        snd out !! j = Some (fade_product y (ramp (N - 1 - j)%nat)))) /\
  ((1 <= k)%nat ->
     forall z, (fst out !! 0%nat = Some z \/ snd out !! 0%nat = Some z \/
                fst out !! (N - 1)%nat = Some z \/ snd out !! (N - 1)%nat = Some z) ->
               (z == 0)%Q).
Proof.
  intros Hn Hl Hr N k ramp out.
  assert (Hk : (2 * k <= N)%nat).
  { unfold k, N, fadeSamples.
    assert (0 <= n / 2) by (apply Z.div_pos; lia).
    assert (2 * (n / 2) <= n) by (apply Z.mul_div_le; lia). lia. }
  assert (Hout : out = (fold_left (fade_channel_step N k) (seq 0 k) l,
                        fold_left (fade_channel_step N k) (seq 0 k) r))
    by (unfold out, fade; apply fade_fold_channels).
  pose proof (fade_channel_lookup N k l Hl Hk k (Nat.le_refl k)) as HL.
  pose proof (fade_channel_lookup N k r Hr Hk k (Nat.le_refl k)) as HR.
  rewrite Hout. cbn [fst snd].
  split; [exact Hk|]. split.
  - intros j x y Hx Hy.
    pose proof (lookup_lt_Some _ _ _ Hx) as Hj.
    split; [|split]; intros Hc; rewrite HL, HR, Hx, Hy;
      repeat case_decide; try lia; split; reflexivity.
  - intros Hk1 z Hz.
    assert (Hzero : forall x : Q, (fade_product x (ramp 0%nat) == 0)%Q).
    { intros x. unfold ramp, fade_product, fadeMultiplier, Dbl.round, Dbl.round32.
      rewrite (DblFacts.round_to_zero 53 _ (inject_Z (Z.of_nat 0) / _))
        by reflexivity.
      rewrite (DblFacts.round_to_zero 53 _ (x * 0))
        by (cbn [Qnum Qmult]; lia).
      reflexivity. }
    rewrite !HL, !HR in Hz.
    repeat (case_decide; try lia).
    replace (N - 1 - (N - 1))%nat with 0%nat in Hz by lia.
    destruct Hz as [Hz|[Hz|[Hz|Hz]]];
      match type of Hz with
      | _ <$> ?o = _ => destruct o; [injection Hz as <-; apply Hzero | discriminate]
      end.
Qed.

Lemma fade_shapes_only_the_edges_witness :
  fst (fade 6 400 ([8; 8; 8; 8; 8; 8], [4; 4; 4; 4; 4; 4])%Q) !! 3%nat = Some 8%Q.
Proof.
  destruct (fade_shapes_only_the_edges 6 400 [8; 8; 8; 8; 8; 8]%Q
              [4; 4; 4; 4; 4; 4]%Q) as (_ & H & _);
    [lia | reflexivity | reflexivity |].
  destruct (H 3%nat 8%Q 4%Q eq_refl eq_refl) as (_ & Hmid & _).
  apply Hmid. vm_compute. lia.
Defined.

(** The first step of the ramp on a full-scale sample, with 31 fade
    samples: the stored value is the 32-bit float next to 1/31, and the WAV
    word made from it is 1056, one below the word of the exact quotient. *)
Lemma fade_product_is_stored_value :
  (fade_product 1 (fadeMultiplier 1 31) == 1082401 # 33554432)%Q /\
  floatTo16 (fade_product 1 (fadeMultiplier 1 31)) = 1056 /\
  floatTo16 (1 / 31) = 1057.
Proof. vm_compute. repeat split. Qed.

(** X4.  When at least [finalLength] samples per channel have been captured,
    the buffer [stop] hands to the encoder is, before the fade, the first
    [finalLength] captured left samples and the first [finalLength] captured
    right samples (or the left ones again when the right channel is found
    silent): nothing is reordered and nothing comes from beyond the cut. *)
Theorem stop_keeps_first_samples (r : PCMRecorder) :
  0 < finalLength r ->
  (Z.to_nat (finalLength r) <= length (concat (leftBuffers r)))%nat ->
  (Z.to_nat (finalLength r) <= length (concat (rightBuffers r)))%nat ->
  let n := Z.to_nat (finalLength r) in
  let L := take n (concat (leftBuffers r)) in
  let R := take n (concat (rightBuffers r)) in
  stop_buffer r =
    Some (let faded := fade (finalLength r) (ctxSampleRate r)
                         (L, if rightIsSilent R then L else R) in
          mkBuffer 2 (ctxSampleRate r) (fst faded) (snd faded)).
Proof.
  intros Hpos HL HR n L R. unfold stop_buffer.
  rewrite !mergeBuffers_truncates by (try lia; assumption).
  destruct (Z.eqb_spec (finalLength r) 0); [lia | reflexivity].
Qed.

Lemma stop_keeps_first_samples_witness :
  channelL <$> stop_buffer
     (session 48000 (Some (1 # 16000)%Q) [([1; 2], [3; 4]); ([5; 6], [7; 8])]%Q)
  = Some (fst (fade 3 48000 ([1; 2; 5], [3; 4; 7])%Q)).
Proof.
  rewrite (stop_keeps_first_samples
             (session 48000 (Some (1 # 16000)%Q)
                      [([1; 2], [3; 4]); ([5; 6], [7; 8])]%Q));
    [reflexivity | reflexivity | vm_compute; lia | vm_compute; lia].
Defined.

(** *** The WAV encoder *)

Lemma js_trunc_nonneg (a : Q) : (0 <= a)%Q -> Js.trunc a = Qfloor a.
Proof. intros H. unfold Js.trunc. apply Qle_bool_iff in H. now rewrite H. Qed.

Lemma js_trunc_neg (a : Q) : (a < 0)%Q -> Js.trunc a = Qceiling a.
Proof.
  intros H. unfold Js.trunc. destruct (Qle_bool 0 a) eqn:E; [|reflexivity].
  apply Qle_bool_iff in E. lra.
Qed.

(** [Math.max(-1, Math.min(1, x))]. *)
Lemma js_min_max_clamp (x : Q) :
  let s := Js.max (-1) (Js.min 1 x) in
  (-1 <= s <= 1)%Q /\
  ((1 <= x)%Q -> (s == 1)%Q) /\ ((x <= -1)%Q -> (s == -1)%Q) /\
  ((-1 <= x <= 1)%Q -> (s == x)%Q).
Proof.
  unfold Js.max, Js.min.
  destruct (Qle_bool 1 x) eqn:E1.
  - apply Qle_bool_iff in E1.
    change (Qle_bool (-1) 1) with true. cbv iota.
    repeat split; try lra.
  - assert (H1 : (x < 1)%Q).
    { destruct (Qlt_le_dec x 1) as [H|H]; [exact H|].
      apply Qle_bool_iff in H. congruence. }
    destruct (Qle_bool (-1) x) eqn:E2.
    + apply Qle_bool_iff in E2. repeat split; lra.
    + assert (H2 : (x < -1)%Q).
      { destruct (Qlt_le_dec x (-1)) as [H|H]; [exact H|].
        apply Qle_bool_iff in H. congruence. }
      repeat split; lra.
Qed.

(** One word of [floatTo16BitPCM]. *)
Lemma floatTo16_bounds (x : Q) :
  let s := Js.max (-1) (Js.min 1 x) in
  -32768 <= floatTo16 x <= 32767 /\
  ((0 <= s)%Q -> (0 <= s * 32767 - inject_Z (floatTo16 x) < 1)%Q) /\
  ((s < 0)%Q -> (0 <= inject_Z (floatTo16 x) - s * 32768 < 1)%Q).
Proof.
  intros s. destruct (js_min_max_clamp x) as ([Hlo Hhi] & _). fold s in Hlo, Hhi.
  unfold floatTo16. fold s.
  destruct (Js.lt_bool s 0) eqn:E.
  - apply JsFacts.lt_bool_iff in E.
    assert (Hneg : (s * 32768 < 0)%Q) by lra.
    rewrite (js_trunc_neg _ Hneg).
    pose proof (Qle_ceiling (s * 32768)) as C1.
    pose proof (Qceiling_lt (s * 32768)) as C2.
    unfold Z.sub in C2. rewrite inject_Z_plus in C2.
    change (inject_Z (- (1))) with (- (1))%Q in C2.
    assert (B1 : Qceiling (inject_Z (-32768)) <= Qceiling (s * 32768)).
    { apply Qceiling_resp_le. change (inject_Z (-32768)) with (-32768)%Q. lra. }
    assert (B2 : Qceiling (s * 32768) <= Qceiling (inject_Z 0)).
    { apply Qceiling_resp_le. change (inject_Z 0) with 0%Q. lra. }
    rewrite Qceiling_Z in B1, B2.
    split; [lia|]. split; [lra|]. intros _.
    set (c := inject_Z (Qceiling (s * 32768))) in *. clearbody c. lra.
  - assert (Hs : (0 <= s)%Q).
    { destruct (Qlt_le_dec s 0) as [H|H]; [|exact H].
      apply JsFacts.lt_bool_iff in H. congruence. }
    assert (Hpos : (0 <= s * 32767)%Q) by lra.
    rewrite (js_trunc_nonneg _ Hpos).
    pose proof (Qfloor_le (s * 32767)) as F1.
    pose proof (Qlt_floor (s * 32767)) as F2.
    rewrite inject_Z_plus in F2. change (inject_Z 1) with 1%Q in F2.
    assert (B1 : Qfloor (inject_Z 0) <= Qfloor (s * 32767)).
    { apply Qfloor_resp_le. change (inject_Z 0) with 0%Q. lra. }
    assert (B2 : Qfloor (s * 32767) <= Qfloor (inject_Z 32767)).
    { apply Qfloor_resp_le. change (inject_Z 32767) with 32767%Q. lra. }
    rewrite Qfloor_Z in B1, B2.
    split; [lia|]. split; [|lra]. intros _.
    set (f := inject_Z (Qfloor (s * 32767))) in *. clearbody f. lra.
Qed.

(** X5.  [encodeWAV] never overflows a 16-bit word: every sample is clamped
    to [[-1, 1]] and stored as an integer between -32768 and 32767 that is
    within one unit of the scaled sample (scaled by 32767 when non-negative,
    by 32768 when negative).  The header sizes agree with the data written:
    two bytes per word, and a RIFF size 36 bytes above the data size. *)
Theorem encodeWAV_words_fit (b : AudioBuffer) :
  let w := encodeWAV b in
  Forall (fun v => -32768 <= v <= 32767) (pcm16 w) /\
  dataBytes w = 2 * Z.of_nat (length (pcm16 w)) /\
  riffSize w = 36 + dataBytes w /\
  wavChannels w = numberOfChannels b /\ wavSampleRate w = sampleRate b /\
  forall x : Q,
    let s := Js.max (-1) (Js.min 1 x) in
    ((0 <= s)%Q -> (0 <= s * 32767 - inject_Z (floatTo16 x) < 1)%Q) /\
    ((s < 0)%Q -> (0 <= inject_Z (floatTo16 x) - s * 32768 < 1)%Q) /\
    ((1 <= x)%Q -> floatTo16 x = 32767) /\
    ((x <= -1)%Q -> floatTo16 x = -32768).
Proof.
  intros w. unfold w, encodeWAV. cbn [pcm16 dataBytes riffSize wavChannels
    wavSampleRate].
  split.
  { apply Forall_fmap. apply Forall_forall. intros x _.
    exact (proj1 (floatTo16_bounds x)). }
  rewrite length_map.
  split; [lia|]. split; [reflexivity|]. split; [reflexivity|].
  split; [reflexivity|].
  intros x. set (s := Js.max (-1) (Js.min 1 x)).
  destruct (floatTo16_bounds x) as (_ & Hp & Hn). fold s in Hp, Hn.
  destruct (js_min_max_clamp x) as (_ & H1 & Hm1 & _). fold s in H1, Hm1.
  split; [exact Hp|]. split; [exact Hn|]. split.
  - intros Hx. specialize (H1 Hx).
    assert (Hs : (0 <= s)%Q) by lra. specialize (Hp Hs).
    assert (E : (inject_Z 32766 < inject_Z (floatTo16 x) <= inject_Z 32767)%Q).
    { change (inject_Z 32767) with 32767%Q. change (inject_Z 32766) with 32766%Q.
      rewrite H1 in Hp. lra. }
    destruct E as [E1 E2]. rewrite <- Zle_Qle in E2.
    rewrite <- Zlt_Qlt in E1. lia.
  - intros Hx. specialize (Hm1 Hx).
    assert (Hs : (s < 0)%Q) by lra. specialize (Hn Hs).
    assert (E : (inject_Z (-32768) <= inject_Z (floatTo16 x) < inject_Z (-32767))%Q).
    { change (inject_Z (-32768)) with (-32768)%Q.
      change (inject_Z (-32767)) with (-32767)%Q. rewrite Hm1 in Hn. lra. }
    destruct E as [E1 E2]. rewrite <- Zle_Qle in E1.
    rewrite <- Zlt_Qlt in E2. lia.
Qed.

End RecorderMore.

(** ** More on LFO bindings *)

Module LfoMore.
Import Lfo LfoFacts LfoOps.

Lemma connectLFO_other_lookup (name name' : string) (min max : Q)
    (index : JsValue) (m : Manager) (t : Track) :
  name' <> name ->
  lfoConnections (connectLFO name min max index m t) !! name'
  = lfoConnections t !! name'.
Proof.
  intros Hne.
  exact (proj1 (connectLFO_frame name min max index m t) name' Hne).
Qed.

Lemma drives_iff_bound (t : Track) (name : string) (l : nat) :
  consistent t ->
  drives t l name <->
  exists c, lfoConnections t !! name = Some c /\ source c = l.
Proof.
  intros Hc. split.
  - intros (c & Hb & Hs & _). now exists c.
  - intros (c & Hb & Hs). exists c. split; [exact Hb|]. split; [exact Hs|].
    exact (bound_edges t Hc name c Hb).
Qed.

(** X6.  Binding one parameter leaves every other parameter alone: on a
    track whose bindings and graph agree, [connectLFO] for [name] changes
    neither the entry stored under another name nor the oscillator that
    drives it, whatever the outcome for [name] itself. *)
Theorem connectLFO_leaves_others (name name' : string) (min max : Q)
    (index : JsValue) (m : Manager) (t : Track) :
  consistent t -> name' <> name ->
  let t' := connectLFO name min max index m t in
  lfoConnections t' !! name' = lfoConnections t !! name' /\
  (forall l, drives t' l name' <-> drives t l name') /\
  (forall c e, lfoConnections t !! name' = Some c -> e ∈ conn_edges c ->
               e ∈ edges t').
Proof.
  intros Hc Hne t'.
  destruct (connectLFO_frame name min max index m t) as (Hl & Hkeep & _).
  fold t' in Hl, Hkeep. specialize (Hl name' Hne).
  assert (Hstay : forall c e, lfoConnections t !! name' = Some c ->
                              e ∈ conn_edges c -> e ∈ edges t').
  { intros c e Hb He. apply Hkeep.
    pose proof (disconnectLFO_consistent name t Hc) as Hc0.
    apply (bound_edges _ Hc0 name' c); [|exact He].
    destruct (disconnectLFO_keeps name t) as (-> & _).
    rewrite lookup_delete_ne by congruence. exact Hb. }
  split; [exact Hl|]. split; [|exact Hstay].
  intros l. split.
  - intros (c & Hb & Hs & _). rewrite Hl in Hb.
    exists c. split; [exact Hb|]. split; [exact Hs|].
    exact (bound_edges t Hc name' c Hb).
  - intros (c & Hb & Hs & _).
    exists c. split; [now rewrite Hl|]. split; [exact Hs|].
    intros e He. exact (Hstay c e Hb He).
Qed.

Lemma connectLFO_leaves_others_witness :
  let t := connectLFO "pan" (-1) 1 (JNum 2) initialized new_track in
  lfoConnections (connectLFO "volume" (-12) 0 (JNum 1) initialized t) !! "pan"
  = lfoConnections t !! "pan".
Proof.
  intros t.
  apply (connectLFO_leaves_others "volume" "pan" (-12) 0 (JNum 1) initialized t);
    [|discriminate].
  apply connectLFO_consistent; [apply new_track_consistent | reflexivity].
Defined.

(** X7.  Binding and then unbinding a parameter that was not bound gives
    the map of entries back.  When [connectLFO] returns, the modulation
    graph has the same connections as before and bindings and graph still
    agree; this holds as well when the binding was refused.  When
    [connectLFO] raises, at the connection to a plain number, no entry was
    stored, so [disconnectLFO] finds nothing to take down: the connection
    from the oscillator to the rescale node made by the call stays in the
    graph, and bindings and graph no longer agree. *)
Theorem connect_disconnect_round_trip (name : string) (min max : Q)
    (index : JsValue) (m : Manager) (t : Track) :
  consistent t ->
  lfoConnections t !! name = None ->
  let t' := disconnectLFO name (connectLFO name min max index m t) in
  lfoConnections t' = lfoConnections t /\
  (connectLFO_raises name min max index m t = false ->
     (forall e, e ∈ edges t' <-> e ∈ edges t) /\ consistent t') /\
  (connectLFO_raises name min max index m t = true ->
     exists l, getLfo (default_index index) m = Some l /\
               (LfoNode l, Made (next t)) ∈ edges t' /\
               ((LfoNode l, Made (next t)) ∉ edges t) /\
               (forall e, e ∈ edges t -> e ∈ edges t') /\
               ~ consistent t').
Proof.
  intros Hc Hfree t'.
  assert (H0 : disconnectLFO name t = t) by now apply disconnectLFO_unbound.
  assert (Hmap : lfoConnections t' = lfoConnections t).
  { unfold t'.
    destruct (disconnectLFO_keeps name (connectLFO name min max index m t))
      as (-> & _).
    apply map_eq. intros k. destruct (decide (k = name)) as [->|Hne].
    - now rewrite lookup_delete_eq, Hfree.
    - rewrite lookup_delete_ne by congruence.
      now apply connectLFO_other_lookup. }
  split; [exact Hmap|]. split.
  - intros Hr.
    assert (Hcons : consistent t')
      by (apply disconnectLFO_consistent, connectLFO_consistent; assumption).
    split; [|exact Hcons].
    destruct (connectLFO_run_cases name min max index m t)
      as [E|[(p & l & Hp & Hl & E)|(n & l & Hp & Hz & Hl & E)]].
    + unfold t', connectLFO. rewrite E. cbn [fst]. rewrite H0, H0. reflexivity.
    + destruct (connectLFO_resolved name min max index m t p l Hc Hp Hl)
        as (c & Hb & _ & _ & _ & _ & Hfresh & Hedges & _ & Hc1).
      destruct (disconnectLFO_bound name _ c Hc1 Hb) as (_ & _ & _ & _ & He & _).
      fold t' in He. intros e. rewrite He, Hedges, H0. split; [tauto|].
      intros Hin. split; [now right|]. intros Hin'.
      destruct (conn_edge_nodes c e Hin') as [[k Hk] Hall].
      pose proof (edges_allocated t e k Hc Hin Hk).
      pose proof (Hfresh k (Hall k Hk)). lia.
    + exfalso. unfold connectLFO_raises in Hr. rewrite E in Hr. cbn [snd] in Hr.
      now apply bool_decide_eq_false in Hr.
  - intros Hr. apply connectLFO_raises_number in Hr as (n & l & Hp & Hz & Hl).
    exists l. split; [exact Hl|].
    assert (Ht' : t' = after_raise l (default false (lfoReverseState t !! name)) t).
    { unfold t', connectLFO.
      rewrite (connectLFO_run_number name min max index m t n l Hp Hz Hl).
      cbn [fst]. rewrite H0. apply disconnectLFO_unbound. exact Hfree. }
    assert (Hnew : (LfoNode l, Made (next t)) ∈ edges t').
    { rewrite Ht'. unfold after_raise, leaked. cbn [edges].
      apply elem_of_app. left.
      destruct (default false (lfoReverseState t !! name));
        rewrite !elem_of_cons; tauto. }
    assert (Hold : (LfoNode l, Made (next t)) ∉ edges t).
    { intros Hin.
      pose proof (edges_allocated t _ (next t) Hc Hin
                    (proj1 (made_in_edge_nodes (LfoNode l) (next t)))). lia. }
    split; [exact Hnew|]. split; [exact Hold|]. split.
    + intros e He. rewrite Ht'. unfold after_raise. cbn [edges].
      apply elem_of_app. now right.
    + intros Hc'. destruct (edges_bound t' Hc' _ Hnew) as (k & c & Hb & Hin).
      rewrite Hmap in Hb. exact (Hold (bound_edges t Hc k c Hb _ Hin)).
Qed.

Lemma connect_disconnect_round_trip_witness :
  lfoConnections
    (disconnectLFO "bass" (connectLFO "bass" 0 6 (JNum 1) initialized new_track))
  = lfoConnections new_track /\
  (LfoNode 1, Made 0)
    ∈ edges (disconnectLFO "pitch"
               (connectLFO "pitch" (1 # 2) 2 (JNum 1) initialized new_track)).
Proof.
  split.
  - apply (connect_disconnect_round_trip "bass" 0 6 (JNum 1) initialized new_track
             new_track_consistent).
    reflexivity.
  - destruct (connect_disconnect_round_trip "pitch" (1 # 2) 2 (JNum 1) initialized
                new_track new_track_consistent eq_refl) as (_ & _ & H).
    destruct (H eq_refl) as (l & Hl & Hin & _).
    injection Hl as <-. exact Hin.
Defined.



(** Agreement of bindings and graph looks at the entries, the connections
    and the allocation counter only. *)
Lemma consistent_ext (t t' : Track) :
  lfoConnections t' = lfoConnections t -> edges t' = edges t -> next t' = next t ->
  consistent t -> consistent t'.
Proof.
  intros E1 E2 E3 Hc. constructor; rewrite ?E1, ?E2, ?E3.
  - exact (bound_nodes t Hc).
  - exact (bound_edges t Hc).
  - exact (own_nodes t Hc).
  - exact (edges_bound t Hc).
Qed.

Lemma consistent_same_shape (t : Track) (name : string) (c c' : Connection) :
  consistent t ->
  lfoConnections t !! name = Some c ->
  conn_nodes c' = conn_nodes c -> conn_edges c' = conn_edges c ->
  consistent (mkTrack (<[name := c']> (lfoConnections t)) (lfoReverseState t)
                      (edges t) (disposed t) (next t) (slotParam t)
                      (playbackRate t)).
Proof.
  intros Hc Hb Hn He. constructor; cbn [lfoConnections edges next].
  - intros k d Hk. apply lookup_insert_Some in Hk as [[<- <-]|[Hne Hk]].
    + rewrite Hn. exact (bound_nodes t Hc name c Hb).
    + exact (bound_nodes t Hc k d Hk).
  - intros k d Hk. apply lookup_insert_Some in Hk as [[<- <-]|[Hne Hk]].
    + rewrite He. exact (bound_edges t Hc name c Hb).
    + exact (bound_edges t Hc k d Hk).
  - intros k1 k2 d1 d2 Hne H1 H2.
    apply lookup_insert_Some in H1 as [[<- <-]|[Hne1 H1]];
      apply lookup_insert_Some in H2 as [[<- <-]|[Hne2 H2]];
      rewrite ?Hn.
    + contradiction.
    + exact (own_nodes t Hc name k2 c d2 Hne Hb H2).
    + exact (own_nodes t Hc k1 name d1 c Hne H1 Hb).
    + exact (own_nodes t Hc k1 k2 d1 d2 Hne H1 H2).
  - intros e Hin. destruct (edges_bound t Hc e Hin) as (k & d & Hk & Hd).
    destruct (decide (k = name)) as [->|Hne].
    + exists name, c'. split; [apply lookup_insert_eq|].
      rewrite He. congruence.
    + exists k, d. split; [|exact Hd]. rewrite lookup_insert_ne by congruence.
      exact Hk.
Qed.

(** X9.  [updateLfoRange] changes the range of a bound parameter in place:
    the entry keeps its nodes, its parameter and its oscillator, no
    connection is made or removed, nothing is disposed of, and bindings and
    graph still agree.  For a name that is not bound it does nothing. *)
Theorem updateLfoRange_in_place (name : string) (min max : Q) (t : Track) :
  consistent t ->
  let t' := updateLfoRange name min max t in
  (lfoConnections t !! name = None -> t' = t) /\
  (forall c, lfoConnections t !! name = Some c ->
     lfoConnections t' !! name
       = Some (mkConnection (scale c) min max (reversal c) (param c) (source c)) /\
     edges t' = edges t /\ disposed t' = disposed t /\ next t' = next t /\
     (forall name', name' <> name ->
        lfoConnections t' !! name' = lfoConnections t !! name') /\
     (forall l, drives t' l name <-> drives t l name) /\
     consistent t').
Proof.
  intros Hc t'. unfold t', updateLfoRange. split.
  - intros ->. reflexivity.
  - intros c Hb. rewrite Hb. cbn [lfoConnections edges disposed next].
    split; [apply lookup_insert_eq|]. do 3 (split; [reflexivity|]).
    split; [intros name' Hne; apply lookup_insert_ne; congruence|].
    assert (Hc' : consistent
              (mkTrack (<[name := mkConnection (scale c) min max (reversal c)
                                               (param c) (source c)]>
                          (lfoConnections t))
                       (lfoReverseState t) (edges t) (disposed t) (next t)
                       (slotParam t) (playbackRate t)))
      by (apply (consistent_same_shape t name c); [exact Hc | exact Hb | reflexivity ..]).
    split; [|exact Hc'].
    intros l. rewrite (drives_iff_bound _ name l Hc'), (drives_iff_bound t name l Hc).
    cbn [lfoConnections]. rewrite lookup_insert_eq, Hb. split.
    + intros (d & [= <-] & Hs). exists c. split; [reflexivity | exact Hs].
    + intros (d & [= <-] & Hs). eexists. split; [reflexivity | exact Hs].
Qed.

Lemma updateLfoRange_in_place_witness :
  let t := connectLFO "treble" 0 1 (JNum 1) initialized new_track in
  edges (updateLfoRange "treble" (-6) 6 t) = edges t.
Proof.
  intros t.
  destruct (updateLfoRange_in_place "treble" (-6) 6 t) as [_ H];
    [apply connectLFO_consistent; [apply new_track_consistent | reflexivity]|].
  destruct (lfoConnections t !! "treble") as [c|] eqn:Hb;
    [|vm_compute in Hb; discriminate Hb].
  exact (proj1 (proj2 (H c eq_refl))).
Defined.

(** [connectLFO] begins with the disconnection: called on a track that has
    just been disconnected under the same name, it goes as on the track
    before. *)
Lemma connectLFO_run_after_disconnect (name : string) (min max : Q)
    (index : JsValue) (m : Manager) (t : Track) :
  connectLFO_run name min max index m (disconnectLFO name t)
  = connectLFO_run name min max index m t.
Proof.
  unfold connectLFO_run.
  rewrite (disconnectLFO_unbound name (disconnectLFO name t)); [reflexivity|].
  destruct (disconnectLFO_keeps name t) as (-> & _). apply lookup_delete_eq.
Qed.

(** X10.  [setLfoReversal] with the flag a parameter already has changes
    nothing.  With a new flag, on a parameter bound to one of the manager's
    two oscillators, the flag is stored and the old binding is taken down:
    none of its connections remains and nothing enters or leaves its
    rescale node.  If the name still resolves to an audio parameter the
    binding is rebuilt: the new entry has the same oscillator and the same
    range, it is of the reversed shape exactly when the flag is set, its
    connections, from the oscillator to the new rescale node and from there
    to the parameter, are in the graph, and bindings and graph agree.  If
    the name no longer resolves (the effect of a slot parameter is gone)
    the rebuild is refused and the parameter is left unbound. *)
Theorem setLfoReversal_rebuilds (name : string) (reversed : bool)
    (m : Manager) (t : Track) (c : Connection) (l1 l2 : nat) :
  consistent t ->
  lfoConnections t !! name = Some c ->
  lfo m = Some l1 -> lfo2 m = Some l2 ->
  source c = l1 \/ source c = l2 ->
  let t' := setLfoReversal name reversed m t in
  (default false (lfoReverseState t !! name) = reversed -> t' = t) /\
  (default false (lfoReverseState t !! name) <> reversed ->
   lfoReverseState t' !! name = Some reversed /\
   (forall e, e ∈ conn_edges c -> e ∉ edges t') /\
   (forall x : Node,
      ((x, Made (scale c)) ∉ edges t') /\ ((Made (scale c), x) ∉ edges t')) /\
   (forall p, getAudioParamByName name t = Some (TParam p) ->
      exists c',
        lfoConnections t' !! name = Some c' /\
        source c' = source c /\
        scaleMin c' = scaleMin c /\ scaleMax c' = scaleMax c /\ param c' = p /\
        (is_Some (reversal c') <-> reversed = true) /\
        (LfoNode (source c), Made (scale c')) ∈ edges t' /\
        (reversal c' = None -> (Made (scale c'), ParamNode p) ∈ edges t') /\
        (forall negate addMax, reversal c' = Some (negate, addMax) ->
           (Made (scale c'), Made negate) ∈ edges t' /\
           (Made negate, Made addMax) ∈ edges t' /\
           (Made addMax, ParamNode p) ∈ edges t') /\
        consistent t') /\
   (getAudioParamByName name t = None ->
      lfoConnections t' !! name = None /\ consistent t')).
Proof.
  intros Hc Hb Hl1 Hl2 Hsrc t'. unfold t', setLfoReversal. split.
  - intros ->. now rewrite Bool.eqb_reflx.
  - intros Hne.
    assert (Hch : Bool.eqb (default false (lfoReverseState t !! name)) reversed = false).
    { apply Bool.eqb_false_iff. exact Hne. }
    rewrite Hch. cbn [negb lfoConnections]. rewrite Hb.
    set (t1 := mkTrack (lfoConnections t) (<[name := reversed]> (lfoReverseState t))
                       (edges t) (disposed t) (next t) (slotParam t)
                       (playbackRate t)).
    assert (Hc1 : consistent t1) by (apply (consistent_ext t); [reflexivity .. | exact Hc]).
    assert (Hb1 : lfoConnections t1 !! name = Some c) by exact Hb.
    set (idx := if decide (Some (source c) = getLfo (JNum 2) m)
                then JNum 2 else JNum 1).
    assert (Hidx : getLfo (default_index idx) m = Some (source c)).
    { unfold idx. change (getLfo (JNum 2) m) with (lfo2 m). rewrite Hl2.
      destruct (decide (Some (source c) = Some l2)) as [E|E].
      - cbn. rewrite Hl2. congruence.
      - cbn. rewrite Hl1.
        destruct Hsrc as [H|H]; [now rewrite H | exfalso; apply E; now rewrite H]. }
    assert (Hsame : connectLFO name (scaleMin c) (scaleMax c) idx m
                               (disconnectLFO name t1)
                    = connectLFO name (scaleMin c) (scaleMax c) idx m t1)
      by (unfold connectLFO; now rewrite connectLFO_run_after_disconnect).
    rewrite Hsame.
    set (t2 := connectLFO name (scaleMin c) (scaleMax c) idx m t1).
    destruct (connectLFO_tears_down name (scaleMin c) (scaleMax c) idx m t1 c Hc1 Hb1)
      as (Hfar & Hgone & _).
    fold t2 in Hfar, Hgone.
    destruct (connectLFO_frame name (scaleMin c) (scaleMax c) idx m t1)
      as (_ & _ & _ & _ & Hrev & _).
    fold t2 in Hrev.
    assert (Hpar : getAudioParamByName name t1 = getAudioParamByName name t)
      by (now apply getAudioParamByName_ext).
    split; [rewrite Hrev; apply lookup_insert_eq|].
    split; [exact Hgone|].
    split.
    { intros x. destruct (made_in_edge_nodes x (scale c)) as [M1 M2].
      assert (Hscale : scale c ∈ conn_nodes c) by (unfold conn_nodes; left).
      split; intros Hin;
        [exact (Hfar _ _ Hin M1 Hscale) | exact (Hfar _ _ Hin M2 Hscale)]. }
    split.
    + intros p Hp. rewrite <- Hpar in Hp.
      destruct (connectLFO_resolved name (scaleMin c) (scaleMax c) idx m t1 p
                  (source c) Hc1 Hp Hidx)
        as (c' & Hb' & Hs' & Hp' & Hmin & Hmax & _ & _ & _ & Hc').
      fold t2 in Hb', Hc'.
      destruct (bound_wiring t2 name c' Hc' Hb') as (W1 & W2 & W3).
      rewrite Hs', Hp' in *.
      exists c'. split; [exact Hb'|]. split; [exact Hs'|].
      split; [exact Hmin|]. split; [exact Hmax|]. split; [exact Hp'|].
      split.
      { unfold t2, connectLFO in Hb'.
        rewrite (connectLFO_run_bind name (scaleMin c) (scaleMax c) idx m t1 p
                   (source c) Hp Hidx) in Hb'.
        unfold bind in Hb'. cbn [fst lfoConnections] in Hb'.
        rewrite lookup_insert_eq in Hb'. injection Hb' as <-.
        unfold t1. cbn [lfoReverseState]. rewrite lookup_insert_eq. cbn.
        destruct reversed; cbn; split;
          try (intros [x Hx]; discriminate Hx); try discriminate; eauto. }
      split; [exact W1|]. split; [exact W2|]. split; [exact W3 | exact Hc'].
    + intros Hp. rewrite <- Hpar in Hp.
      unfold t2.
      rewrite (connectLFO_unresolved name (scaleMin c) (scaleMax c) idx m t1)
        by (now left).
      split; [|now apply disconnectLFO_consistent].
      destruct (disconnectLFO_keeps name t1) as (-> & _). apply lookup_delete_eq.
Qed.

Lemma setLfoReversal_rebuilds_witness :
  let t := connectLFO "pan" (-1) 1 (JNum 2) initialized new_track in
  exists c', lfoConnections (setLfoReversal "pan" true initialized t) !! "pan"
             = Some c' /\ source c' = 2 /\ is_Some (reversal c').
Proof.
  intros t.
  destruct (lfoConnections t !! "pan") as [c|] eqn:Hb;
    [|vm_compute in Hb; discriminate Hb].
  assert (Hs : source c = 2) by (vm_compute in Hb; injection Hb as <-; reflexivity).
  destruct (setLfoReversal_rebuilds "pan" true initialized t c 1 2) as [_ H];
    [apply connectLFO_consistent; [apply new_track_consistent | reflexivity]
    | exact Hb | reflexivity | reflexivity | now right |].
  destruct H as (_ & _ & _ & H & _); [discriminate|].
  destruct (H Pan eq_refl) as (c' & Hb' & Hs' & _ & _ & _ & Hr & _).
  exists c'. split; [exact Hb'|]. split; [congruence|]. now apply Hr.
Defined.

End LfoMore.

(** ** The effect chain *)

Module EffectChainFacts.
Import EffectChain.

Lemma links_cons2 (a b : Node) (rest : list Node) :
  links (a :: b :: rest) = (a, b) :: links (b :: rest).
Proof. reflexivity. Qed.

Lemma filter_nothing {A : Type} (P : A -> Prop) `{forall x, Decision (P x)}
    (l : list A) :
  (forall x, x ∈ l -> ~ P x) -> filter P l = [].
Proof.
  induction l as [|x l IH]; intros Hno; [reflexivity|].
  rewrite filter_cons_False by (apply Hno; left).
  apply IH. intros y Hy. apply Hno. now right.
Qed.

Lemma last_default {A : Type} (l : list A) (x a b : A) :
  List.last (x :: l) a = List.last (x :: l) b.
Proof.
  revert x. induction l as [|y l IH]; intros x; [reflexivity|].
  change (List.last (y :: l) a = List.last (y :: l) b). apply IH.
Qed.

(** The last connection of a path that ends in [x]. *)
Lemma links_last (path : list Node) :
  forall a x,
    links (a :: path ++ [x]) = links (a :: path) ++ [(List.last path a, x)].
Proof.
  induction path as [|b path IH]; intros a x; [reflexivity|].
  cbn [app]. rewrite !links_cons2, IH. cbn [app]. do 3 f_equal.
  destruct path as [|c path]; [reflexivity|].
  change (List.last (b :: c :: path) a) with (List.last (c :: path) a).
  f_equal. apply last_default.
Qed.

(** The loop over the slots, told as a path. *)
Lemma chain_fold (slots : list (option Effect)) :
  forall (last : Node) (es : list Edge),
    exists last',
      fold_left chain_step slots (last, es)
      = (last', es ++ links (last :: (Fx <$> omap in_chain slots))) /\
      forall tail, links (last :: (Fx <$> omap in_chain slots) ++ tail)
                   = links (last :: (Fx <$> omap in_chain slots)) ++ links (last' :: tail).
Proof.
  induction slots as [|slot slots IH]; intros last es.
  - exists last. cbn. rewrite app_nil_r. split; [reflexivity|]. intros tail.
    reflexivity.
  - cbn [fold_left omap list_omap].
    assert (Hstep : (in_chain slot = None /\ chain_step (last, es) slot = (last, es)) \/
                    (exists i, in_chain slot = Some i /\
                               chain_step (last, es) slot = (Fx i, es ++ [(last, Fx i)]))).
    { unfold chain_step, in_chain, try_connect.
      destruct slot as [e|]; [|now left].
      destruct (enabled e); [|now left].
      destruct (faulty e); [now left|]. right. now exists (eid e). }
    destruct Hstep as [[Hn ->]|(i & Hi & ->)]; rewrite ?Hn, ?Hi.
    + apply IH.
    + destruct (IH (Fx i) (es ++ [(last, Fx i)])) as (last' & Hf & Hl).
      exists last'. split.
      * rewrite Hf. cbn [fmap list_fmap]. rewrite links_cons2, <- app_assoc.
        reflexivity.
      * intros tail. cbn [fmap list_fmap app]. rewrite !links_cons2, Hl.
        reflexivity.
Qed.

(** The connections after a rebuild. *)
Lemma reconnectEffectChain_edges (t : Track) :
  edges (reconnectEffectChain t)
  = filter (fun e : Edge => fst e ≠ ChainInput) (edges t) ++ links (route t).
Proof.
  unfold reconnectEffectChain. cbn [edges].
  set (kept := filter (fun e : Edge => fst e ≠ ChainInput) (edges t)).
  destruct (chain_fold (effects t) ChainInput kept) as (last1 & Hf & Hl).
  rewrite Hf.
  assert (Haud : exists last2,
    (match auditioningEffect t with
     | Some e => try_connect (last1, kept ++ links (ChainInput :: (Fx <$> omap in_chain (effects t)))) e
     | None => (last1, kept ++ links (ChainInput :: (Fx <$> omap in_chain (effects t))))
     end) = (last2, kept ++ links (ChainInput :: (Fx <$> active t))) /\
    forall tail, links (ChainInput :: (Fx <$> active t) ++ tail)
                 = links (ChainInput :: (Fx <$> active t)) ++ links (last2 :: tail)).
  { unfold active, try_connect.
    destruct (auditioningEffect t) as [e|]; [destruct (faulty e)|];
      cbn [fst snd]; rewrite ?app_nil_r.
    - exists last1. split; [reflexivity | exact Hl].
    - exists (Fx (eid e)). rewrite fmap_app. cbn [fmap list_fmap].
      split.
      + rewrite (Hl [Fx (eid e)]). cbn [links]. now rewrite <- app_assoc.
      + intros tail. rewrite <- app_assoc. rewrite (Hl ([Fx (eid e)] ++ tail)).
        rewrite (Hl [Fx (eid e)]). cbn [app]. rewrite links_cons2.
        cbn [links]. now rewrite <- app_assoc.
    - exists last1. split; [reflexivity | exact Hl]. }
  destruct Haud as (last2 & -> & Hl2). cbn [fst snd].
  unfold route. rewrite (Hl2 [ChainOutput]). cbn [links].
  now rewrite <- app_assoc.
Qed.

(** X11.  [reconnectEffectChain] drops the connections that leave the chain
    input, keeps every other connection, and then connects one path: from
    the chain input through the enabled slots that accept a connection, in
    slot order, then through the audition effect, to the chain output.  The
    chain input ends up with exactly one outgoing connection, so the chain
    is never left open, whatever the slots hold. *)
Theorem reconnect_builds_one_path (t : Track) :
  let t' := reconnectEffectChain t in
  effects t' = effects t /\ auditioningEffect t' = auditioningEffect t /\
  edges t' = filter (fun e : Edge => fst e ≠ ChainInput) (edges t) ++ links (route t) /\
  (exists first, filter (fun e : Edge => fst e = ChainInput) (edges t')
                 = [(ChainInput, first)] /\
                 head ((Fx <$> active t) ++ [ChainOutput]) = Some first) /\
  (List.last (Fx <$> active t) ChainInput, ChainOutput) ∈ edges t'.
Proof.
  intros t'. unfold t'.
  split; [reflexivity|]. split; [reflexivity|].
  rewrite reconnectEffectChain_edges.
  set (kept := filter (fun e : Edge => fst e ≠ ChainInput) (edges t)).
  split; [reflexivity|].
  split.
  - assert (Hkept : filter (fun e : Edge => fst e = ChainInput) kept = []).
    { apply filter_nothing. intros e Hin He.
      unfold kept in Hin. apply list_elem_of_filter in Hin as [Hne _].
      contradiction. }
    rewrite filter_app, Hkept. cbn [app].
    assert (Hfx : forall path : list Node,
              Forall (fun n => n ≠ ChainInput) path ->
              filter (fun e : Edge => fst e = ChainInput) (links path) = []).
    { induction path as [|a path IH]; intros Hall; [reflexivity|].
      destruct path as [|b path]; [reflexivity|].
      rewrite links_cons2. apply Forall_cons in Hall as [Ha Hall].
      rewrite filter_cons_False by exact Ha. now apply IH. }
    unfold route.
    destruct ((Fx <$> active t) ++ [ChainOutput]) as [|first rest] eqn:E.
    + destruct (Fx <$> active t); discriminate E.
    + exists first. split; [|reflexivity].
      rewrite links_cons2, filter_cons_True by reflexivity.
      f_equal. apply Hfx. rewrite <- E.
      apply Forall_app. split.
      * apply Forall_fmap, Forall_forall. intros x _. discriminate.
      * apply Forall_singleton. discriminate.
  - apply elem_of_app. right. unfold route.
    rewrite links_last. apply elem_of_app. right.
    apply list_elem_of_singleton. reflexivity.
Qed.

(** *** Slots as a JavaScript array *)

Lemma js_get_set_eq {A : Type} (l : list (option A)) (i : nat) (v : option A) :
  js_get (js_set i v l) i = v.
Proof.
  unfold js_get, js_set. case_decide as Hi.
  - now rewrite list_lookup_insert_eq.
  - rewrite lookup_app_r by lia.
    replace (i - length l) with (length (replicate (i - length l) (@None A)))
      at 1 by apply length_replicate.
    now rewrite list_lookup_middle.
Qed.

Lemma js_get_set_ne {A : Type} (l : list (option A)) (i j : nat) (v : option A) :
  i <> j -> js_get (js_set i v l) j = js_get l j.
Proof.
  intros Hne. unfold js_get, js_set. case_decide as Hi.
  - now rewrite list_lookup_insert_ne.
  - destruct (decide (j < length l)) as [Hj|Hj].
    + now rewrite lookup_app_l.
    + rewrite lookup_app_r by lia.
      rewrite (lookup_ge_None_2 l j) by lia. cbn.
      destruct (decide (j - length l < i - length l)) as [Hk|Hk].
      * rewrite lookup_app_l by (rewrite length_replicate; lia).
        rewrite lookup_replicate_2 by lia. reflexivity.
      * rewrite lookup_app_r by (rewrite length_replicate; lia).
        rewrite length_replicate.
        destruct (j - length l - (i - length l)) as [|k] eqn:E; [lia|].
        reflexivity.
Qed.

Lemma length_js_set {A : Type} (l : list (option A)) (i : nat) (v : option A) :
  length (js_set i v l) = Nat.max (length l) (S i).
Proof.
  unfold js_set. case_decide as Hi.
  - rewrite length_insert. lia.
  - rewrite !length_app, length_replicate. cbn. lia.
Qed.

Lemma js_set_in_range {A : Type} (l : list (option A)) (i : nat) (v : option A) :
  i < length l -> js_set i v l = <[i := v]> l.
Proof. intros Hi. unfold js_set. now rewrite decide_True. Qed.

Lemma js_get_lookup {A : Type} (l : list (option A)) (i : nat) :
  i < length l -> l !! i = Some (js_get l i).
Proof.
  intros Hi. unfold js_get.
  destruct (l !! i) as [s|] eqn:E; [reflexivity|].
  apply lookup_ge_None in E. lia.
Qed.

(** Slots that read alike are the same array. *)
Lemma js_array_eq {A : Type} (l k : list (option A)) :
  length l = length k -> (forall i, js_get l i = js_get k i) -> l = k.
Proof.
  intros Hlen Hget. apply list_eq. intros i.
  destruct (decide (i < length l)) as [Hi|Hi].
  - rewrite (js_get_lookup l i Hi), (js_get_lookup k i) by lia. now rewrite Hget.
  - rewrite !lookup_ge_None_2 by lia. reflexivity.
Qed.

(** X12.  [swapEffects] on a track of seven slots: with a slot index of 7
    or more the call changes nothing at all; otherwise the two slots trade
    their contents, every other slot and the audition effect stay, the array
    keeps its seven slots, and a second swap of the same two slots gives the
    array back. *)
Theorem swapEffects_trades_slots (a b : nat) (t : Track) :
  length (effects t) = 7 ->
  (7 <= a \/ 7 <= b -> swapEffects a b t = t) /\
  (a < 7 -> b < 7 ->
   let t' := swapEffects a b t in
   length (effects t') = 7 /\
   getEffectState a t' = getEffectState b t /\
   getEffectState b t' = getEffectState a t /\
   (forall i, i <> a -> i <> b -> getEffectState i t' = getEffectState i t) /\
   auditioningEffect t' = auditioningEffect t /\
   effects (swapEffects a b t') = effects t).
Proof.
  intros Hlen. split.
  - intros Hout. unfold swapEffects.
    destruct (Nat.leb_spec 7 a), (Nat.leb_spec 7 b); try reflexivity. lia.
  - intros Ha Hb t'.
    assert (Hswap : forall u, length (effects u) = 7 ->
              effects (swapEffects a b u)
              = js_set b (js_get (effects u) a)
                       (js_set a (js_get (effects u) b) (effects u)) /\
              auditioningEffect (swapEffects a b u) = auditioningEffect u).
    { intros u _. unfold swapEffects.
      destruct (Nat.leb_spec 7 a), (Nat.leb_spec 7 b); try lia.
      cbn [orb]. split; reflexivity. }
    assert (Hread : forall u, length (effects u) = 7 ->
              length (effects (swapEffects a b u)) = 7 /\
              forall i, getEffectState i (swapEffects a b u)
                        = if decide (i = b) then getEffectState a u
                          else if decide (i = a) then getEffectState b u
                          else getEffectState i u).
    { intros u Hu. unfold getEffectState. destruct (Hswap u Hu) as [-> _]. split.
      - rewrite !length_js_set. lia.
      - intros i.
        destruct (decide (i = b)) as [->|Hib]; [apply js_get_set_eq|].
        rewrite js_get_set_ne by congruence.
        destruct (decide (i = a)) as [->|Hia]; [apply js_get_set_eq|].
        now rewrite js_get_set_ne by congruence. }
    destruct (Hread t Hlen) as [Hlen' Hget]. fold t' in Hlen', Hget.
    split; [exact Hlen'|].
    split.
    { rewrite Hget. repeat case_decide; subst; first [reflexivity | congruence]. }
    split.
    { rewrite Hget. repeat case_decide; subst; first [reflexivity | congruence]. }
    split.
    { intros i Hia Hib. rewrite Hget. repeat case_decide; congruence. }
    split; [exact (proj2 (Hswap t Hlen))|].
    destruct (Hread t' Hlen') as [Hlen'' Hget'].
    apply js_array_eq; [congruence|].
    intros i. change (getEffectState i (swapEffects a b t') = getEffectState i t).
    rewrite Hget', !Hget.
    repeat case_decide; subst; first [reflexivity | congruence].
Qed.

Lemma swapEffects_trades_slots_witness :
  let e := mkEffect 1 "Delay" true false in
  let t := fst (setEffect 2 (Some e) new_track) in
  getEffectState 5 (swapEffects 2 5 t) = Some e /\
  swapEffects 2 9 t = t.
Proof.
  intros e t.
  destruct (swapEffects_trades_slots 2 5 t eq_refl) as [_ H].
  destruct (H ltac:(lia) ltac:(lia)) as (_ & _ & H5 & _).
  split; [rewrite H5; reflexivity|].
  destruct (swapEffects_trades_slots 2 9 t eq_refl) as [H9 _].
  apply H9. right. lia.
Defined.

(** *** Connections that outlive a rebuild *)

Lemma reconnect_keeps (t : Track) (e : Edge) :
  e ∈ edges t -> fst e ≠ ChainInput -> e ∈ edges (reconnectEffectChain t).
Proof.
  intros Hin Hne. rewrite reconnectEffectChain_edges.
  apply elem_of_app. left. apply list_elem_of_filter. now split.
Qed.

Lemma swapEffects_in_range (a b : nat) (t : Track) :
  a < 7 -> b < 7 ->
  swapEffects a b t
  = reconnectEffectChain
      (mkTrack (js_set b (js_get (effects t) a)
                  (js_set a (js_get (effects t) b) (effects t)))
               (auditioningEffect t) (edges t) (disposed t)).
Proof.
  intros Ha Hb. unfold swapEffects.
  destruct (Nat.leb_spec 7 a), (Nat.leb_spec 7 b); try lia. reflexivity.
Qed.

Lemma links_mid (p q : list Node) (x y : Node) :
  (x, y) ∈ links (p ++ x :: y :: q).
Proof.
  induction p as [|a p IH].
  - cbn [app]. rewrite links_cons2. left.
  - destruct p as [|b p].
    + cbn [app] in *. rewrite links_cons2. now right.
    + cbn [app] in *. rewrite links_cons2. now right.
Qed.

(** Two neighbours of the chain are connected by the rebuild. *)
Lemma route_neighbours (t : Track) (pre mid post : list (option Effect))
    (A B : Effect) :
  effects t = pre ++ Some A :: mid ++ Some B :: post ->
  in_chain (Some A) = Some (eid A) -> in_chain (Some B) = Some (eid B) ->
  omap in_chain mid = [] ->
  (Fx (eid A), Fx (eid B)) ∈ links (route t).
Proof.
  intros He HA HB Hmid. unfold route, active. rewrite He.
  rewrite omap_app. cbn [omap list_omap]. rewrite HA.
  rewrite omap_app, Hmid. cbn [omap list_omap app]. rewrite HB.
  rewrite !fmap_app. cbn [fmap list_fmap].
  rewrite <- !app_assoc. cbn [app].
  rewrite app_comm_cons. apply links_mid.
Qed.

(** X13.  No rebuild of the chain disconnects an effect: a connection
    that does not leave the chain input is still there after
    [reconnectEffectChain], and after [swapEffects], whatever the slots. *)
Theorem rebuild_keeps_effect_connections (t : Track) (e : Edge) (a b : nat) :
  e ∈ edges t -> fst e ≠ ChainInput ->
  e ∈ edges (reconnectEffectChain t) /\ e ∈ edges (swapEffects a b t).
Proof.
  intros Hin Hne. split; [now apply reconnect_keeps|].
  unfold swapEffects. destruct ((7 <=? a) || (7 <=? b)); [exact Hin|].
  now apply reconnect_keeps.
Qed.

Lemma rebuild_keeps_effect_connections_witness :
  let e := mkEffect 1 "Delay" true false in
  let t := fst (setEffect 0 (Some e) new_track) in
  (Fx 1, ChainOutput) ∈ edges (reconnectEffectChain t) /\
  (Fx 1, ChainOutput) ∈ edges (swapEffects 0 3 t).
Proof.
  intros e t.
  apply (rebuild_keeps_effect_connections t (Fx 1, ChainOutput) 0 3).
  - vm_compute. right. left.
  - discriminate.
Defined.

(** X14.  Swapping two effects that follow each other in the chain (both
    enabled and connectable, nothing active between them) connects the
    second to the first and leaves the old connection from the first to the
    second in place: the graph then holds both directions. *)
Theorem swap_connects_both_directions (pre mid post : list (option Effect))
    (A B : Effect) (t : Track) :
  effects t = pre ++ Some A :: mid ++ Some B :: post ->
  length (effects t) = 7 ->
  enabled A = true -> faulty A = false ->
  enabled B = true -> faulty B = false ->
  omap in_chain mid = [] ->
  let t1 := reconnectEffectChain t in
  let t2 := swapEffects (length pre) (length pre + S (length mid)) t1 in
  (Fx (eid A), Fx (eid B)) ∈ edges t1 /\
  (Fx (eid A), Fx (eid B)) ∈ edges t2 /\
  (Fx (eid B), Fx (eid A)) ∈ edges t2.
Proof.
  intros He Hlen EA FA EB FB Hmid t1 t2.
  assert (HA : in_chain (Some A) = Some (eid A)).
  { cbn. now rewrite EA, FA. }
  assert (HB : in_chain (Some B) = Some (eid B)).
  { cbn. now rewrite EB, FB. }
  assert (Hl : length pre + S (length mid) + S (length post) = 7).
  { rewrite He in Hlen. rewrite !length_app in Hlen. cbn [length] in Hlen.
    rewrite length_app in Hlen. cbn [length] in Hlen. lia. }
  assert (H1 : (Fx (eid A), Fx (eid B)) ∈ edges t1).
  { unfold t1. rewrite reconnectEffectChain_edges. apply elem_of_app. right.
    now apply (route_neighbours t pre mid post A B). }
  split; [exact H1|].
  unfold t2. rewrite swapEffects_in_range by lia.
  split.
  - apply reconnect_keeps; [exact H1 | discriminate].
  - rewrite reconnectEffectChain_edges. apply elem_of_app. right.
    apply (route_neighbours _ pre mid post B A); [|exact HB|exact HA|exact Hmid].
    cbn [effects]. change (effects t1) with (effects t). rewrite He.
    assert (Ga : js_get (pre ++ Some A :: mid ++ Some B :: post) (length pre)
                 = Some A).
    { unfold js_get. now rewrite list_lookup_middle. }
    assert (Gb : js_get (pre ++ Some A :: mid ++ Some B :: post)
                   (length pre + S (length mid)) = Some B).
    { unfold js_get. rewrite lookup_app_r by lia.
      replace (length pre + S (length mid) - length pre) with (S (length mid))
        by lia.
      change ((Some A :: mid ++ Some B :: post) !! S (length mid))
        with ((mid ++ Some B :: post) !! length mid).
      now rewrite list_lookup_middle. }
    rewrite Ga, Gb.
    rewrite (js_set_in_range _ (length pre))
      by (repeat first [rewrite length_app | progress cbn [length]]; lia).
    rewrite insert_app_r_alt by lia. rewrite Nat.sub_diag. cbn [insert list_insert].
    rewrite js_set_in_range
      by (repeat first [rewrite length_app | progress cbn [length]]; lia).
    rewrite insert_app_r_alt by lia.
    replace (length pre + S (length mid) - length pre) with (S (length mid))
      by lia.
    change (<[S (length mid) := Some A]> (Some B :: mid ++ Some B :: post))
      with (Some B :: <[length mid := Some A]> (mid ++ Some B :: post)).
    rewrite insert_app_r_alt by lia.
    rewrite Nat.sub_diag. reflexivity.
Qed.

Lemma swap_connects_both_directions_witness :
  let A := mkEffect 1 "Delay" true false in
  let B := mkEffect 2 "Reverb" true false in
  let t := mkTrack (Some A :: None :: Some B :: replicate 4 None) None [] [] in
  let t2 := swapEffects 0 2 (reconnectEffectChain t) in
  (Fx 1, Fx 2) ∈ edges t2 /\ (Fx 2, Fx 1) ∈ edges t2.
Proof.
  intros A B t t2.
  destruct (swap_connects_both_directions [] [None] (replicate 4 None) A B t
              eq_refl eq_refl eq_refl eq_refl eq_refl eq_refl eq_refl)
    as (_ & H1 & H2).
  split; [exact H1 | exact H2].
Defined.

(** X15.  [setEffect] with an effect the factory delivered, at any slot
    index: the slot then reads as that effect, every other slot reads as
    before, the effect a slot held is disposed of, and an enabled effect
    that accepts connections is on the chain.  The index is not checked: a
    slot past the end makes the array longer. *)
Theorem setEffect_installs (slot : nat) (e : Effect) (t : Track) :
  let t' := fst (setEffect slot (Some e) t) in
  snd (setEffect slot (Some e) t) = Some e /\
  getEffectState slot t' = Some e /\
  (forall i, i <> slot -> getEffectState i t' = getEffectState i t) /\
  length (effects t') = Nat.max (length (effects t)) (S slot) /\
  (forall old, getEffectState slot t = Some old -> eid old ∈ disposed t') /\
  (enabled e = true -> faulty e = false ->
   eid e ∈ active t' /\
   exists before, (before, Fx (eid e)) ∈ edges t').
Proof.
  intros t'. unfold t', setEffect. cbn [fst snd].
  split; [reflexivity|].
  unfold getEffectState. cbn [effects disposed reconnectEffectChain].
  split; [apply js_get_set_eq|].
  split; [intros i Hi; apply js_get_set_ne; congruence|].
  split; [apply length_js_set|].
  split.
  { intros old Hold. unfold dispose_slot. rewrite Hold. left. }
  intros En Fa.
  set (u := mkTrack (js_set slot (Some e) (effects t)) (auditioningEffect t)
                    (edges t) (dispose_slot slot t)).
  assert (Hact : eid e ∈ active u).
  { unfold active. apply elem_of_app. left. apply list_elem_of_omap.
    exists (Some e). split.
    - cbn [u effects].
      assert (G := js_get_set_eq (effects t) slot (Some e)).
      unfold js_get in G.
      destruct (js_set slot (Some e) (effects t) !! slot) as [s|] eqn:E;
        [|discriminate G].
      cbn in G. subst s. exact (list_elem_of_lookup_2 _ _ _ E).
    - cbn. now rewrite En, Fa. }
  split; [exact Hact|].
  change (exists before,
            (before, Fx (eid e)) ∈ edges (reconnectEffectChain u)).
  rewrite reconnectEffectChain_edges. unfold route.
  apply list_elem_of_split in Hact as (l1 & l2 & ->).
  rewrite fmap_app. cbn [fmap list_fmap]. rewrite <- app_assoc. cbn [app].
  exists (List.last (ChainInput :: (Fx <$> l1)) ChainInput).
  apply elem_of_app. right.
  assert (Hpath : forall (p : list Node) (a x : Node) (q : list Node),
            (List.last (a :: p) a, x) ∈ links (a :: p ++ x :: q)).
  { induction p as [|b p IH]; intros a x q.
    - cbn [app]. rewrite links_cons2. left.
    - cbn [app]. rewrite links_cons2. right.
      change (List.last (a :: b :: p) a) with (List.last (b :: p) a).
      rewrite (last_default p b a b). apply IH. }
  apply Hpath.
Qed.

(** X16.  [setEffect] with a name the factory cannot make, because the
    configuration table is missing, no category lists the name, or there is
    no registry of custom classes, leaves the track as it is: the effect
    in the slot is not disposed of and the chain is not rebuilt. *)
Theorem setEffect_unknown_name_keeps_track
    (configs : option (list (gmap string EffectConfig)))
    (classes : option (gmap string (bool * bool))) (fresh : nat)
    (effectName : string) (slot : nat) (t : Track) :
  (configs = None \/
   (exists cs, configs = Some cs /\ Forall (fun c => c !! effectName = None) cs) \/
   classes = None) ->
  setEffect slot (createEffect configs classes fresh effectName) t = (t, None).
Proof.
  intros H.
  assert (Hnone : createEffect configs classes fresh effectName = None).
  { destruct H as [->|[(cs & -> & Hall)| ->]].
    - reflexivity.
    - unfold createEffect.
      assert (Hc : getEffectConfig cs effectName = None).
      { induction Hall as [|c cs Hc _ IH]; [reflexivity|].
        cbn [getEffectConfig]. now rewrite Hc. }
      now rewrite Hc.
    - unfold createEffect. destruct configs as [cs|]; [|reflexivity].
      destruct (getEffectConfig cs effectName) as [c|]; [|reflexivity].
      destruct (isCustom c); reflexivity. }
  now rewrite Hnone.
Qed.

Lemma setEffect_unknown_name_keeps_track_witness :
  let cs := [ {[ "Delay" := mkConfig (Some "DelayEffect") ]} ] in
  let t := fst (setEffect 0 (Some (mkEffect 1 "Delay" true false)) new_track) in
  setEffect 0 (createEffect (Some cs) (Some ∅) 2 "Flanger") t = (t, None).
Proof.
  intros cs t.
  apply setEffect_unknown_name_keeps_track.
  right. left. exists cs. split; [reflexivity|].
  repeat constructor.
Defined.

End EffectChainFacts.

(** ** More of the loop transport *)

Module LoopMore.
Import Loop LoopOps JsFacts.
Local Open Scope Q_scope.

(** A dividend inside [[0, b)] is its own remainder. *)
Lemma rem_small (a b : Q) : 0 <= a -> a < b -> Js.rem a b == a.
Proof.
  intros Ha Hb. assert (Hbpos : 0 < b) by lra.
  unfold Js.rem. rewrite (trunc_nonneg a b Hbpos Ha).
  assert (Hf : Qfloor (a / b) = 0%Z).
  { pose proof (floor_scaled_le a b Hbpos) as Hl.
    pose proof (floor_scaled_gt a b Hbpos) as Hu.
    set (z := Qfloor (a / b)) in *.
    assert (H1 : (z < 1)%Z).
    { rewrite Zlt_Qlt. change (inject_Z 1) with 1. nra. }
    assert (H2 : (0 < z + 1)%Z).
    { rewrite Zlt_Qlt. change (inject_Z 0) with 0. nra. }
    lia. }
  rewrite Hf. change (inject_Z 0) with 0. ring.
Qed.

Lemma min_le_l (a b : Q) : Js.min a b <= a.
Proof.
  unfold Js.min. destruct (Qle_bool a b) eqn:E; [lra|].
  destruct (Qlt_le_dec b a) as [H|H]; [lra|].
  apply Qle_bool_iff in H. congruence.
Qed.

Lemma max_ge_l (a b : Q) : a <= Js.max a b.
Proof.
  unfold Js.max. destruct (Qle_bool a b) eqn:E; [|lra].
  now apply Qle_bool_iff in E.
Qed.

Lemma min_of_le (a b : Q) : b <= a -> Js.min a b == b.
Proof.
  intros H. unfold Js.min. destruct (Qle_bool a b) eqn:E; [|reflexivity].
  apply Qle_bool_iff in E. lra.
Qed.

Lemma max_of_le (a b : Q) : a <= b -> Js.max a b == b.
Proof.
  intros H. unfold Js.max. destruct (Qle_bool a b) eqn:E; [reflexivity|].
  destruct (Qlt_le_dec b a) as [H'|H']; [lra|].
  apply Qle_bool_iff in H. congruence.
Qed.

(** The position of a running player that does not wrap. *)
Lemma unlooped_position (now : Q) (t : TrackAudio) :
  isRecording t = false -> started (player t) = true -> wraps t = false ->
  getCurrentPosition now t
  = if Qeq_bool (duration (player t)) 0 then 0 else
    let elapsed := (now - playStartTime t) * rate_of (playbackRate (player t)) in
    if reverse (player t)
    then Js.max 0 (Js.opt_num_or (playStartOffset t) (duration (player t)) - elapsed)
    else Js.min (duration (player t)) (Js.opt_num_or (playStartOffset t) 0 + elapsed).
Proof.
  intros Hrec Hst Hw. unfold getCurrentPosition. rewrite Hrec, Hst.
  unfold wraps, region_start, region_end in Hw. cbn zeta. now rewrite Hw.
Qed.

(** X17.  A running player that does not wrap (looping off, or an empty
    loop region) never reads past the end of the buffer when it plays
    forward, and never before its start when it plays backward, whatever
    the start offset, the rate and the time elapsed. *)
Theorem unlooped_position_clamped (now : Q) (t : TrackAudio) :
  isRecording t = false -> started (player t) = true -> wraps t = false ->
  0 <= duration (player t) ->
  (reverse (player t) = false -> getCurrentPosition now t <= duration (player t)) /\
  (reverse (player t) = true -> 0 <= getCurrentPosition now t).
Proof.
  intros Hrec Hst Hw Hd. rewrite (unlooped_position now t Hrec Hst Hw).
  cbn zeta. destruct (Qeq_bool (duration (player t)) 0) eqn:E.
  - split; intros _; lra.
  - split; intros ->; [apply min_le_l | apply max_ge_l].
Qed.

Lemma unlooped_position_clamped_witness :
  let t := startPlayback (Some 1) 10
             (setLoopEnd (Some 2) (setLoopStart (Some 3) (loadData 4 new_track))) in
  getCurrentPosition 100 t <= 4.
Proof.
  intros t.
  destruct (unlooped_position_clamped 100 t eq_refl eq_refl eq_refl) as [H _].
  - cbn. lra.
  - exact (H eq_refl).
Defined.

(** The reading at the instant the start offset [o] was taken. *)
Lemma reading_at_start (now o : Q) (u : TrackAudio) :
  isRecording u = false -> started (player u) = true ->
  playStartTime u = now -> playStartOffset u = Some o ->
  ~ duration (player u) == 0 -> ~ o == 0 ->
  (wraps u = true -> region_start u <= o /\ o < region_end u) ->
  (wraps u = false ->
   if reverse (player u) then 0 <= o else o <= duration (player u)) ->
  getCurrentPosition now u == o.
Proof.
  intros Hrec Hst Htime Hoff Hdur Hnz Hin Hout.
  unfold getCurrentPosition. rewrite Hrec, Hst, Htime, Hoff. cbn zeta.
  destruct (Qeq_bool (duration (player u)) 0) eqn:Ed.
  { apply Qeq_bool_iff in Ed. contradiction. }
  set (r := rate_of (playbackRate (player u))).
  assert (Hel : (now - now) * r == 0) by ring.
  unfold Js.opt_num_or.
  assert (Hor : forall d, Js.num_or o d = o).
  { intros d. destruct (num_or_cases o d) as [[Hz _]|[_ ->]];
      [contradiction | reflexivity]. }
  rewrite !Hor.
  fold (region_start u) (region_end u).
  change (loop (player u) && Js.lt_bool 0 (region_end u - region_start u))
    with (wraps u).
  destruct (wraps u) eqn:Hw.
  - destruct (Hin eq_refl) as [Hlo Hhi].
    destruct (reverse (player u)).
    + assert (Hrem : Js.rem (o - region_start u - (now - now) * r)
                            (region_end u - region_start u)
                     == o - region_start u - (now - now) * r)
        by (apply rem_small; lra).
      destruct (Js.lt_bool _ 0) eqn:El.
      * apply lt_bool_iff in El. lra.
      * lra.
    + assert (Hrem : Js.rem (o - region_start u + (now - now) * r)
                            (region_end u - region_start u)
                     == o - region_start u + (now - now) * r)
        by (apply rem_small; lra).
      lra.
  - specialize (Hout eq_refl). destruct (reverse (player u)).
    + rewrite max_of_le by lra. lra.
    + rewrite min_of_le by lra. lra.
Qed.

Section PitchFacts.
Variable pow2 : Q -> Q.

Lemma setPitch_fields (value now : Q) (t : TrackAudio) :
  started (player t) = true ->
  let u := setPitch pow2 value now t in
  isRecording u = isRecording t /\ started (player u) = true /\
  playStartTime u = now /\
  playStartOffset u = Some (getCurrentPosition now t) /\
  duration (player u) = duration (player t) /\
  reverse (player u) = reverse (player t) /\
  wraps u = wraps t /\ region_start u = region_start t /\
  region_end u = region_end t.
Proof.
  intros Hst u. unfold u, setPitch, _syncHead. rewrite Hst.
  cbn. rewrite Hst. repeat split; reflexivity.
Qed.

(** X18.  [setPitch] leaves the playhead of a running player where it is:
    the position read at the instant of the call is the one read just
    before, whatever the new rate.  This holds when that position is not
    zero and, for a wrapping player, lies inside the loop region. *)
Theorem setPitch_keeps_position (value now : Q) (t : TrackAudio) :
  isRecording t = false -> started (player t) = true ->
  ~ getCurrentPosition now t == 0 ->
  (wraps t = true ->
   region_start t <= getCurrentPosition now t /\
   getCurrentPosition now t < region_end t) ->
  getCurrentPosition now (setPitch pow2 value now t) == getCurrentPosition now t.
Proof.
  intros Hrec Hst Hnz Hin.
  destruct (setPitch_fields value now t Hst)
    as (Frec & Fst & Ftime & Foff & Fdur & Frev & Fw & Fs & Fe).
  assert (Hdur : ~ duration (player t) == 0).
  { intros Hd. apply Hnz. unfold getCurrentPosition. rewrite Hrec, Hst.
    apply Qeq_bool_iff in Hd. cbn zeta. now rewrite Hd. }
  apply reading_at_start.
  - now rewrite Frec.
  - exact Fst.
  - exact Ftime.
  - exact Foff.
  - now rewrite Fdur.
  - exact Hnz.
  - rewrite Fw, Fs, Fe. exact Hin.
  - rewrite Fw, Frev, Fdur. intros Hw.
    rewrite (unlooped_position now t Hrec Hst Hw). cbn zeta.
    destruct (Qeq_bool (duration (player t)) 0) eqn:Ed.
    { apply Qeq_bool_iff in Ed. contradiction. }
    destruct (reverse (player t)); [apply max_ge_l | apply min_le_l].
Qed.

(** X19.  The edge the previous statement leaves out.  A player that runs
    backward without wrapping and has reached position zero reads, right
    after [setPitch], as the end of the buffer: the offset zero it has just
    stored is taken for a missing one. *)
Theorem setPitch_at_zero_jumps_to_end (value now : Q) (t : TrackAudio) :
  isRecording t = false -> started (player t) = true ->
  wraps t = false -> reverse (player t) = true ->
  0 < duration (player t) ->
  getCurrentPosition now t == 0 ->
  getCurrentPosition now (setPitch pow2 value now t) == duration (player t).
Proof.
  intros Hrec Hst Hw Hrev Hd Hz.
  destruct (setPitch_fields value now t Hst)
    as (Frec & Fst & Ftime & Foff & Fdur & Frev & Fw & Fs & Fe).
  rewrite unlooped_position; [| now rewrite Frec | exact Fst | now rewrite Fw].
  rewrite Fdur, Frev, Hrev, Foff, Ftime. cbn zeta.
  destruct (Qeq_bool (duration (player t)) 0) eqn:Ed.
  { apply Qeq_bool_iff in Ed. lra. }
  unfold Js.opt_num_or, Js.num_or.
  apply Qeq_bool_iff in Hz. rewrite Hz.
  rewrite max_of_le.
  - ring.
  - assert (H : (now - now) * rate_of (playbackRate (player (setPitch pow2 value now t))) == 0)
      by ring.
    lra.
Qed.

End PitchFacts.

Lemma setPitch_keeps_position_witness :
  let t := startPlayback (Some 1) 10 (loadData 4 new_track) in
  getCurrentPosition 11 (setPitch (fun _ => 2) 100 11 t) == 2.
Proof.
  intros t.
  rewrite (setPitch_keeps_position (fun _ => 2) 100 11 t eq_refl eq_refl).
  - reflexivity.
  - vm_compute. discriminate.
  - intros _. vm_compute. split; [discriminate | reflexivity].
Defined.

Lemma setPitch_at_zero_jumps_to_end_witness :
  let t0 := setLoopEnd (Some 2) (setLoopStart (Some 3) (loadData 4 new_track)) in
  let t := set_player (fun p => mkPlayer (loaded p) (started p) (duration p)
                         (playbackRate p) (loop p) true
                         (player_loopStart p) (player_loopEnd p))
                      (startPlayback (Some 1) 10 t0) in
  getCurrentPosition 12 t == 0 /\
  getCurrentPosition 12 (setPitch (fun _ => 1) 0 12 t) == 4.
Proof.
  intros t0 t.
  assert (Hz : getCurrentPosition 12 t == 0) by reflexivity.
  split; [exact Hz|].
  apply (setPitch_at_zero_jumps_to_end (fun _ => 1) 0 12 t eq_refl eq_refl eq_refl eq_refl).
  - reflexivity.
  - exact Hz.
Defined.



End LoopMore.

(** ** Cutting the loop region *)

Module SliceFacts.
Import Loop LoopOps Recorder Slice RecorderFacts.
Local Open Scope Z_scope.

Lemma subarray_inside (data : list Q) (b e : Z) :
  0 <= b -> b <= e -> e <= Z.of_nat (length data) ->
  subarray data b e = take (Z.to_nat (e - b)) (drop (Z.to_nat b) data) /\
  length (subarray data b e) = Z.to_nat (e - b).
Proof.
  intros Hb Hbe He. unfold subarray, rel_index.
  destruct (Z.ltb_spec b 0); [lia|]. destruct (Z.ltb_spec e 0); [lia|].
  rewrite !Z.min_l by lia. split; [reflexivity|].
  rewrite length_take, length_drop. lia.
Qed.

Lemma set_at_whole (src : list Q) :
  set_at (zeros (length src)) src 0 = src.
Proof.
  unfold set_at. cbn [take]. rewrite Nat.add_0_l.
  rewrite drop_ge by (rewrite length_zeros; lia).
  cbn [app]. apply app_nil_r.
Qed.

(** X21.  [sliceSelection] on a loaded track whose loop region is longer
    than 10 ms as the guard measures it and whose first and last sample
    index, the integer parts of the machine's products of loop start and
    loop end with the sample rate, lie in order inside the buffer: the call
    delivers a WAV, and its channels are the samples of the buffer from the
    first index up to the one before the last.  Nothing is padded and
    nothing is taken from outside the region. *)
Theorem sliceSelection_cuts_region (t : TrackAudio) (b : AudioBuffer) :
  loaded (player t) = true ->
  length (channelL b) = length (channelR b) ->
  (Dbl.literal (1 # 100) < sliceDuration t)%Q ->
  0 <= startSample t b ->
  startSample t b < endSample t b ->
  endSample t b <= frames b ->
  let s := startSample t b in
  let e := endSample t b in
  let region := fun ch : list Q => take (Z.to_nat (e - s)) (drop (Z.to_nat s) ch) in
  exists w,
    sliceSelection t (Some b) = Some w /\
    w = encodeWAV (mkBuffer (numberOfChannels b) (sampleRate b)
                            (region (channelL b)) (region (channelR b))) /\
    wavFrames w = e - s.
Proof.
  intros Hl Hlen Hdur Hs0 Hse Hend s e region.
  assert (Hcut : forall ch : list Q,
            length ch = length (channelL b) ->
            set_at (zeros (Z.to_nat (e - s))) (subarray ch s e) 0 = region ch).
  { intros ch Hch.
    destruct (subarray_inside ch s e) as [Hsub Hsl];
      [exact Hs0 | unfold s, e; lia | rewrite Hch; exact Hend |].
    rewrite <- Hsl, set_at_whole. exact Hsub. }
  exists (encodeWAV (mkBuffer (numberOfChannels b) (sampleRate b)
                              (region (channelL b)) (region (channelR b)))).
  split.
  { unfold sliceSelection. rewrite Hl. cbn [negb]. cbn zeta.
    fold (sliceDuration t).
    destruct (Qle_bool (sliceDuration t) (Dbl.literal (1 # 100))) eqn:Ed.
    { apply Qle_bool_iff in Ed. lra. }
    fold (startSample t b) (endSample t b). fold s e.
    destruct (Z.leb_spec (e - s) 0); [unfold s, e in *; lia|].
    rewrite !Hcut by (reflexivity || now symmetry). reflexivity. }
  split; [reflexivity|].
  destruct (wavFrames_encodeWAV
              (mkBuffer (numberOfChannels b) (sampleRate b)
                        (region (channelL b)) (region (channelR b))))
    as [-> _].
  - cbn [channelL channelR]. unfold region.
    rewrite !length_take, !length_drop, Hlen. reflexivity.
  - unfold frames. cbn [channelL]. unfold region.
    rewrite length_take, length_drop. unfold frames in Hend.
    unfold s, e in *. lia.
Qed.

Lemma sliceSelection_cuts_region_witness :
  let t := setLoopEnd (Some (Dbl.literal (3 # 100)))
             (setLoopStart (Some (Dbl.literal (1 # 100)))
                (loadData (Dbl.literal (4 # 100)) new_track)) in
  let b := mkBuffer 2 100 [1; 2; 3; 4]%Q [5; 6; 7; 8]%Q in
  exists w, sliceSelection t (Some b) = Some w /\ wavFrames w = 2.
Proof.
  intros t b.
  destruct (sliceSelection_cuts_region t b) as (w & Hw & _ & Hf).
  - reflexivity.
  - reflexivity.
  - vm_compute. reflexivity.
  - vm_compute. discriminate.
  - vm_compute. reflexivity.
  - vm_compute. discriminate.
  - exists w. split; [exact Hw | exact Hf].
Defined.

(** The first sample of a region that starts at 0.3 s, at 48000 Hz, is
    sample 14400: the machine's product is 14400, the exact product of the
    number 0.3 with the rate is below it. *)
Lemma startSample_follows_machine_product :
  let t := setLoopStart (Some (Dbl.literal (3 # 10))) (loadData 1 new_track) in
  let b := mkBuffer 2 48000 [] [] in
  startSample t b = 14400 /\
  Qfloor (Dbl.literal (3 # 10) * 48000) = 14399.
Proof. vm_compute. split; reflexivity. Qed.

End SliceFacts.

(** ** The cast batches *)

Module PcmMore.
Import Pcm PcmFacts.
Local Open Scope Z_scope.

Lemma encode_batch_cons (l : Q) (ls rightData : list Q) :
  exists b0 b1 b2 b3 b4 b5,
    encode_batch (l :: ls) rightData
    = b0 :: b1 :: b2 :: b3 :: b4 :: b5 :: encode_batch ls (tail rightData) /\
    [b0; b1; b2] = encode_sample l /\
    [b3; b4; b5] = match rightData with
                   | r :: _ => encode_sample r
                   | [] => [0; 0; 0]
                   end.
Proof.
  destruct rightData as [|r rs]; cbn [encode_batch tail];
    unfold encode_frame, encode_sample, bytes24; cbn [app];
    repeat eexists.
Qed.

Lemma encode_batch_length (leftData : list Q) :
  forall rightData,
    length (encode_batch leftData rightData) = (6 * length leftData)%nat.
Proof.
  induction leftData as [|l ls IH]; intros rightData; [reflexivity|].
  destruct (encode_batch_cons l ls rightData)
    as (b0 & b1 & b2 & b3 & b4 & b5 & -> & _ & _).
  cbn [length]. rewrite IH. lia.
Qed.

Lemma encode_batch_bytes (leftData : list Q) :
  forall rightData,
    Forall (fun b => 0 <= b < 256) (encode_batch leftData rightData).
Proof.
  induction leftData as [|l ls IH]; intros rightData; [constructor|].
  destruct (encode_batch_cons l ls rightData)
    as (b0 & b1 & b2 & b3 & b4 & b5 & -> & Hl & Hr).
  assert (H1 : Forall (fun b => 0 <= b < 256) [b0; b1; b2]).
  { rewrite Hl. apply bytes24_are_bytes. }
  assert (H2 : Forall (fun b => 0 <= b < 256) [b3; b4; b5]).
  { rewrite Hr. destruct rightData as [|r rs].
    - repeat constructor; lia.
    - apply bytes24_are_bytes. }
  inversion H1 as [|? ? ? H1' ]; subst. inversion H1' as [|? ? ? H1'']; subst.
  inversion H1'' ; subst.
  inversion H2 as [|? ? ? H2' ]; subst. inversion H2' as [|? ? ? H2'']; subst.
  inversion H2'' ; subst.
  repeat (constructor; [assumption|]). apply IH.
Qed.

Lemma encode_batch_frame (leftData : list Q) :
  forall (rightData : list Q) (i : nat) (l : Q),
    leftData !! i = Some l ->
    take 6 (drop (6 * i) (encode_batch leftData rightData))
    = encode_sample l ++ match rightData !! i with
                         | Some r => encode_sample r
                         | None => [0; 0; 0]
                         end.
Proof.
  induction leftData as [|x ls IH]; intros rightData i l Hi; [discriminate|].
  destruct (encode_batch_cons x ls rightData)
    as (b0 & b1 & b2 & b3 & b4 & b5 & -> & Hl & Hr).
  destruct i as [|i].
  - cbn in Hi. injection Hi as ->.
    change (6 * 0)%nat with 0%nat. cbn [drop take].
    rewrite <- Hl. cbn [app]. do 3 f_equal.
    destruct rightData as [|r rs]; exact Hr.
  - replace (6 * S i)%nat with (6 + 6 * i)%nat by lia.
    rewrite <- drop_drop. cbn [drop]. rewrite drop_0.
    rewrite (IH (tail rightData) i l Hi).
    destruct rightData as [|r rs]; reflexivity.
Qed.

Lemma take_split {A : Type} (n m : nat) (l : list A) :
  take (n + m) l = take n l ++ take m (drop n l).
Proof.
  revert l. induction n as [|n IH]; intros l; [reflexivity|].
  destruct l as [|x l]; [rewrite drop_nil, !take_nil; reflexivity|].
  cbn [Nat.add take drop app]. now rewrite IH.
Qed.

(** X22.  A batch of the cast pipe, 24-bit branch: a message with [n] left
    samples is framed as exactly [6 n] values, each of them a byte, and the
    six bytes at offset [6 i] are the three bytes of left sample [i]
    followed by the three bytes of right sample [i] (zeros when the right
    channel has no such sample).  Frames never shift and the channels never
    trade places, whatever the samples. *)
Theorem batch_is_framed (leftData rightData : list Q) :
  let batch := encode_batch leftData rightData in
  length batch = (6 * length leftData)%nat /\
  Forall (fun b => 0 <= b < 256) batch /\
  forall (i : nat) (l : Q),
    leftData !! i = Some l ->
    take 3 (drop (6 * i) batch) = encode_sample l /\
    take 3 (drop (6 * i + 3) batch)
    = match rightData !! i with
      | Some r => encode_sample r
      | None => [0; 0; 0]
      end.
Proof.
  intros batch. split; [apply encode_batch_length|].
  split; [apply encode_batch_bytes|].
  intros i l Hi.
  pose proof (encode_batch_frame leftData rightData i l Hi) as Hf.
  fold batch in Hf.
  assert (H3 : forall x, length (encode_sample x) = 3%nat) by reflexivity.
  assert (Hlen : length (take 6 (drop (6 * i) batch)) = 6%nat).
  { rewrite Hf, length_app, H3. destruct (rightData !! i); reflexivity. }
  rewrite length_take in Hlen.
  rewrite (take_split 3 3) in Hf. rewrite drop_drop in Hf.
  apply app_inj_1 in Hf; [exact Hf|].
  rewrite length_take, H3. lia.
Qed.

End PcmMore.

(** ** The stream cache *)

Module StreamMore.
Import Streams StreamOps.

Lemma known_new_manager : known new_manager.
Proof.
  split.
  - intros key stream H. unfold new_manager in H. cbn [inputStreams] in H.
    rewrite lookup_empty in H. discriminate.
  - intros stream H. unfold new_manager in H. cbn [live] in H.
    apply not_elem_of_empty in H. contradiction.
Qed.

Lemma known_stream_ended (stream : MediaStream) (m : Manager) :
  known m -> known (stream_ended stream m).
Proof.
  intros [Hc Hl]. split; [exact Hc|].
  intros s Hs. unfold stream_ended in Hs. cbn [live] in Hs.
  apply elem_of_difference in Hs as [Hs _]. now apply Hl.
Qed.

(** X23.  A call of [getSharedInputStream] that runs to its end on a manager
    whose streams all come from earlier requests: the stream returned is
    alive and is the one cached under the key of the call; the entries of
    all other keys are untouched.  A cached stream that is alive is
    returned as it is, with the manager unchanged.  Otherwise (nothing
    cached, or the cached stream has ended) exactly one new stream is
    opened, and it differs from every stream cached before. *)
Theorem call_replaces_ended_stream (deviceId : option string) (m : Manager) :
  known m ->
  let key := key_of deviceId in
  let m' := fst (call deviceId m) in
  let s' := snd (call deviceId m) in
  known m' /\
  inputStreams m' !! key = Some s' /\ s' ∈ live m' /\
  (forall k, k <> key -> inputStreams m' !! k = inputStreams m !! k) /\
  (forall s, inputStreams m !! key = Some s -> s ∈ live m -> s' = s /\ m' = m) /\
  ((inputStreams m !! key = None \/
    exists s, inputStreams m !! key = Some s /\ s ∉ live m) ->
   hardwareOpens m' = S (hardwareOpens m) /\
   (forall k s, inputStreams m !! k = Some s -> s <> s') /\
   live m' = {[s']} ∪ live m).
Proof.
  intros [Hc Hl] key m' s'.
  assert (Hcases :
    (exists s, inputStreams m !! key = Some s /\ s ∈ live m /\
               call deviceId m = (m, s)) \/
    ((inputStreams m !! key = None \/
      exists s, inputStreams m !! key = Some s /\ s ∉ live m) /\
     exists cache,
       (forall k, k <> key -> cache !! k = inputStreams m !! k) /\
       (forall k s, cache !! k = Some s -> inputStreams m !! k = Some s) /\
       call deviceId m
       = (mkManager (<[key := length (requests m)]> cache)
                    ({[length (requests m)]} ∪ live m)
                    (requests m ++ [match deviceId with
                                    | Some s => if String.eqb s "" then None else Some s
                                    | None => None
                                    end]),
          length (requests m)))).
  { unfold call, enter. fold key.
    destruct (inputStreams m !! key) as [s|] eqn:E.
    - destruct (decide (s ∈ live m)) as [Hin|Hout].
      + left. exists s. split; [reflexivity|]. split; [exact Hin|reflexivity].
      + right. split; [right; exists s; now split|].
        exists (delete key (inputStreams m)). split; [|split].
        * intros k Hk. now rewrite lookup_delete_ne.
        * intros k s0 Hk. apply lookup_delete_Some in Hk. tauto.
        * reflexivity.
    - right. split; [now left|].
      exists (inputStreams m). split; [|split].
      * reflexivity.
      * tauto.
      * reflexivity. }
  destruct Hcases as [(s & Hs & Hin & Hcall)|(Hmiss & cache & Hk & Hsub & Hcall)];
    unfold m', s'; rewrite Hcall; cbn [fst snd].
  - split; [now split|]. split; [exact Hs|]. split; [exact Hin|].
    split; [reflexivity|]. split.
    + intros s0 Hs0 _. rewrite Hs in Hs0. injection Hs0 as ->. now split.
    + intros [Hn|(s0 & Hs0 & Hout)].
      * rewrite Hs in Hn. discriminate.
      * rewrite Hs in Hs0. injection Hs0 as ->. contradiction.
  - cbn [inputStreams live requests].
    split.
    { split; cbn [inputStreams live requests]; rewrite length_app; cbn [length].
      - intros k s Hks. destruct (decide (k = key)) as [->|Hne].
        + rewrite lookup_insert_eq in Hks. injection Hks as <-. lia.
        + rewrite lookup_insert_ne in Hks by congruence.
          apply Hsub in Hks. apply Hc in Hks. lia.
      - intros s Hs. apply elem_of_union in Hs as [Hs|Hs].
        + apply elem_of_singleton in Hs. lia.
        + apply Hl in Hs. lia. }
    split; [apply lookup_insert_eq|].
    split; [apply elem_of_union; left; now apply elem_of_singleton|].
    split.
    { intros k Hne. rewrite lookup_insert_ne by congruence. now apply Hk. }
    split.
    { intros s Hs Hin. destruct Hmiss as [Hn|(s0 & Hs0 & Hout)].
      - rewrite Hs in Hn. discriminate.
      - rewrite Hs in Hs0. injection Hs0 as ->. contradiction. }
    intros _. split.
    { unfold hardwareOpens. cbn [requests]. rewrite length_app. cbn. lia. }
    split; [|reflexivity].
    intros k s Hks. apply Hc in Hks. lia.
Qed.

Lemma call_replaces_ended_stream_witness :
  let m1 := fst (call (Some "mic") new_manager) in
  let m2 := stream_ended 0 m1 in
  snd (call (Some "mic") m2) ∈ live (fst (call (Some "mic") m2)) /\
  hardwareOpens (fst (call (Some "mic") m2)) = 2.
Proof.
  intros m1 m2.
  assert (Hk : known m2).
  { apply known_stream_ended.
    exact (proj1 (call_replaces_ended_stream (Some "mic") new_manager
                    known_new_manager)). }
  destruct (call_replaces_ended_stream (Some "mic") m2 Hk)
    as (_ & _ & Hlive & _ & _ & Hnew).
  split; [exact Hlive|].
  destruct Hnew as (Hopens & _).
  - right. exists 0. split; [reflexivity|].
    unfold m2, stream_ended. cbn [live]. apply not_elem_of_difference.
    right. now apply elem_of_singleton.
  - exact Hopens.
Defined.

End StreamMore.

(** ** More of the sampler service *)

Module SamplerMore.
Import Sampler SamplerOps SamplerFacts.
Local Open Scope Z_scope.

Lemma update_voice_other (padId : Z) (f : SamplerVoice -> SamplerVoice)
    (svc : SamplerService) (i : nat) :
  i <> Z.to_nat (padId - 1) ->
  voices (update_voice padId f svc) !! i = voices svc !! i.
Proof.
  intros Hne. unfold update_voice. cbn [voices].
  now rewrite list_lookup_alter_ne by congruence.
Qed.

(** X24.  What [triggerPad] does to the voices other than the pad's own,
    whether or not the audio context is running.  The pad's [chokeGroup] is
    tested with [!== null] and compared with [===]: [null] is the only
    value that stands for no group, and [undefined] (a pad restored from an
    entry without the key) is a group like any number.  When the pad's
    [chokeGroup] is [null] or differs from that of another voice, that
    voice is left exactly as it is, sounding or not; when it is not [null]
    and equals that of another voice, that voice is stopped.  [releasePad]
    and the later end of a suspended trigger leave every other voice as it
    is. *)
Theorem triggerPad_spares_other_voices (running : bool) (svc : SamplerService)
    (padId : Z) (i : nat) (v : SamplerVoice) :
  voices svc !! i = Some v ->
  Z.of_nat i + 1 <> padId ->
  ((forall voice, getVoice padId svc = Some voice ->
                  chokeGroup voice = GNull \/ chokeGroup voice <> chokeGroup v) ->
   voices (fst (triggerPad running padId svc)) !! i = Some v) /\
  (forall voice, getVoice padId svc = Some voice ->
                 chokeGroup voice <> GNull -> chokeGroup voice = chokeGroup v ->
                 id v <> id voice ->
   voices (fst (triggerPad running padId svc)) !! i = Some (stop v)) /\
  voices (releasePad padId svc) !! i = Some v /\
  voices (resumePad padId svc) !! i = Some v.
Proof.
  intros Hv Hne.
  assert (Hidx' : forall voice, getVoice padId svc = Some voice ->
                                i <> Z.to_nat (padId - 1)).
  { intros voice Hg. apply getVoice_lookup in Hg as [Hp _]. lia. }
  split; [|split; [|split]].
  - intros Hgroup. unfold triggerPad.
    destruct (getVoice padId svc) as [voice|] eqn:Eg; [|exact Hv].
    cbn [fst]. rewrite update_voice_other by exact (Hidx' voice eq_refl).
    destruct (Hgroup voice eq_refl) as [Hnone|Hdiff].
    + rewrite Hnone. exact Hv.
    + assert (Hs : voices (silenceChokeGroup (chokeGroup voice) (id voice) svc) !! i
                   = Some v).
      { unfold silenceChokeGroup. cbn [voices].
        rewrite list_lookup_fmap, Hv. cbn.
        destruct (in_group (chokeGroup voice) v) eqn:Ein; [|reflexivity].
        apply in_group_iff in Ein. congruence. }
      destruct (chokeGroup voice); [exact Hv | exact Hs | exact Hs].
  - intros voice Eg Hnn Hsame Hid.
    rewrite (triggerPad_grouped running svc padId voice Eg Hnn). cbn [fst].
    rewrite update_voice_other by exact (Hidx' voice Eg).
    unfold silenceChokeGroup. cbn [voices].
    rewrite list_lookup_fmap, Hv. cbn.
    assert (Ein : in_group (chokeGroup voice) v = true)
      by (apply in_group_iff; congruence).
    rewrite Ein. destruct (Z.eqb_spec (id v) (id voice)); [contradiction|].
    reflexivity.
  - unfold releasePad. destruct (getVoice padId svc) as [voice|] eqn:Eg;
      [|exact Hv].
    rewrite update_voice_other by exact (Hidx' voice eq_refl). exact Hv.
  - unfold resumePad. destruct (getVoice padId svc) as [voice|] eqn:Eg;
      [|exact Hv].
    rewrite update_voice_other by exact (Hidx' voice eq_refl). exact Hv.
Qed.

(** Pad 1 is in group 7 and pad 2 in group 8: a trigger of pad 1 leaves pad
    2 as it is.  Pads 3 and 4 have an undefined [chokeGroup] and pad 4
    sounds: a trigger of pad 3 stops it. *)
Lemma triggerPad_spares_other_voices_witness :
  let svc := setPadChokeGroup 1 (GNum 7) (setPadChokeGroup 2 (GNum 8) new_service) in
  let und :=
    update_voice 4 (fun v => trigger_body (load_resolved v))
      (setPadChokeGroup 4 GUndefined (setPadChokeGroup 3 GUndefined new_service)) in
  (exists v, voices svc !! 1%nat = Some v /\
             voices (fst (triggerPad false 1 svc)) !! 1%nat = Some v) /\
  (exists v, voices und !! 3%nat = Some v /\ started (player v) = true /\
             voices (fst (triggerPad true 3 und)) !! 3%nat = Some (stop v)).
Proof.
  intros svc und. split.
  - exists (set_chokeGroup (GNum 8) (connect SamplerOutput (new_voice 2))).
    split; [reflexivity|].
    refine (proj1 (triggerPad_spares_other_voices false svc 1 1 _ eq_refl _) _);
      [lia|].
    intros voice Hg. right. vm_compute in Hg. injection Hg as <-. discriminate.
  - eexists. split; [reflexivity|]. split; [reflexivity|].
    refine (proj1 (proj2 (triggerPad_spares_other_voices true und 3 3 _ eq_refl _))
              _ eq_refl _ _ _); [lia | discriminate | reflexivity | discriminate].
Defined.

(** X25.  [loadState] restores at most one pad.  The entries are read in
    order; the first one that names a pad of the service and carries a URL
    has its sample requested, its mode and its choke group set, and then the
    call ends by the exception of the missing [setLoop]: no later entry is
    read, every other voice stays as it is, and the loop flag is not
    restored.  Only when no entry can be restored does the call return
    normally, with the service unchanged. *)
Theorem loadState_restores_one_pad (state : list PadState)
    (svc : SamplerService) :
  let svc' := fst (loadState (Some state) svc) in
  let threw := snd (loadState (Some state) svc) in
  (threw = false ->
   svc' = svc /\ Forall (fun s => restorable svc s = None) state) /\
  (threw = true ->
   exists pre s post url,
     state = pre ++ s :: post /\
     Forall (fun s => restorable svc s = None) pre /\
     restorable svc s = Some url /\
     loadState (Some (pre ++ [s])) svc = (svc', true) /\
     (forall i, i <> Z.to_nat (s_id s - 1) ->
                voices svc' !! i = voices svc !! i) /\
     (forall v, getVoice (s_id s) svc = Some v ->
        exists v', getVoice (s_id s) svc' = Some v' /\
                   assignedUrl v' = Some url /\
                   chokeGroup v' = s_chokeGroup s /\
                   loop (player v') = loop (player v))).
Proof.
  cbn [loadState]. induction state as [|s rest IH]; cbn zeta.
  - split; [intros _; split; [reflexivity | constructor] | discriminate].
  - cbn [loadState_entries]. destruct (restorable svc s) as [url|] eqn:Er.
    + cbn [fst snd]. split; [discriminate|]. intros _.
      exists [], s, rest, url. split; [reflexivity|]. split; [constructor|].
      split; [exact Er|]. split.
      { cbn [app loadState loadState_entries]. now rewrite Er. }
      split.
      { intros i Hi. now apply update_voice_other. }
      intros v Hv. apply getVoice_lookup in Hv as [Hp Hv].
      eexists. split.
      { unfold getVoice, update_voice. cbn [voices].
        destruct (Z.ltb_spec (s_id s - 1) 0); [lia|].
        rewrite list_lookup_alter_eq, Hv. reflexivity. }
      unfold setMode, load. destruct (mode_of_string (s_mode s)); repeat split.
    + cbn zeta in IH. destruct IH as [IHf IHt]. split.
      * intros Hf. destruct (IHf Hf) as [-> Hall]. split; [reflexivity|].
        constructor; assumption.
      * intros Ht. destruct (IHt Ht) as (pre & s0 & post & url & -> & Hpre & Hs0 & Hrun & Hrest).
        exists (s :: pre), s0, post, url. split; [reflexivity|].
        split; [constructor; assumption|]. split; [exact Hs0|].
        split; [|exact Hrest].
        cbn [app loadState loadState_entries]. rewrite Er. exact Hrun.
Qed.

(** X26.  After [stopAll] no voice of any choke group sounds, while every
    voice keeps its mode, its group, its routing and its playing flag.  The
    flag is cleared by the [onstop] callback only: a loaded toggle pad that
    was playing, triggered before that callback, is stopped once more
    instead of started; triggered after it, it starts.  This is so whether
    the trigger runs within the call or, the audio context not running,
    ends later. *)
Theorem stopAll_silences_every_voice (svc : SamplerService) :
  (forall g, sounding g (stopAll svc) = []) /\
  length (voices (stopAll svc)) = length (voices svc) /\
  (forall i v, voices svc !! i = Some v ->
     exists v', voices (stopAll svc) !! i = Some v' /\
       started (player v') = false /\
       mode v' = mode v /\ chokeGroup v' = chokeGroup v /\
       outputBus v' = outputBus v /\ _isPlaying v' = _isPlaying v /\
       (mode v = toggle -> loaded (player v) = true -> _isPlaying v = true ->
          forall running : bool,
            started (player (trigger_to_end running v')) = false /\
            started (player (trigger_to_end running (onstop v'))) = true)).
Proof.
  split; [|split].
  - intros g. unfold sounding, stopAll. cbn [voices].
    induction (voices svc) as [|v l IH]; [reflexivity|].
    cbn [fmap list_fmap List.filter]. rewrite stop_started, andb_false_r.
    exact IH.
  - unfold stopAll. cbn [voices]. apply length_fmap.
  - intros i v Hv. exists (stop v). split.
    { unfold stopAll. cbn [voices]. now rewrite list_lookup_fmap, Hv. }
    split; [reflexivity|]. do 4 (split; [reflexivity|]).
    intros Hm Hl Hp.
    destruct v as [i0 m tw g nm u playing [ld lp st outs] bus].
    cbn in Hm, Hl, Hp. subst m ld playing. intros [|]; split; reflexivity.
Qed.

(** X27.  [assignSample] on an existing pad sets the mode of the pad's row
    (one-shot for pads 1 to 4, toggle for 9 to 12, gate for the others up to
    20), stops the pad's player, records the URL, and leaves every other
    voice as it is; for a pad number without a voice it rejects and changes
    nothing. *)
Theorem assignSample_sets_row_mode (svc : SamplerService) (padId : Z)
    (url : string) (nm : option string) (tracks : Tracks) :
  let r := assignSample padId url nm tracks svc in
  (getVoice padId svc = None -> r = (svc, false)) /\
  (forall voice, getVoice padId svc = Some voice -> 1 <= padId <= 20 ->
     exists voice',
       getVoice padId (fst r) = Some voice' /\ snd r = true /\
       mode voice' = (if (9 <=? padId) && (padId <=? 12) then toggle
                      else if padId <=? 4 then oneshot else gate) /\
       started (player voice') = false /\
       assignedUrl voice' = Some url /\
       chokeGroup voice' = chokeGroup voice /\
       _isPlaying voice' = _isPlaying voice /\
       forall i, i <> Z.to_nat (padId - 1) ->
                 voices (fst r) !! i = voices svc !! i).
Proof.
  intros r. unfold r, assignSample. split.
  - intros ->. reflexivity.
  - intros voice Hv Hp. rewrite Hv. cbn [fst snd].
    apply getVoice_lookup in Hv as [_ Hv].
    eexists. split.
    { unfold getVoice, update_voice. cbn [voices].
      destruct (Z.ltb_spec (padId - 1) 0); [lia|].
      rewrite list_lookup_alter_eq, Hv. reflexivity. }
    split; [reflexivity|].
    assert (Hmode : mode_of_string (defaultMode padId)
                    = Some (if (9 <=? padId) && (padId <=? 12) then toggle
                            else if padId <=? 4 then oneshot else gate)).
    { unfold defaultMode.
      destruct (Z.leb_spec 1 padId), (Z.leb_spec padId 4),
        (Z.leb_spec 5 padId), (Z.leb_spec padId 8),
        (Z.leb_spec 9 padId), (Z.leb_spec padId 12),
        (Z.leb_spec 13 padId), (Z.leb_spec padId 16),
        (Z.leb_spec 17 padId), (Z.leb_spec padId 20);
        try lia; reflexivity. }
    unfold setMode. rewrite Hmode.
    assert (Hroute : forall u : SamplerVoice,
              mode (load url nm (route padId tracks u)) = mode u /\
              started (player (load url nm (route padId tracks u)))
                = started (player u) /\
              assignedUrl (load url nm (route padId tracks u)) = Some url /\
              chokeGroup (load url nm (route padId tracks u)) = chokeGroup u /\
              _isPlaying (load url nm (route padId tracks u)) = _isPlaying u).
    { intros u. unfold load, route.
      destruct ((17 <=? padId) && (padId <=? 20));
        [destruct (chain_input_of tracks (trackIndex_of padId))|];
        repeat split. }
    match goal with |- context [load url nm (route padId tracks ?u)] =>
      destruct (Hroute u) as (-> & -> & -> & -> & ->) end.
    repeat (split; [reflexivity|]).
    intros i Hi. now apply update_voice_other.
Qed.

End SamplerMore.

(** ** The level reports of the capture processor *)

Module WorkletPeakFacts.
Import Worklet WorkletPeak JsFacts.

Lemma is_peak_of_nil : is_peak_of [] 0%Q.
Proof.
  split; [|now left]. intros x Hx. apply elem_of_nil in Hx. contradiction.
Qed.

(** One more sample pair, folded into the running peak as the loop does. *)
Lemma is_peak_of_step (pk l r : Q) :
  let abs := Js.max (Qabs l) (Qabs r) in
  let pk' := if Js.lt_bool pk abs then abs else pk in
  (pk <= pk')%Q /\ (Qabs l <= pk')%Q /\ (Qabs r <= pk')%Q /\
  (pk' = pk \/ pk' = Qabs l \/ pk' = Qabs r).
Proof.
  intros abs pk'.
  assert (Habs : (Qabs l <= abs)%Q /\ (Qabs r <= abs)%Q /\
                 (abs = Qabs l \/ abs = Qabs r)).
  { unfold abs, Js.max. destruct (Qle_bool (Qabs l) (Qabs r)) eqn:E.
    - apply Qle_bool_iff in E. repeat split; [exact E | lra | now right].
    - assert (Qabs r <= Qabs l)%Q.
      { destruct (Qlt_le_dec (Qabs r) (Qabs l)) as [H|H]; [lra|].
        apply Qle_bool_iff in H. congruence. }
      repeat split; [lra | assumption | now left]. }
  destruct Habs as (Hl & Hr & Hof).
  unfold pk'. destruct (Js.lt_bool pk abs) eqn:E.
  - apply lt_bool_iff in E. repeat split; try lra.
    right. exact Hof.
  - assert (abs <= pk)%Q.
    { destruct (Qlt_le_dec pk abs) as [H|H]; [|exact H].
      apply lt_bool_iff in H. congruence. }
    repeat split; try lra. now left.
Qed.

Lemma sample_step_inv (st : RecorderProcessor * list Message) (l r : Q) :
  skip_done (fst st) ->
  let st' := sample_step st l r in
  skip_done (fst st') /\ _peakCount (fst st') = _peakCount (fst st) /\
  peaks (snd st') = peaks (snd st) /\
  (_peak (fst st) <= _peak (fst st'))%Q /\
  (Qabs l <= _peak (fst st'))%Q /\ (Qabs r <= _peak (fst st'))%Q /\
  (_peak (fst st') = _peak (fst st) \/ _peak (fst st') = Qabs l \/
   _peak (fst st') = Qabs r).
Proof.
  intros Hskip st'. unfold st', sample_step.
  unfold skip_done in Hskip.
  destruct (Nat.ltb_spec (skippedSamples (fst st)) (samplesToSkip (fst st)));
    [lia|].
  pose proof (is_peak_of_step (_peak (fst st)) l r) as Hpk. cbn zeta in Hpk.
  destruct (bufferSize (fst st) <=? S (index (fst st)));
    cbn [fst snd _peak _peakCount samplesToSkip skippedSamples];
    (split; [exact Hskip|]); (split; [reflexivity|]); split;
    try exact Hpk; try reflexivity.
  unfold peaks. rewrite omap_app. cbn. apply app_nil_r.
Qed.

Lemma sample_loop_inv (leftRest : list Q) :
  forall (i : nat) (rightIn : list Q) (st : RecorderProcessor * list Message),
    skip_done (fst st) ->
    loop_inv (leftRest ++ take (length leftRest) (drop i rightIn))
             st (sample_loop i leftRest rightIn st).
Proof.
  induction leftRest as [|valL rest IH]; intros i rightIn st Hskip.
  - cbn. unfold loop_inv. split; [exact Hskip|]. split; [reflexivity|].
    split; [reflexivity|]. split; [lra|]. split; [|now left].
    intros x Hx. apply elem_of_nil in Hx. contradiction.
  - cbn [sample_loop].
    set (rv := default 0%Q (rightIn !! i)).
    destruct (sample_step_inv st valL rv Hskip)
      as (S1 & C1 & P1 & Le1 & Bl & Br & At1).
    destruct (IH (S i) rightIn (sample_step st valL rv) S1)
      as (S2 & C2 & P2 & Le2 & B2 & At2).
    set (st1 := sample_step st valL rv) in *.
    set (st2 := sample_loop (S i) rest rightIn st1) in *.
    assert (Hread : forall x,
              x ∈ (valL :: rest) ++ take (length (valL :: rest)) (drop i rightIn) <->
              x = valL \/ (exists r, rightIn !! i = Some r /\ x = r) \/
              x ∈ rest ++ take (length rest) (drop (S i) rightIn)).
    { intros x. cbn [length].
      destruct (rightIn !! i) as [r|] eqn:Er.
      - rewrite (drop_S _ _ _ Er). cbn [take app].
        rewrite !elem_of_cons, !elem_of_app, elem_of_cons.
        split.
        + intros [->|[H|[->|H]]]; eauto 6.
        + intros [->|[(r0 & [= <-] & ->)|[H|H]]]; eauto.
      - rewrite (drop_ge rightIn i) by (now apply lookup_ge_None).
        rewrite (drop_ge rightIn (S i))
          by (apply lookup_ge_None in Er; lia).
        rewrite !take_nil, !app_nil_r, elem_of_cons.
        split.
        + intros [->|H]; eauto.
        + intros [->|[(r0 & [=] & _)|H]]; eauto. }
    unfold loop_inv. split; [exact S2|]. split; [congruence|].
    split; [congruence|]. split; [lra|]. split.
    + intros x Hx. apply Hread in Hx as [->|[(r & Er & ->)|Hx]].
      * lra.
      * unfold rv in Br. rewrite Er in Br. cbn in Br. lra.
      * now apply B2.
    + destruct At2 as [E2|[E2|(x & Hx & E2)]].
      * rewrite E2. destruct At1 as [E1|[E1|E1]].
        -- now left.
        -- right. right. exists valL. split; [apply Hread; now left | exact E1].
        -- unfold rv in E1. destruct (rightIn !! i) as [r|] eqn:Er.
           ++ right. right. exists r. split; [|exact E1].
              apply Hread. right. left. now exists r.
           ++ right. left. exact E1.
      * right. now left.
      * right. right. exists x. split; [|exact E2].
        apply Hread. now right; right.
Qed.

(** One render quantum seen from outside: the state after the sample loop,
    then the counter. *)
Lemma process_cases (input : list (list Q)) (p : RecorderProcessor) :
  input <> [] -> skip_done p ->
  exists p1 msgs,
    loop_inv (samples_read input) (p, []) (p1, msgs) /\
    ((_peakCount p < 30 ->
      snd (process input p) = msgs /\
      skip_done (fst (process input p)) /\
      _peak (fst (process input p)) = _peak p1 /\
      _peakCount (fst (process input p)) = S (_peakCount p)) /\
     (30 <= _peakCount p ->
      snd (process input p) = msgs ++ [Peak (_peak p1) (length input)] /\
      skip_done (fst (process input p)) /\
      _peak (fst (process input p)) = 0%Q /\
      _peakCount (fst (process input p)) = 0)).
Proof.
  intros Hne Hskip. destruct input as [|leftIn others]; [contradiction|].
  set (rightIn := match others with r :: _ => r | [] => leftIn end).
  pose proof (sample_loop_inv leftIn 0 rightIn (p, []) Hskip) as Hinv.
  rewrite drop_0 in Hinv.
  destruct (sample_loop 0 leftIn rightIn (p, [])) as [p1 msgs] eqn:El.
  exists p1, msgs. split; [exact Hinv|].
  destruct Hinv as (S1 & C1 & _). cbn [fst snd] in S1, C1.
  unfold process. fold rightIn. rewrite El. cbn [fst snd]. rewrite C1.
  split; intros Hc.
  - destruct (Nat.ltb_spec 30 (S (_peakCount p))); [lia|].
    cbn [fst snd _peak _peakCount]. repeat split. exact S1.
  - destruct (Nat.ltb_spec 30 (S (_peakCount p))); [|lia].
    cbn [fst snd _peak _peakCount]. repeat split. exact S1.
Qed.

Lemma run_snoc (inputs : list (list (list Q))) (input : list (list Q))
    (st : RecorderProcessor * list Message) :
  run (inputs ++ [input]) st
  = (fst (process input (fst (run inputs st))),
     snd (run inputs st) ++ snd (process input (fst (run inputs st)))).
Proof. unfold run. rewrite fold_left_app. reflexivity. Qed.

(** The quanta between two reports: nothing is reported and the running
    peak is the largest absolute value read so far. *)
Lemma run_quiet (inputs : list (list (list Q))) (p : RecorderProcessor) :
  Forall (fun input => input <> []) inputs ->
  skip_done p -> _peakCount p = 0 -> _peak p = 0%Q ->
  length inputs <= 30 ->
  let st := run inputs (p, []) in
  skip_done (fst st) /\ _peakCount (fst st) = length inputs /\
  peaks (snd st) = [] /\
  is_peak_of (concat (samples_read <$> inputs)) (_peak (fst st)).
Proof.
  intros Hne Hskip Hc Hp.
  induction inputs as [|input inputs IH] using rev_ind; intros Hlen st.
  - cbn. split; [exact Hskip|]. split; [exact Hc|]. split; [reflexivity|].
    rewrite Hp. apply is_peak_of_nil.
  - apply Forall_app in Hne as [Hne Hin]. rewrite Forall_singleton in Hin.
    rewrite length_app in Hlen. cbn [length] in Hlen.
    destruct (IH Hne ltac:(lia)) as (S0 & C0 & P0 & [B0 A0]).
    unfold st. rewrite run_snoc.
    set (st0 := run inputs (p, [])) in *.
    destruct (process_cases input (fst st0) Hin S0)
      as (p1 & msgs & (S1 & C1 & P1 & Le1 & B1 & A1) & Hquiet & _).
    destruct (Hquiet ltac:(lia)) as (Hm & S2 & Pk2 & C2).
    cbn [fst snd] in *.
    split; [exact S2|]. split; [rewrite length_app; cbn [length]; lia|].
    split.
    { unfold peaks in *. rewrite omap_app, P0, Hm, P1. reflexivity. }
    rewrite Pk2, fmap_app, concat_app. cbn [fmap list_fmap concat].
    rewrite app_nil_r. split.
    + intros x Hx. apply elem_of_app in Hx as [Hx|Hx].
      * specialize (B0 x Hx). lra.
      * now apply B1.
    + destruct A1 as [E|[E|(x & Hx & E)]].
      * rewrite E. destruct A0 as [E0|(x & Hx & E0)]; [now left|].
        right. exists x. split; [apply elem_of_app; now left | exact E0].
      * now left.
      * right. exists x. split; [apply elem_of_app; now right | exact E].
Qed.

(** X28.  Level reports of the capture processor.  Starting from a cleared
    peak, with the latency compensation over, the processor posts no peak
    message during thirty non-empty render quanta and exactly one at the
    end of the thirty-first.  The value reported is the largest absolute
    value among all samples read from both channels in these thirty-one
    quanta (0 when there was none), and the report clears peak and counter,
    so the next window starts the same way. *)
Theorem peak_report_is_window_maximum (p : RecorderProcessor)
    (inputs : list (list (list Q))) :
  skip_done p -> _peakCount p = 0 -> _peak p = 0%Q ->
  length inputs = 31 ->
  Forall (fun input => input <> []) inputs ->
  let st := run inputs (p, []) in
  (forall k, k < 31 -> peaks (snd (run (take k inputs) (p, []))) = []) /\
  exists v,
    peaks (snd st) = [v] /\
    is_peak_of (concat (samples_read <$> inputs)) v /\
    _peak (fst st) = 0%Q /\ _peakCount (fst st) = 0.
Proof.
  intros Hskip Hc Hp Hlen Hne st. split.
  - intros k Hk.
    destruct (run_quiet (take k inputs) p) as (_ & _ & H & _);
      try assumption.
    + now apply Forall_take.
    + rewrite length_take. lia.
  - destruct (exists_last (l := inputs)) as (front & input & Hsplit).
    { intros ->. discriminate Hlen. }
    unfold st. clear st. subst inputs.
    rewrite length_app in Hlen. cbn [length] in Hlen.
    apply Forall_app in Hne as [Hne Hin]. rewrite Forall_singleton in Hin.
    destruct (run_quiet front p Hne Hskip Hc Hp ltac:(lia))
      as (S0 & C0 & P0 & [B0 A0]).
    rewrite run_snoc.
    set (st0 := run front (p, [])) in *.
    destruct (process_cases input (fst st0) Hin S0)
      as (p1 & msgs & (S1 & C1 & P1 & Le1 & B1 & A1) & _ & Hreport).
    destruct (Hreport ltac:(lia)) as (Hm & S2 & Pk2 & C2).
    cbn [fst snd] in *.
    exists (_peak p1). split.
    { unfold peaks in *. rewrite omap_app, P0, Hm, omap_app, P1. reflexivity. }
    split; [|split; assumption].
    rewrite fmap_app, concat_app. cbn [fmap list_fmap concat].
    rewrite app_nil_r. split.
    + intros x Hx. apply elem_of_app in Hx as [Hx|Hx].
      * specialize (B0 x Hx). lra.
      * now apply B1.
    + destruct A1 as [E|[E|(x & Hx & E)]].
      * rewrite E. destruct A0 as [E0|(x & Hx & E0)]; [now left|].
        right. exists x. split; [apply elem_of_app; now left | exact E0].
      * now left.
      * right. exists x. split; [apply elem_of_app; now right | exact E].
Qed.

Lemma peak_report_is_window_maximum_witness :
  let quantum := [[1 # 2; -(3 # 4)]; [1 # 8; 1 # 4]]%Q in
  exists v,
    peaks (snd (run (replicate 31 quantum) (fst (new_processor None), [])))
    = [v] /\ (3 # 4 <= v)%Q.
Proof.
  intros quantum.
  destruct (peak_report_is_window_maximum (fst (new_processor None))
              (replicate 31 quantum)) as (_ & v & Hv & [Hb _] & _).
  - unfold skip_done. cbn. lia.
  - reflexivity.
  - reflexivity.
  - apply length_replicate.
  - apply Forall_replicate. discriminate.
  - exists v. split; [exact Hv|].
    apply (Hb (-(3 # 4))%Q).
    change (replicate 31 quantum) with (quantum :: replicate 30 quantum).
    rewrite fmap_cons. cbn [concat]. apply elem_of_app. left.
    unfold quantum, samples_read. cbn [app]. right. left.
Defined.

End WorkletPeakFacts.
